(** * AI news scraper: entity extraction, normalisation, topic clustering
      and thread detection

    A shallow embedding of the algorithmic core of [ai_news_scraper.py]
    ([extract_entities], [normalize_item], [cluster_by_topic],
    [detect_threads]) and the properties of it that the specification
    states.

    Conventions of the embedding.
    - A Python [str] is a [string]; texts are taken to be ASCII, so that
      [len], [lower] and the regular-expression classes [\w], [\s],
      [[A-Z]], [[a-z]] act on single characters.  String comparison is
      the lexicographic order on character codes, as in Python.
    - A Python [set] of strings is a [gset string].  Python does not fix
      the order in which a set is iterated; the development is parametric
      in it ([SetOrder]).
    - A Python [dict] used as an insertion-ordered map ([defaultdict(list)])
      is an association list in insertion order.
    - A record read with [.get(key, default)] is a Rocq record whose
      fields are options ([None]: the key is absent).
    - A raised exception is the [Raise] outcome of the [result] monad. *)

From Stdlib Require Import ZArith Ascii String.
From stdpp Require Import base option list sorting gmap strings.

Local Open Scope Z_scope.

(** ** Outcomes: a value or a raised exception *)

Inductive exn : Type :=
  | TypeError
  | IndexError.

Inductive result (A : Type) : Type :=
  | Ok (a : A)
  | Raise (e : exn).
Arguments Ok {A} a.
Arguments Raise {A} e.

Definition bind {A B : Type} (r : result A) (k : A → result B) : result B :=
  match r with
  | Ok a => k a
  | Raise e => Raise e
  end.

Notation "'let*' x := r 'in' k" := (bind r (λ x, k))
  (at level 10, x name, r at level 100, k at level 200).

(** [[f(x) for x in l]] where [f] may raise. *)
Fixpoint mapR {A B : Type} (f : A → result B) (l : list A) : result (list B) :=
  match l with
  | [] => Ok []
  | x :: l' => let* y := f x in let* ys := mapR f l' in Ok (y :: ys)
  end.

(** [for x in l: st = f(st, x)] where the body may raise. *)
Fixpoint foldR {A S : Type} (f : S → A → result S) (st : S) (l : list A)
  : result S :=
  match l with
  | [] => Ok st
  | x :: l' => let* st' := f st x in foldR f st' l'
  end.

(** ** Python's stable sort

    [list.sort(key=...)] is stable, and so is [list.sort(key=...,
    reverse=True)]: elements with equal keys keep their original order in
    both.  The result of a stable sort does not depend on the algorithm,
    so it is modelled by insertion; [lt a b] is Python's [key(a) < key(b)],
    which may raise. *)

Section py_sort.
Context {A : Type} (lt : A → A → result bool).

(** ascending: [x] goes before the first [y] with [not (y < x)] *)
Fixpoint insert_asc (x : A) (l : list A) : result (list A) :=
  match l with
  | [] => Ok [x]
  | y :: l' =>
      match lt y x with
      | Ok true => let* r := insert_asc x l' in Ok (y :: r)
      | Ok false => Ok (x :: y :: l')
      | Raise e => Raise e
      end
  end.

Fixpoint sort_asc (l : list A) : result (list A) :=
  match l with
  | [] => Ok []
  | x :: l' => let* s := sort_asc l' in insert_asc x s
  end.

(** descending ([reverse=True]): [x] goes before the first [y] with
    [not (x < y)] *)
Fixpoint insert_desc (x : A) (l : list A) : result (list A) :=
  match l with
  | [] => Ok [x]
  | y :: l' =>
      match lt x y with
      | Ok true => let* r := insert_desc x l' in Ok (y :: r)
      | Ok false => Ok (x :: y :: l')
      | Raise e => Raise e
      end
  end.

Fixpoint sort_desc (l : list A) : result (list A) :=
  match l with
  | [] => Ok []
  | x :: l' => let* s := sort_desc l' in insert_desc x s
  end.
End py_sort.

(** ** Characters and text *)

Definition code (c : ascii) : N := N_of_ascii c.

Definition is_upper (c : ascii) : bool := ((65 <=? code c) && (code c <=? 90))%N.
Definition is_lower (c : ascii) : bool := ((97 <=? code c) && (code c <=? 122))%N.
Definition is_digit (c : ascii) : bool := ((48 <=? code c) && (code c <=? 57))%N.

(** [\w] on ASCII text *)
Definition is_word (c : ascii) : bool :=
  is_upper c || is_lower c || is_digit c || (code c =? 95)%N.

(** [\s] on ASCII text: tab, newline, vertical tab, form feed, carriage
    return, the four separators 28-31 and the space *)
Definition is_space (c : ascii) : bool :=
  ((9 <=? code c) && (code c <=? 13) || (28 <=? code c) && (code c <=? 32))%N.

Definition lower_char (c : ascii) : ascii :=
  if is_upper c then ascii_of_N (code c + 32) else c.

(** [str.lower()] *)
Fixpoint lower (s : string) : string :=
  match s with
  | EmptyString => EmptyString
  | String c s' => String (lower_char c) (lower s')
  end.

Definition head_char (s : string) : option ascii :=
  match s with
  | EmptyString => None
  | String c _ => Some c
  end.

(** last character of [s], or [d] when [s] is empty *)
Fixpoint last_char (d : option ascii) (s : string) : option ascii :=
  match s with
  | EmptyString => d
  | String c s' => last_char (Some c) s'
  end.

(** [s] without its prefix [p], when [s] starts with [p] *)
Fixpoint strip_prefix (p s : string) : option string :=
  match p, s with
  | EmptyString, _ => Some s
  | String a p', String b s' => if Ascii.eqb a b then strip_prefix p' s' else None
  | String _ _, EmptyString => None
  end.

(** [p in s] *)
Fixpoint contains (p s : string) : bool :=
  match strip_prefix p s with
  | Some _ => true
  | None =>
      match s with
      | EmptyString => false
      | String _ s' => contains p s'
      end
  end.

(** [\b] between two neighbouring characters; an end of the text counts
    as a non-word character *)
Definition is_word_opt (c : option ascii) : bool :=
  match c with
  | Some c => is_word c
  | None => false
  end.

Definition boundary (prev next : option ascii) : bool :=
  xorb (is_word_opt prev) (is_word_opt next).

(** the literal [p] sits here between two word boundaries; [prev] is the
    character before *)
Definition word_here (p : string) (prev : option ascii) (s : string) : bool :=
  boundary prev (head_char s) &&
  match strip_prefix p s with
  | Some rest => boundary (last_char prev p) (head_char rest)
  | None => false
  end.

(** [re.search(r'\b' + re.escape(p) + r'\b', s)] finds a match, scanning
    [s] from the character after [prev] *)
Fixpoint search_word (p : string) (prev : option ascii) (s : string) : bool :=
  word_here p prev s ||
  match s with
  | EmptyString => false
  | String c s' => search_word p (Some c) s'
  end.

Fixpoint take_str (n : nat) (s : string) : string :=
  match n, s with
  | S n', String c s' => String c (take_str n' s')
  | _, _ => EmptyString
  end.

(** ** The proper-noun pattern

    [re.findall] with the pattern [\b(W(?:\s+W)STAR)\b], where [W] is
    [[A-Z][a-z]+] and [STAR] the Kleene star.
    A match is a run of capitalised words separated by white space.  Both
    [[a-z]+] and [\s+] are greedy and a shorter choice never helps (the
    next character would be a lower-case letter, or white space, where
    neither the closing [\b] nor the next [\s+[A-Z]] can match), so the
    only backtracking that matters is giving up the last [\s+[A-Z][a-z]+]
    repetition.  [noun_len st s] is the number of further characters the
    match takes from [s]; [None] when the match fails. *)

Inductive noun_state : Type :=
  | AfterWord   (* at least one [[a-z]] of the current word is read *)
  | InSpace     (* inside the [\s+] of a repetition *)
  | AfterUpper. (* the [[A-Z]] of a word is read, [[a-z]+] is due *)

Fixpoint noun_len (st : noun_state) (s : string) : option nat :=
  match st, s with
  | AfterWord, EmptyString => Some 0%nat
  | AfterWord, String c s' =>
      if is_lower c then S <$> noun_len AfterWord s'
      else if is_space c then
        match noun_len InSpace s' with
        | Some k => Some (S k)
        | None => Some 0%nat
        end
      else if is_word c then None
      else Some 0%nat
  | InSpace, String c s' =>
      if is_space c then S <$> noun_len InSpace s'
      else if is_upper c then S <$> noun_len AfterUpper s'
      else None
  | AfterUpper, String c s' =>
      if is_lower c then S <$> noun_len AfterWord s' else None
  | _, EmptyString => None
  end.

(** length of the match that starts at the head of [s] (the opening [\b]
    is checked by the caller) *)
Definition match_noun (s : string) : option nat :=
  match s with
  | String c s' => if is_upper c then S <$> noun_len AfterUpper s' else None
  | EmptyString => None
  end.

(** the left-to-right scan of [findall]: [prev] is the character before,
    [skip] the number of characters left of the match just reported *)
Fixpoint scan_nouns (prev : option ascii) (skip : nat) (s : string)
  : list string :=
  match s with
  | EmptyString => []
  | String c s' =>
      match skip with
      | S k => scan_nouns (Some c) k s'
      | O =>
          if is_word_opt prev then scan_nouns (Some c) 0%nat s'
          else
            match match_noun s with
            | Some n => take_str n s :: scan_nouns (Some c) (pred n) s'
            | None => scan_nouns (Some c) 0%nat s'
            end
      end
  end.

Definition find_proper_nouns (text : string) : list string :=
  scan_nouns None 0%nat text.

(** ** Dictionaries *)

(** A dict display [{k1: v1, k2: v2, ...}]: a key written twice keeps its
    first position and its last value. *)
Fixpoint dict_set (k v : string) (d : list (string * string))
  : list (string * string) :=
  match d with
  | [] => [(k, v)]
  | (k', v') :: d' =>
      if String.eqb k k' then (k', v) :: d' else (k', v') :: dict_set k v d'
  end.

Definition dict_display (l : list (string * string)) : list (string * string) :=
  foldl (λ d kv, dict_set kv.1 kv.2 d) [] l.

Definition AI_KEYWORDS : list string :=
  [
    "ai"; "artificial intelligence"; "machine learning"; "ml";
    "deep learning"; "neural network"; "llm"; "gpt"; "chatgpt"; "claude";
    "gemini"; "openai"; "anthropic"; "deepmind"; "transformer";
    "generative ai"; "gen ai"; "copilot"; "large language model"; "diffusion";
    "stable diffusion"; "midjourney"; "computer vision"; "nlp"; "robotics";
    "nvidia"; "tensor"; "hugging face"; "mistral"; "llama";
    "foundation model"; "ai model"; "ai agent"; "rag"; "retrieval augmented";
    "fine-tuning"; "prompt engineering"
  ].

Definition KNOWN_ENTITIES : list (string * string) :=
  dict_display [
    ("openai", "OpenAI"); ("anthropic", "Anthropic"); ("google", "Google");
    ("deepmind", "DeepMind"); ("meta", "Meta"); ("microsoft", "Microsoft");
    ("nvidia", "NVIDIA"); ("apple", "Apple"); ("amazon", "Amazon");
    ("aws", "AWS"); ("hugging face", "Hugging Face");
    ("huggingface", "Hugging Face"); ("stability ai", "Stability AI");
    ("cohere", "Cohere"); ("mistral", "Mistral");
    ("inflection", "Inflection"); ("character ai", "Character AI");
    ("elevenlabs", "ElevenLabs"); ("eleven labs", "ElevenLabs");
    ("runway", "Runway"); ("midjourney", "Midjourney"); ("adobe", "Adobe");
    ("salesforce", "Salesforce"); ("ibm", "IBM"); ("intel", "Intel");
    ("amd", "AMD"); ("tesla", "Tesla"); ("xai", "xAI");
    ("perplexity", "Perplexity"); ("gpt-4", "GPT-4"); ("gpt-5", "GPT-5");
    ("gpt4", "GPT-4"); ("gpt5", "GPT-5"); ("chatgpt", "ChatGPT");
    ("claude", "Claude"); ("gemini", "Gemini"); ("llama", "Llama");
    ("mistral", "Mistral"); ("copilot", "Copilot"); ("dall-e", "DALL-E");
    ("dalle", "DALL-E"); ("sora", "Sora");
    ("stable diffusion", "Stable Diffusion"); ("flux", "Flux");
    ("whisper", "Whisper"); ("codex", "Codex");
    ("claude code", "Claude Code"); ("cursor", "Cursor");
    ("replit", "Replit"); ("github copilot", "GitHub Copilot");
    ("xcode", "Xcode"); ("sam altman", "Sam Altman");
    ("dario amodei", "Dario Amodei"); ("demis hassabis", "Demis Hassabis");
    ("yann lecun", "Yann LeCun"); ("andrej karpathy", "Andrej Karpathy");
    ("karpathy", "Andrej Karpathy"); ("ilya sutskever", "Ilya Sutskever");
    ("elon musk", "Elon Musk"); ("sundar pichai", "Sundar Pichai");
    ("satya nadella", "Satya Nadella"); ("jensen huang", "Jensen Huang");
    ("mark zuckerberg", "Mark Zuckerberg");
    ("funding", "Funding & Investment");
    ("investment", "Funding & Investment");
    ("raises", "Funding & Investment"); ("valuation", "Funding & Investment");
    ("series a", "Funding & Investment");
    ("series b", "Funding & Investment");
    ("series c", "Funding & Investment"); ("ipo", "IPO");
    ("regulation", "AI Regulation"); ("safety", "AI Safety");
    ("alignment", "AI Alignment"); ("misalignment", "AI Alignment");
    ("ethics", "AI Ethics"); ("bias", "AI Ethics");
    ("autonomous", "Autonomous Systems"); ("robotics", "Robotics");
    ("self-driving", "Autonomous Vehicles");
    ("autonomous vehicle", "Autonomous Vehicles");
    ("healthcare", "AI in Healthcare"); ("medical", "AI in Healthcare");
    ("drug discovery", "AI in Healthcare"); ("agents", "AI Agents");
    ("agentic", "AI Agents"); ("reasoning", "AI Reasoning");
    ("chain of thought", "AI Reasoning"); ("multimodal", "Multimodal AI");
    ("vision", "Computer Vision"); ("voice", "Voice AI");
    ("speech", "Voice AI"); ("text-to-speech", "Voice AI");
    ("video", "Video AI"); ("text-to-video", "Video AI");
    ("training", "Model Training"); ("fine-tuning", "Model Training");
    ("inference", "AI Inference"); ("deployment", "AI Deployment");
    ("open source", "Open Source AI"); ("open-source", "Open Source AI")
  ].

(** the common words that [extract_entities] does not take as proper nouns *)
Definition COMMON_WORDS : list string :=
  [
    "the"; "this"; "that"; "with"; "from"; "have"; "been"; "will"; "what";
    "when"; "where"; "which"; "would"; "could"; "should"; "about"; "after";
    "before"; "being"; "between"; "both"; "each"; "more"; "most"; "other";
    "some"; "such"; "than"; "then"; "these"; "they"; "through"; "under";
    "very"; "just"; "also"; "into"; "over"; "only"; "well"; "back"; "even";
    "still"; "first"; "last"; "long"; "great"; "little"; "much"; "never";
    "now"; "old"; "see"; "way"; "who"; "come"; "make"; "like"; "time"; "just";
    "know"; "take"; "people"; "year"; "good"; "give"; "day"; "most"; "new";
    "want"; "because"; "any"; "find"; "here"; "thing"; "think"; "say"; "she";
    "two"; "how"; "our"; "work"; "world"; "life"; "hand"; "part"; "child";
    "eye"; "woman"; "place"; "case"; "week"; "company"; "system"; "program";
    "question"; "government"; "number"; "night"; "point"; "home"; "water";
    "room"; "mother"; "area"; "money"; "story"; "fact"; "month"; "different";
    "right"; "study"; "book"; "word"; "business"; "issue"; "side"; "kind";
    "head"; "house"; "service"; "friend"; "father"; "power"; "hour"; "game";
    "line"; "end"; "member"; "law"; "car"; "city"; "community"; "name";
    "president"; "team"; "minute"; "idea"; "body"; "information"; "today";
    "read"; "thread"; "finding"; "view"; "view"
  ].

Definition str_in (s : string) (l : list string) : bool :=
  existsb (String.eqb s) l.

(** the test applied to one keyword or surface form: whole-word for
    forms of at most three characters, substring otherwise *)
Definition form_matches (pattern text_lower : string) : bool :=
  if (String.length pattern <=? 3)%nat
  then search_word pattern None text_lower
  else contains pattern text_lower.

(** [contains_ai_keyword] *)
Definition contains_ai_keyword (text : string) : bool :=
  if String.eqb text "" then false
  else existsb (λ keyword, form_matches keyword (lower text)) AI_KEYWORDS.

(** the canonical names whose surface form occurs in [text_lower] *)
Definition known_matches (text_lower : string) : list string :=
  snd <$> filter (λ kv, form_matches kv.1 text_lower = true) KNOWN_ENTITIES.

Definition is_entity_noun (noun : string) : bool :=
  (3 <? String.length noun)%nat && negb (str_in (lower noun) COMMON_WORDS).

Definition noun_matches (text : string) : list string :=
  filter (λ noun, is_entity_noun noun = true) (find_proper_nouns text).

(** [extract_entities] *)
Definition extract_entities (text : string) : gset string :=
  if String.eqb text "" then ∅
  else list_to_set (known_matches (lower text)) ∪ list_to_set (noun_matches text).

(** ** Source records and normalised items *)

Record metrics : Type := {
  like_count : Z;
  retweet_count : Z;
  reply_count : Z
}.

(** an X post as [load_x_posts_from_json] hands it over *)
Record post : Type := {
  post_username : option string;
  post_display_name : option string;
  post_text : option string;
  post_created_at : option string;
  post_url : option string;
  post_metrics : option metrics
}.

Record article : Type := {
  article_headline : option string;
  article_source : option string;
  article_url : option string;
  article_description : option string
}.

(** the dict [{'is_thread': True, 'posts': ..., 'username': ...}] *)
Record thread : Type := {
  thread_posts : option (list post);
  thread_username : option string
}.

Inductive record : Type :=
  | RArticle (a : article)
  | RPost (p : post)
  | RThread (t : thread).

(** [item.get(key)] for the keys [normalize_item] reads; a key that the
    record does not have is absent *)
Definition get_headline (r : record) : option string :=
  match r with RArticle a => article_headline a | _ => None end.
Definition get_description (r : record) : option string :=
  match r with RArticle a => article_description a | _ => None end.
Definition get_source (r : record) : option string :=
  match r with RArticle a => article_source a | _ => None end.
Definition get_url (r : record) : option string :=
  match r with
  | RArticle a => article_url a
  | RPost p => post_url p
  | RThread _ => None
  end.
Definition get_text (r : record) : option string :=
  match r with RPost p => post_text p | _ => None end.
Definition get_username (r : record) : option string :=
  match r with
  | RPost p => post_username p
  | RThread t => thread_username t
  | RArticle _ => None
  end.
Definition get_posts (r : record) : option (list post) :=
  match r with RThread t => thread_posts t | _ => None end.

Record item : Type := {
  item_type : string;
  item_title : string;
  item_text : string;
  item_url : string;
  item_source : string;
  item_entities : gset string;
  item_original : record
}.

(** [s[:100] + '...' if len(s) > 100 else s] *)
Definition short_title (s : string) : string :=
  if (100 <? String.length s)%nat then take_str 100 s +:+ "..." else s.

(** [' '.join(l)] *)
Fixpoint join_space (l : list string) : string :=
  match l with
  | [] => ""
  | [s] => s
  | s :: l' => s +:+ " " +:+ join_space l'
  end.

(** [normalize_item]; Python's [None] result is [None] *)
Definition normalize_item (r : record) (kind : string) : option item :=
  if String.eqb kind "article" then
    let text := default "" (get_headline r) +:+ " " +:+ default "" (get_description r) in
    Some {| item_type := "article";
            item_title := default "" (get_headline r);
            item_text := text;
            item_url := default "#" (get_url r);
            item_source := default "" (get_source r);
            item_entities := extract_entities text;
            item_original := r |}
  else if String.eqb kind "x_post" then
    let text := default "" (get_text r) in
    Some {| item_type := "x_post";
            item_title := short_title text;
            item_text := text;
            item_url := default "#" (get_url r);
            item_source := "@" +:+ default "" (get_username r);
            item_entities := extract_entities text;
            item_original := r |}
  else if String.eqb kind "x_thread" then
    let posts := default [] (get_posts r) in
    let combined_text := join_space ((λ p, default "" (post_text p)) <$> posts) in
    let first_text :=
      match posts with p :: _ => default "" (post_text p) | [] => "" end in
    Some {| item_type := "x_thread";
            item_title := short_title first_text;
            item_text := combined_text;
            item_url :=
              match posts with p :: _ => default "#" (post_url p) | [] => "#" end;
            item_source := "@" +:+ default "" (get_username r);
            item_entities := extract_entities combined_text;
            item_original := r |}
  else None.

(** ** Topic clustering *)

(** The order in which Python iterates a set. *)
Class SetOrder : Type := {
  set_iter : gset string → list string;
  set_iter_perm : ∀ s, set_iter s ≡ₚ elements s
}.

(** one iteration order, for examples *)
Definition elements_order : SetOrder :=
  {| set_iter := elements; set_iter_perm := λ s, reflexivity (elements s) |}.

Record cluster : Type := {
  cluster_topic : option string;
  cluster_entities : gset string;
  cluster_items : list item
}.

Definition GENERIC_TOPICS : list string :=
  ["Funding & Investment"; "AI Safety"; "AI Agents"; "Model Training";
   "AI Reasoning"].

(** [entity_to_items[entity].append(i)] on a [defaultdict(list)] *)
Fixpoint index_append (entity : string) (i : nat) (d : list (string * list nat))
  : list (string * list nat) :=
  match d with
  | [] => [(entity, [i])]
  | (e, l) :: d' =>
      if String.eqb entity e then (e, l ++ [i]) :: d'
      else (e, l) :: index_append entity i d'
  end.

(** [enumerate(l)] *)
Definition enumerate {A : Type} (l : list A) : list (nat * A) :=
  imap (λ i x, (i, x)) l.

(** [set.intersection( *sets )]: a [TypeError] without an argument *)
Definition set_intersection (sets : list (gset string)) : result (gset string) :=
  match sets with
  | [] => Raise TypeError
  | s :: rest => Ok (foldl (∩) s rest)
  end.

(** [items[i]] *)
Definition list_get {A : Type} (l : list A) (i : nat) : result A :=
  match l !! i with
  | Some x => Ok x
  | None => Raise IndexError
  end.

(** [(-len(c['items']), c['topic'] or 'zzz')] *)
Definition cluster_key (c : cluster) : Z * string :=
  (- Z.of_nat (length (cluster_items c)),
   match cluster_topic c with
   | Some t => if String.eqb t "" then "zzz" else t
   | None => "zzz"
   end).

(** [<] on such pairs *)
Definition key_lt (a b : Z * string) : bool :=
  (a.1 <? b.1) || ((a.1 =? b.1) && String.ltb a.2 b.2).

(** the default of the parameter [min_cluster_size] *)
Definition DEFAULT_MIN_CLUSTER_SIZE : Z := 2.

Section cluster_by_topic.
Context `{SetOrder}.

Definition build_index (items : list item) : list (string * list nat) :=
  foldl (λ d '(i, it),
           foldl (λ d entity, index_append entity i d) d
                 (set_iter (item_entities it)))
        [] (enumerate items).

(** the first shared entity that is not a generic topic, else the seed *)
Definition pick_topic (entity : string) (shared_entities : gset string)
  : string :=
  match filter (λ e, str_in e GENERIC_TOPICS = false) (set_iter shared_entities) with
  | e :: _ => e
  | [] => entity
  end.

(** the body of the loop over [sorted_entities]; the state is
    [(used_items, clusters)] *)
Definition cluster_step (items : list item) (min_cluster_size : Z)
    (st : gset nat * list cluster) (ei : string * list nat)
  : result (gset nat * list cluster) :=
  let '(used_items, clusters) := st in
  let '(entity, item_indices) := ei in
  let available_indices := filter (λ i, i ∉ used_items) item_indices in
  if Z.of_nat (length available_indices) <? min_cluster_size then Ok st
  else
    let* cluster_items := mapR (list_get items) available_indices in
    let* inter := set_intersection (item_entities <$> cluster_items) in
    let shared_entities :=
      if decide (inter = ∅) then {[entity]} else inter in
    Ok (foldl (λ u i, {[i]} ∪ u) used_items available_indices,
        clusters ++ [{| cluster_topic := Some (pick_topic entity shared_entities);
                        cluster_entities := shared_entities;
                        cluster_items := cluster_items |}]).

(** the items never claimed, each as a cluster of its own *)
Definition singletons (items : list item) (used_items : gset nat)
  : list cluster :=
  (λ '(i, it), {| cluster_topic := None;
                  cluster_entities := item_entities it;
                  cluster_items := [it] |})
    <$> filter (λ '(i, it), i ∉ used_items) (enumerate items).

Definition cluster_by_topic (items : list item) (min_cluster_size : Z)
  : result (list cluster) :=
  match items with
  | [] => Ok []
  | _ =>
      let entity_to_items := build_index items in
      let* sorted_entities :=
        sort_desc (λ x y, Ok (length x.2 <? length y.2)%nat) entity_to_items in
      let* st := foldR (cluster_step items min_cluster_size) (∅, []) sorted_entities in
      sort_asc (λ a b, Ok (key_lt (cluster_key a) (cluster_key b)))
               (st.2 ++ singletons items st.1)
  end.
End cluster_by_topic.

(** ** Thread detection *)

(** A [datetime]: naive (no time zone; wall-clock microseconds since
    0001-01-01T00:00:00) or aware (the UTC instant, in microseconds since
    0001-01-01T00:00:00+00:00).  Ordering or subtracting a naive and an
    aware datetime raises [TypeError]. *)
Inductive datetime : Type :=
  | Naive (us : Z)
  | Aware (us : Z).

Definition micros (d : datetime) : Z :=
  match d with Naive us | Aware us => us end.

(** [datetime.min.replace(tzinfo=timezone.utc)] *)
Definition DATETIME_MIN_UTC : datetime := Aware 0.

(** [a < b] *)
Definition datetime_lt (a b : datetime) : result bool :=
  match a, b with
  | Naive x, Naive y | Aware x, Aware y => Ok (x <? y)
  | _, _ => Raise TypeError
  end.

(** [a - b], a [timedelta] in microseconds *)
Definition datetime_sub (a b : datetime) : result Z :=
  match a, b with
  | Naive x, Naive y | Aware x, Aware y => Ok (x - y)
  | _, _ => Raise TypeError
  end.

(** [datetime.fromisoformat] is library code: [None] stands for the
    [ValueError] it raises on a string it cannot parse. *)
Class IsoParser : Type := {
  fromisoformat : string → option datetime
}.

(** [s.replace('Z', '+00:00')] *)
Fixpoint replace_Z (s : string) : string :=
  match s with
  | EmptyString => EmptyString
  | String c s' =>
      if Ascii.eqb c "Z" then "+00:00" +:+ replace_Z s'
      else String c (replace_Z s')
  end.

(** [x[1] if x[1] else datetime.min.replace(tzinfo=timezone.utc)] *)
Definition sort_key (dt : option datetime) : datetime :=
  match dt with
  | Some d => d
  | None => DATETIME_MIN_UTC
  end.

(** [by_author[username].append(x)] on a [defaultdict(list)] *)
Fixpoint author_append {A : Type} (username : string) (x : A)
    (d : list (string * list A)) : list (string * list A) :=
  match d with
  | [] => [(username, [x])]
  | (u, l) :: d' =>
      if String.eqb username u then (u, l ++ [x]) :: d'
      else (u, l) :: author_append username x d'
  end.

(** [abs((dt - prev_dt).total_seconds() / 60) <= time_threshold_minutes],
    compared exactly: the rounding of the two float divisions is monotone
    and exact at whole minutes, and timestamps have whole microseconds *)
Definition within_threshold (time_threshold_minutes : Z) (dt prev_dt : datetime)
  : result bool :=
  let* d := datetime_sub dt prev_dt in
  Ok (Z.abs d <=? time_threshold_minutes * 60000000).

(** the default of the parameter [time_threshold_minutes] *)
Definition DEFAULT_TIME_THRESHOLD_MINUTES : Z := 10.

Section detect_threads.
Context `{IsoParser}.

Definition parse_created_at (p : post) : option datetime :=
  fromisoformat (replace_Z (default "" (post_created_at p))).

Definition tag_lt (x y : option datetime * record) : result bool :=
  datetime_lt (sort_key x.1) (sort_key y.1).

Definition post_lt (x y : post * option datetime) : result bool :=
  datetime_lt (sort_key x.2) (sort_key y.2).

(** a finished run: a thread with two posts or more, else the post *)
Definition close_run (username : string)
    (current_thread : list (post * option datetime))
  : result (option datetime * record) :=
  let* first := list_get current_thread 0%nat in
  if (2 <=? length current_thread)%nat then
    Ok (first.2, RThread {| thread_posts := Some (fst <$> current_thread);
                            thread_username := Some username |})
  else Ok (first.2, RPost first.1).

(** does this post continue the run that ends with [prev_dt]? *)
Definition joins (time_threshold_minutes : Z) (dt prev_dt : option datetime)
  : result bool :=
  match dt, prev_dt with
  | Some d, Some pd => within_threshold time_threshold_minutes d pd
  | _, _ => Ok false
  end.

(** the body of [for i in range(1, len(author_posts))]; the state is
    [(current_thread, result_items)] *)
Definition thread_step (username : string) (time_threshold_minutes : Z)
    (st : list (post * option datetime) * list (option datetime * record))
    (x : post * option datetime)
  : result (list (post * option datetime) * list (option datetime * record)) :=
  let '(current_thread, result_items) := st in
  let* prev := list_get current_thread (pred (length current_thread)) in
  let* j := joins time_threshold_minutes x.2 prev.2 in
  if j then Ok (current_thread ++ [x], result_items)
  else
    let* r := close_run username current_thread in
    Ok ([x], result_items ++ [r]).

(** the body of [for username, author_posts in by_author.items()] *)
Definition author_step (time_threshold_minutes : Z)
    (result_items : list (option datetime * record))
    (ua : string * list (post * option datetime))
  : result (list (option datetime * record)) :=
  let '(username, author_posts) := ua in
  match author_posts with
  | [(p, dt)] => Ok (result_items ++ [(dt, RPost p)])
  | _ =>
      let* first := list_get author_posts 0%nat in
      let* st := foldR (thread_step username time_threshold_minutes)
                 ([first], result_items) (drop 1 author_posts) in
      let* r := close_run username st.1 in
      Ok (st.2 ++ [r])
  end.

Definition group_by_author (posts : list post)
  : list (string * list (post * option datetime)) :=
  foldl (λ d p, author_append (default "" (post_username p))
                              (p, parse_created_at p) d)
        [] posts.

Definition detect_threads (posts : list post) (time_threshold_minutes : Z)
  : result (list record) :=
  match posts with
  | [] => Ok []
  | _ =>
      let* by_author :=
        mapR (λ ua : string * list (post * option datetime),
                let* l := sort_asc post_lt ua.2 in Ok (ua.1, l))
             (group_by_author posts) in
      let* result_items := foldR (author_step time_threshold_minutes) [] by_author in
      let* sorted := sort_desc tag_lt result_items in
      Ok (snd <$> sorted)
  end.

(** the posts an emitted item holds, and the first of its time stamps *)
Definition record_posts (r : record) : list post :=
  match r with
  | RPost p => [p]
  | RThread t => default [] (thread_posts t)
  | RArticle _ => []
  end.

End detect_threads.

(** ** A parser for examples

    The values of [datetime.fromisoformat] on the forms [YYYY-MM-DD],
    [YYYY-MM-DDTHH:MM:SS] (both naive) and [YYYY-MM-DDTHH:MM:SS+HH:MM],
    [YYYY-MM-DDTHH:MM:SS-HH:MM] (aware), the seconds optionally followed
    by a fraction of three or six digits.  This instance takes every
    other string as unparseable. *)

Definition digit (c : ascii) : option Z :=
  if is_digit c then Some (Z.of_N (code c) - 48) else None.

Fixpoint digits (n : nat) (acc : Z) (s : string) : option (Z * string) :=
  match n with
  | O => Some (acc, s)
  | S n' =>
      match s with
      | String c s' => d ← digit c; digits n' (10 * acc + d) s'
      | EmptyString => None
      end
  end.

Definition expect (c : ascii) (s : string) : option string :=
  match s with
  | String c' s' => if Ascii.eqb c c' then Some s' else None
  | EmptyString => None
  end.

Definition is_leap (y : Z) : bool :=
  (y mod 4 =? 0) && (negb (y mod 100 =? 0) || (y mod 400 =? 0)).

Definition days_in_month (y m : Z) : Z :=
  if m =? 2 then (if is_leap y then 29 else 28)
  else if (m =? 4) || (m =? 6) || (m =? 9) || (m =? 11) then 30
  else 31.

Definition days_before_year (y : Z) : Z :=
  let y' := y - 1 in y' * 365 + y' / 4 - y' / 100 + y' / 400.

Definition days_before_month (y m : Z) : Z :=
  foldr (λ k acc, days_in_month y (Z.of_nat k) + acc) 0 (seq 1 (Z.to_nat (m - 1))).

Definition parse_date (s : string) : option (Z * string) :=
  '(y, s) ← digits 4 0 s;
  s ← expect "-" s;
  '(m, s) ← digits 2 0 s;
  s ← expect "-" s;
  '(d, s) ← digits 2 0 s;
  if (1 <=? y) && (1 <=? m) && (m <=? 12) && (1 <=? d) && (d <=? days_in_month y m)
  then Some ((days_before_year y + days_before_month y m + d - 1) * 86400000000, s)
  else None.

(** an optional fraction of a second, of three or six digits *)
Definition parse_fraction (s : string) : option (Z * string) :=
  match s with
  | String c s' =>
      if Ascii.eqb c "." then
        match digits 6 0 s' with
        | Some r => Some r
        | None => '(ms, rest) ← digits 3 0 s'; Some (ms * 1000, rest)
        end
      else Some (0, s)
  | EmptyString => Some (0, s)
  end.

Definition parse_hms (s : string) : option (Z * string) :=
  '(h, s) ← digits 2 0 s;
  s ← expect ":" s;
  '(m, s) ← digits 2 0 s;
  s ← expect ":" s;
  '(sec, s) ← digits 2 0 s;
  '(frac, s) ← parse_fraction s;
  if (h <? 24) && (m <? 60) && (sec <? 60)
  then Some (((h * 60 + m) * 60 + sec) * 1000000 + frac, s)
  else None.

Definition parse_offset (s : string) : option Z :=
  match s with
  | String sign s' =>
      '(h, s'') ← digits 2 0 s';
      s'' ← expect ":" s'';
      '(m, rest) ← digits 2 0 s'';
      if String.eqb rest "" && (h <? 24) && (m <? 60) then
        if Ascii.eqb sign "+" then Some ((h * 60 + m) * 60000000)
        else if Ascii.eqb sign "-" then Some (- ((h * 60 + m) * 60000000))
        else None
      else None
  | EmptyString => None
  end.

Definition iso_basic (s : string) : option datetime :=
  '(day, s) ← parse_date s;
  match s with
  | EmptyString => Some (Naive day)
  | String c s' =>
      if Ascii.eqb c "T" then
        '(t, rest) ← parse_hms s';
        match rest with
        | EmptyString => Some (Naive (day + t))
        | _ => off ← parse_offset rest; Some (Aware (day + t - off))
        end
      else None
  end.

Definition basic_parser : IsoParser := {| fromisoformat := iso_basic |}.

(** ** Filters and the pipeline around clustering *)

(** [filter_ai_content]: the articles whose headline and description,
    joined by a space, contain an AI keyword *)
Definition filter_ai_content (articles : list article) : list article :=
  foldl (λ filtered article,
           let combined_text :=
             default "" (article_headline article) +:+ " " +:+
             default "" (article_description article) in
           if contains_ai_keyword combined_text then filtered ++ [article]
           else filtered)
        [] articles.

(** [s.lstrip(chars)] and [s.rstrip(chars)], the characters given by a
    test *)
Fixpoint lstrip (f : ascii → bool) (s : string) : string :=
  match s with
  | EmptyString => EmptyString
  | String c s' => if f c then lstrip f s' else s
  end.

Fixpoint rstrip (f : ascii → bool) (s : string) : string :=
  match s with
  | EmptyString => EmptyString
  | String c s' =>
      match rstrip f s' with
      | EmptyString => if f c then EmptyString else String c EmptyString
      | r => String c r
      end
  end.

(** [s.strip()] *)
Definition strip (s : string) : string := rstrip is_space (lstrip is_space s).

(** [s.startswith(p)] *)
Definition startswith (p s : string) : bool :=
  match strip_prefix p s with
  | Some _ => true
  | None => false
  end.

(** [read_x_accounts], on the lines of the file (a file that cannot be
    opened gives the empty list, as a file without lines does) *)
Definition read_x_accounts (lines : list string) : list string :=
  foldl (λ accounts line,
           let account := lstrip (Ascii.eqb "@") (strip line) in
           if negb (String.eqb account "") && negb (startswith "#" account)
           then accounts ++ [account]
           else accounts)
        [] lines.

(** [filter_posts_by_accounts]; the posts are those of
    [load_x_posts_from_json], which have no key [authorUsername], so that
    [post.get('username', '') or post.get('authorUsername', '')] is the
    user name, or [''] *)
Definition filter_posts_by_accounts (posts : list post) (accounts : list string)
  : list post * gset string * gset string :=
  match accounts with
  | [] => (posts, ∅, ∅)
  | _ =>
      let accounts_lower : gset string := list_to_set (lower <$> accounts) in
      let '(filtered, found_accounts) :=
        foldl (λ (st : list post * gset string) post,
                 let '(filtered, found_accounts) := st in
                 let username := default "" (post_username post) in
                 if decide (lower username ∈ accounts_lower)
                 then (filtered ++ [post], {[lower username]} ∪ found_accounts)
                 else (filtered, found_accounts))
              ([], ∅) posts in
      (filtered, found_accounts, accounts_lower ∖ found_accounts)
  end.

(** [datetime.strptime(s, '%Y-%m-%d')] is library code: the microseconds
    of the midnight it returns, [None] for the [ValueError] it raises. *)
Class DateParser : Type := {
  strptime_date : string → option Z
}.

(** the microseconds of [datetime.max] *)
Definition MAX_MICROS : Z := 315537897599999999.

(** [datetime.now(timezone.utc) - timedelta(hours=max_age_hours)], an
    [OverflowError] ([None]) when the result is no datetime *)
Definition cutoff_time (now max_age_hours : Z) : option Z :=
  let cutoff := now - max_age_hours * 3600000000 in
  if (0 <=? cutoff) && (cutoff <=? MAX_MICROS) then Some cutoff else None.

Section filter_posts_by_recency.
Context `{IsoParser} `{DateParser}.

(** the time stamp the loop body parses; [None] for a [ValueError] *)
Definition recency_stamp (created_at : string) : option datetime :=
  if contains "T" created_at then fromisoformat (replace_Z created_at)
  else Aware <$> strptime_date (take_str 10 created_at).

(** is the post appended to [recent]?  A post without a time stamp is,
    and so is one whose time stamp raises [ValueError] when parsed or
    [TypeError] when compared with the cutoff, both caught. *)
Definition is_recent (cutoff : Z) (p : post) : bool :=
  let created_at := default "" (post_created_at p) in
  if String.eqb created_at "" then true
  else
    match recency_stamp created_at with
    | Some dt =>
        match datetime_lt dt (Aware cutoff) with
        | Ok before => negb before
        | Raise _ => true
        end
    | None => true
    end.

(** [filter_posts_by_recency], with the current time as an argument;
    the result is [(recent, dropped)] *)
Definition filter_posts_by_recency (posts : list post) (now max_age_hours : Z)
  : option (list post * Z) :=
  match posts with
  | [] => Some ([], 0)
  | _ =>
      cutoff ← cutoff_time now max_age_hours;
      Some (foldl (λ (st : list post * Z) p,
                     let '(recent, dropped) := st in
                     if is_recent cutoff p then (recent ++ [p], dropped)
                     else (recent, dropped + 1))
                  ([], 0) posts)
  end.
End filter_posts_by_recency.

(** [if topic and len(items) > 1] of [format_cluster_html]: is the
    cluster shown under a heading with its topic? *)
Definition has_cluster_header (c : cluster) : bool :=
  match cluster_topic c with
  | Some topic => negb (String.eqb topic "") && (1 <? length (cluster_items c))%nat
  | None => false
  end.

(** [isinstance(item, dict) and item.get('is_thread')] *)
Definition is_thread (r : record) : bool :=
  match r with
  | RThread _ => true
  | _ => false
  end.

Section generate_html.
Context `{SetOrder} `{IsoParser}.

(** the list [all_items] that [generate_html] builds *)
Definition all_items (techmeme_articles techcrunch_articles : list article)
    (x_posts : list post) : result (list item) :=
  let articles :=
    omap (λ a, normalize_item (RArticle a) "article") techmeme_articles ++
    omap (λ a, normalize_item (RArticle a) "article") techcrunch_articles in
  match x_posts with
  | [] => Ok articles
  | _ =>
      let* x_items := detect_threads x_posts DEFAULT_TIME_THRESHOLD_MINUTES in
      Ok (articles ++
          omap (λ r, if is_thread r then normalize_item r "x_thread"
                     else normalize_item r "x_post") x_items)
  end.

(** the list [clusters] that [generate_html] renders *)
Definition clusters_of (techmeme_articles techcrunch_articles : list article)
    (x_posts : list post) : result (list cluster) :=
  let* items := all_items techmeme_articles techcrunch_articles x_posts in
  cluster_by_topic items 2.

Definition multi_clusters (clusters : list cluster) : list cluster :=
  filter (λ c, (1 < length (cluster_items c))%nat) clusters.

Definition standalone_items (clusters : list cluster) : list cluster :=
  filter (λ c, length (cluster_items c) = 1%nat) clusters.
End generate_html.

(** the values of [datetime.strptime(s, '%Y-%m-%d')] on the form
    [YYYY-MM-DD], for examples; this instance takes every other string as
    unparseable *)
Definition ymd_basic (s : string) : option Z :=
  '(day, rest) ← parse_date s;
  if String.eqb rest "" then Some day else None.

Definition basic_date_parser : DateParser := {| strptime_date := ymd_basic |}.

(** ** Sample inputs *)

Definition headline_only (headline : string) : record :=
  RArticle {| article_headline := Some headline;
              article_source := None;
              article_url := None;
              article_description := None |}.

(** what [normalize_item] makes of three headlines *)
Definition news_openai : item :=
  {| item_type := "article";
     item_title := "OpenAI ships a new model";
     item_text := "OpenAI ships a new model ";
     item_url := "#";
     item_source := "";
     item_entities := {["OpenAI"]};
     item_original := headline_only "OpenAI ships a new model" |}.

Definition news_both : item :=
  {| item_type := "article";
     item_title := "Anthropic and OpenAI agree";
     item_text := "Anthropic and OpenAI agree ";
     item_url := "#";
     item_source := "";
     item_entities := {["OpenAI"; "Anthropic"]};
     item_original := headline_only "Anthropic and OpenAI agree" |}.

Definition news_anthropic : item :=
  {| item_type := "article";
     item_title := "Anthropic opens an office";
     item_text := "Anthropic opens an office ";
     item_url := "#";
     item_source := "";
     item_entities := {["Anthropic"]};
     item_original := headline_only "Anthropic opens an office" |}.

Definition post_at (username created_at text : string) : post :=
  {| post_username := Some username;
     post_display_name := None;
     post_text := Some text;
     post_created_at := Some created_at;
     post_url := None;
     post_metrics := None |}.

(** a post without the key [created_at] *)
Definition post_undated (username text : string) : post :=
  {| post_username := Some username;
     post_display_name := None;
     post_text := Some text;
     post_created_at := None;
     post_url := None;
     post_metrics := None |}.

Definition thread_of (username : string) (posts : list post) : record :=
  RThread {| thread_posts := Some posts; thread_username := Some username |}.

(** the item that [normalize_item] makes of a headline *)
Definition news_item (headline : string) : item :=
  {| item_type := "article";
     item_title := headline;
     item_text := headline +:+ " ";
     item_url := "#";
     item_source := "";
     item_entities := extract_entities (headline +:+ " ");
     item_original := headline_only headline |}.

(** ** Predicates used in the statements *)

(** an entry of the inverted index: its positions are distinct and hold
    items with the entity *)
Definition entry_ok (items : list item) (el : string * list nat) : Prop :=
  NoDup el.2 ∧
  ∀ j, j ∈ el.2 → ∃ it, items !! j = Some it ∧ el.1 ∈ item_entities it.

(** a cluster built around a shared entity: it has a topic, which is one
    of its shared entities, at least [min_cluster_size] items, and its
    shared entities are exactly the entities that all its items have *)
Definition formed (min_cluster_size : Z) (c : cluster) : Prop :=
  ∃ t, cluster_topic c = Some t ∧ t ∈ cluster_entities c ∧
       min_cluster_size ≤ Z.of_nat (length (cluster_items c)) ∧
       cluster_items c ≠ [] ∧
       ∀ e, e ∈ cluster_entities c ↔
            ∀ it, it ∈ cluster_items c → e ∈ item_entities it.

(** a left-over item as a cluster of its own *)
Definition standalone (c : cluster) : Prop :=
  cluster_topic c = None ∧
  ∃ it, cluster_items c = [it] ∧ cluster_entities c = item_entities it.

(** the items of [c] are the input items at the positions [p] *)
Definition at_positions (items : list item) (c : cluster) (p : list nat) : Prop :=
  Forall2 (λ i it, items !! i = Some it) p (cluster_items c).

(** the order of the sort keys *)
Definition key_le (a b : Z * string) : Prop :=
  a.1 < b.1 ∨ (a.1 = b.1 ∧ String.le a.2 b.2).

Definition cluster_le (a b : cluster) : Prop :=
  key_le (cluster_key a) (cluster_key b).

(** the state of the clustering loop, with the positions claimed by each
    cluster *)
Definition loop_inv (items : list item) (min_cluster_size : Z)
    (st : gset nat * list cluster) (parts : list (list nat)) : Prop :=
  Forall2 (at_positions items) st.2 parts ∧
  NoDup (concat parts) ∧
  (∀ i, i ∈ concat parts ↔ i ∈ st.1) ∧
  Forall (formed min_cluster_size) st.2.

(** [form] occurs in [text] *)
Definition occurs (form text : string) : Prop :=
  ∃ pre suf, text = pre +:+ form +:+ suf.

(** [form] occurs in [text] with a word boundary on either side *)
Definition occurs_as_word (form text : string) : Prop :=
  ∃ pre suf, text = pre +:+ form +:+ suf ∧
    boundary (last_char None pre) (head_char (form +:+ suf)) = true ∧
    boundary (last_char None (pre +:+ form)) (head_char suf) = true.

(** an item as [normalize_item] leaves it: its entities are those
    extracted from its text *)
Definition normalized (it : item) : Prop :=
  item_entities it = extract_entities (item_text it).

(** topic labels in ascending order, a missing label after any label *)
Definition topic_order (t1 t2 : option string) : Prop :=
  match t1, t2 with
  | Some a, Some b => String.le a b
  | None, Some _ => False
  | _, None => True
  end.

(** a label that comes before the stand-in ["zzz"] of a missing topic *)
Definition label_ok (e : string) : bool :=
  negb (String.eqb e "") && String.ltb e "zzz".

(** two datetimes that can be compared *)
Definition same_kind (a b : datetime) : Prop :=
  match a, b with
  | Naive _, Naive _ | Aware _, Aware _ => True
  | _, _ => False
  end.

(** [y] comes at most [thr] minutes after (or before) [x]; both have a
    time stamp *)
Definition near (thr : Z) (x y : post * option datetime) : Prop :=
  ∃ d pd, y.2 = Some d ∧ x.2 = Some pd ∧
          Z.abs (micros d - micros pd) ≤ thr * 60000000.

(** every post of a run is near the one before *)
Definition chained (thr : Z) (run : list (post * option datetime)) : Prop :=
  ∀ l1 x y l2, run = l1 ++ x :: y :: l2 → near thr x y.

(** a run does not go on into the next: the first post of the next run
    is not near the last post of the run *)
Definition borders (thr : Z) (runs : list (list (post * option datetime))) : Prop :=
  ∀ rs1 r r' rs2, runs = rs1 ++ r :: r' :: rs2 →
    ∃ x y, last r = Some x ∧ head r' = Some y ∧ ¬ near thr x y.

(** the state of the walk over the posts of one author: the runs closed
    so far and the open run make up the posts seen *)
Definition walk_inv (username : string) (thr : Z)
    (res0 : list (option datetime * record))
    (seen : list (post * option datetime))
    (st : list (post * option datetime) * list (option datetime * record)) : Prop :=
  ∃ runs new,
    st.2 = res0 ++ new ∧
    Forall2 (λ run r, close_run username run = Ok r) runs new ∧
    concat runs ++ st.1 = seen ∧
    Forall (λ run, run ≠ [] ∧ chained thr run) (runs ++ [st.1]) ∧
    borders thr (runs ++ [st.1]).

(** the order of the sort keys of two time stamps *)
Definition key_before (a b : option datetime) : Prop :=
  micros (sort_key a) ≤ micros (sort_key b).

(** the sort keys of all posts are of one kind *)
Definition uniform `{IsoParser} (posts : list post) : Prop :=
  ∀ p q, p ∈ posts → q ∈ posts →
    same_kind (sort_key (parse_created_at p)) (sort_key (parse_created_at q)).

(** the posts of tagged items, in order *)
Definition flat_posts (rs : list (option datetime * record)) : list post :=
  concat ((λ r, record_posts r.2) <$> rs).

(** a post with its parsed time stamp *)
Definition tagged_post `{IsoParser} (p : post) : post * option datetime :=
  (p, parse_created_at p).

(** the items that the walk over the posts of one author adds: the runs
    of these posts, each closed into a thread or a post *)
Definition author_items (thr : Z) (ua : string * list (post * option datetime))
    (new : list (option datetime * record)) : Prop :=
  ∃ runs,
    Forall2 (λ run r, close_run ua.1 run = Ok r) runs new ∧
    concat runs = ua.2 ∧
    Forall (λ run, run ≠ [] ∧ chained thr run) runs ∧
    borders thr runs.

(** the posts grouped by author, each group in ascending order of time *)
Definition grouped `{IsoParser} (posts : list post)
    (by_author : list (string * list (post * option datetime))) : Prop :=
  concat (snd <$> by_author) ≡ₚ tagged_post <$> posts ∧
  NoDup (fst <$> by_author) ∧
  Forall (λ ua, Forall (λ x, default "" (post_username x.1) = ua.1) ua.2 ∧
                StronglySorted (λ x y, key_before x.2 y.2) ua.2) by_author.

(** * Properties *)

(** ** The [result] monad and the loops *)

Lemma bind_Ok {A B : Type} (r : result A) (k : A → result B) (b : B) :
  bind r k = Ok b → ∃ a, r = Ok a ∧ k a = Ok b.
Proof. destruct r as [a|e]; simpl; [eauto | discriminate]. Qed.

Ltac inv_bind H :=
  let a := fresh "a" in
  let Ha := fresh "H" a in
  apply bind_Ok in H as (a & Ha & H).

(** An invariant of a [for] loop that may raise: it only has to be
    carried over the iterations that return. *)
Lemma foldR_inv {A S : Type} (f : S → A → result S) (P : list A → S → Prop)
    (l : list A) (st st' : S) :
  P [] st →
  (∀ pre x post s s', l = pre ++ x :: post → P pre s → f s x = Ok s' →
     P (pre ++ [x]) s') →
  foldR f st l = Ok st' → P l st'.
Proof.
  intros Hinit Hstep.
  enough (∀ rest pre s, l = pre ++ rest → P pre s →
            foldR f s rest = Ok st' → P l st') as Hgen
    by (intros; eapply (Hgen l []); eauto).
  induction rest as [|x rest IH]; intros pre s Hl Hpre Hfold; simpl in Hfold.
  - injection Hfold as <-. by rewrite Hl, app_nil_r.
  - inv_bind Hfold. apply (IH (pre ++ [x]) a); [by rewrite <- app_assoc | eauto | done].
Qed.

Lemma foldl_inv {A S : Type} (f : S → A → S) (P : list A → S → Prop)
    (l : list A) (st : S) :
  P [] st →
  (∀ pre x post s, l = pre ++ x :: post → P pre s → P (pre ++ [x]) (f s x)) →
  P l (foldl f st l).
Proof.
  intros Hinit Hstep.
  enough (∀ rest pre s, l = pre ++ rest → P pre s → P l (foldl f s rest)) as Hgen
    by (eapply (Hgen l []); eauto).
  induction rest as [|x rest IH]; intros pre s Hl Hpre; simpl.
  - by rewrite Hl, app_nil_r.
  - apply (IH (pre ++ [x])); [by rewrite <- app_assoc | eauto].
Qed.

(** a loop whose body never raises returns *)
Lemma foldR_total {A S : Type} (f : S → A → result S) (P : list A → S → Prop)
    (l : list A) (st : S) :
  P [] st →
  (∀ pre x post s, l = pre ++ x :: post → P pre s →
     ∃ s', f s x = Ok s' ∧ P (pre ++ [x]) s') →
  ∃ st', foldR f st l = Ok st' ∧ P l st'.
Proof.
  intros Hinit Hstep.
  enough (∀ rest pre s, l = pre ++ rest → P pre s →
            ∃ st', foldR f s rest = Ok st' ∧ P l st') as Hgen
    by (eapply (Hgen l []); eauto).
  induction rest as [|x rest IH]; intros pre s Hl Hpre; simpl.
  - exists s. by rewrite Hl, app_nil_r.
  - destruct (Hstep pre x rest s Hl Hpre) as (s' & -> & Hs'). simpl.
    apply (IH (pre ++ [x])); [by rewrite <- app_assoc | done].
Qed.

Lemma mapR_Ok {A B : Type} (f : A → result B) (l : list A) (r : list B) :
  mapR f l = Ok r ↔ Forall2 (λ x y, f x = Ok y) l r.
Proof.
  revert r. induction l as [|x l IH]; intros r; simpl.
  - split; [intros [= <-]; constructor | by inversion 1].
  - split.
    + intros Hm. inv_bind Hm. inv_bind Hm. injection Hm as <-.
      constructor; [done | by apply IH].
    + inversion 1 as [|? y ? r' Hy Hr]; subst. rewrite Hy. simpl.
      apply IH in Hr. by rewrite Hr.
Qed.

Lemma list_get_Ok {A : Type} (l : list A) (i : nat) (x : A) :
  list_get l i = Ok x ↔ l !! i = Some x.
Proof. unfold list_get. destruct (l !! i); naive_solver. Qed.

(** ** Lists: enumeration, permutations *)

Lemma enumerate_lookup {A : Type} (l : list A) (k i : nat) (x : A) :
  enumerate l !! k = Some (i, x) ↔ i = k ∧ l !! k = Some x.
Proof.
  unfold enumerate. rewrite list_lookup_imap.
  destruct (l !! k); simpl; naive_solver.
Qed.

Lemma enumerate_split {A : Type} (l : list A) pre (i : nat) (x : A) post :
  enumerate l = pre ++ (i, x) :: post → i = length pre ∧ l !! i = Some x.
Proof.
  intros Hl.
  assert (enumerate l !! length pre = Some (i, x)) as Hk
    by (rewrite Hl; apply list_lookup_middle; done).
  apply enumerate_lookup in Hk. naive_solver.
Qed.

Lemma enumerate_elem {A : Type} (l : list A) (i : nat) (x : A) :
  (i, x) ∈ enumerate l ↔ l !! i = Some x.
Proof.
  rewrite list_elem_of_lookup. split.
  - intros (k & Hk). apply enumerate_lookup in Hk. naive_solver.
  - intros Hi. exists i. by apply enumerate_lookup.
Qed.

Lemma enumerate_fst {A : Type} (l : list A) :
  fst <$> enumerate l = seq 0 (length l).
Proof.
  apply list_eq. intros k. rewrite list_lookup_fmap.
  destruct (decide (k < length l)%nat) as [Hk|Hk].
  - destruct (lookup_lt_is_Some_2 l k Hk) as [x Hx].
    rewrite (proj2 (enumerate_lookup l k k x)) by done.
    simpl. symmetry. by apply lookup_seq.
  - rewrite (lookup_ge_None_2 (seq _ _)) by (rewrite length_seq; lia).
    destruct (enumerate l !! k) as [[i x]|] eqn:E; [|done].
    apply enumerate_lookup in E as [_ E]. apply lookup_lt_Some in E. lia.
Qed.

Lemma enumerate_snd {A : Type} (l : list A) : snd <$> enumerate l = l.
Proof.
  apply list_eq. intros k. rewrite list_lookup_fmap.
  destruct (l !! k) as [x|] eqn:Hx.
  - by rewrite (proj2 (enumerate_lookup l k k x)).
  - destruct (enumerate l !! k) as [[i y]|] eqn:E; [|done].
    apply enumerate_lookup in E as [_ E]. congruence.
Qed.

Lemma concat_Permutation {A : Type} (l k : list (list A)) :
  l ≡ₚ k → concat l ≡ₚ concat k.
Proof.
  induction 1 as [|x l k _ IH|x y l|l k m _ IH1 _ IH2]; simpl.
  - done.
  - by rewrite IH.
  - rewrite !app_assoc. f_equiv. apply Permutation_app_comm.
  - by etrans.
Qed.

Lemma Forall2_Permutation_l {A B : Type} (R : A → B → Prop) (l l' : list A)
    (k : list B) :
  l ≡ₚ l' → Forall2 R l k → ∃ k', k ≡ₚ k' ∧ Forall2 R l' k'.
Proof.
  intros Hp. revert k.
  induction Hp as [|x l l' _ IH|x y l|l l' l'' _ IH1 _ IH2]; intros k Hk.
  - exists k. done.
  - inversion Hk as [|? b ? k0 Hb Hk0]; subst.
    destruct (IH k0 Hk0) as (k' & ? & ?). exists (b :: k'). split; [by f_equiv|by constructor].
  - inversion Hk as [|? b ? k0 Hb Hk0]; subst.
    inversion Hk0 as [|? c ? k1 Hc Hk1]; subst.
    exists (c :: b :: k1). split; [apply perm_swap | by repeat constructor].
  - destruct (IH1 k Hk) as (k1 & ? & Hk1). destruct (IH2 k1 Hk1) as (k2 & ? & ?).
    exists k2. split; [by etrans | done].
Qed.

(** the elements found at the positions [0 .. length l - 1] are [l] *)
Lemma Forall2_lookup_seq {A : Type} (l k : list A) :
  Forall2 (λ i x, l !! i = Some x) (seq 0 (length l)) k → k = l.
Proof.
  intros HF. apply list_eq. intros i.
  destruct (k !! i) as [x|] eqn:Hx.
  - destruct (Forall2_lookup_r _ _ _ _ _ HF Hx) as (j & Hj & Hl).
    apply lookup_seq in Hj as [-> _]. done.
  - apply lookup_ge_None in Hx. apply Forall2_length in HF.
    rewrite length_seq in HF. symmetry. apply lookup_ge_None. lia.
Qed.

(** ** Sorting *)

Lemma strongly_sorted_lookup {A : Type} (R : relation A) (l : list A)
    (i j : nat) (x y : A) :
  StronglySorted R l → (i < j)%nat → l !! i = Some x → l !! j = Some y → R x y.
Proof.
  intros Hs. revert i j. induction Hs as [|a l Hs IH Hall]; intros i j Hij Hi Hj.
  - done.
  - destruct j as [|j]; [lia|]. destruct i as [|i]; simpl in *.
    + injection Hi as ->. rewrite Forall_forall in Hall.
      apply Hall. by eapply list_elem_of_lookup_2.
    + apply (IH i j); [lia|done..].
Qed.

Section sort_facts.
Context {A : Type} (lt : A → A → result bool).

Lemma insert_asc_perm x l r : insert_asc lt x l = Ok r → r ≡ₚ x :: l.
Proof.
  revert r. induction l as [|y l IH]; intros r; simpl.
  - by intros [= <-].
  - destruct (lt y x) as [[]|]; [|by intros [= <-]|done].
    intros Hr. inv_bind Hr. injection Hr as <-.
    rewrite (IH _ Ha). apply perm_swap.
Qed.

Lemma sort_asc_perm l r : sort_asc lt l = Ok r → r ≡ₚ l.
Proof.
  revert r. induction l as [|x l IH]; intros r; simpl.
  - by intros [= <-].
  - intros Hr. inv_bind Hr. rewrite (insert_asc_perm _ _ _ Hr). f_equiv. eauto.
Qed.

Lemma insert_desc_perm x l r : insert_desc lt x l = Ok r → r ≡ₚ x :: l.
Proof.
  revert r. induction l as [|y l IH]; intros r; simpl.
  - by intros [= <-].
  - destruct (lt x y) as [[]|]; [|by intros [= <-]|done].
    intros Hr. inv_bind Hr. injection Hr as <-.
    rewrite (IH _ Ha). apply perm_swap.
Qed.

Lemma sort_desc_perm l r : sort_desc lt l = Ok r → r ≡ₚ l.
Proof.
  revert r. induction l as [|x l IH]; intros r; simpl.
  - by intros [= <-].
  - intros Hr. inv_bind Hr. rewrite (insert_desc_perm _ _ _ Hr). f_equiv. eauto.
Qed.

(** An ascending sort leaves the list ordered by any transitive relation
    that the outcomes of [<] decide. *)
Section sorted.
Context (R : relation A) `{!Transitive R}.

Lemma insert_asc_sorted x l r :
  (∀ y, y ∈ l → lt y x = Ok true → R y x) →
  (∀ y, y ∈ l → lt y x = Ok false → R x y) →
  StronglySorted R l → insert_asc lt x l = Ok r → StronglySorted R r.
Proof.
  revert r. induction l as [|y l IH]; intros r Ht Hf Hs; simpl.
  - intros [= <-]. repeat constructor.
  - apply StronglySorted_inv in Hs as [Hs Hy].
    destruct (lt y x) as [[]|] eqn:E; [| |done].
    + intros Hr. inv_bind Hr. injection Hr as <-. constructor.
      * apply IH; [intros; apply Ht; set_solver | intros; apply Hf; set_solver | done | done].
      * rewrite (insert_asc_perm _ _ _ Ha). constructor; [apply Ht; set_solver | done].
    + intros [= <-]. assert (R x y) by (apply Hf; set_solver).
      constructor; [by constructor|].
      constructor; [done|]. eapply Forall_impl; [exact Hy|]. intros; by etrans.
Qed.

Lemma sort_asc_sorted l r :
  (∀ x y, x ∈ l → y ∈ l → lt y x = Ok true → R y x) →
  (∀ x y, x ∈ l → y ∈ l → lt y x = Ok false → R x y) →
  sort_asc lt l = Ok r → StronglySorted R r.
Proof.
  revert r. induction l as [|x l IH]; intros r Ht Hf; simpl.
  - intros [= <-]. constructor.
  - intros Hr. inv_bind Hr. pose proof (sort_asc_perm _ _ Ha) as Hp.
    eapply insert_asc_sorted; [| | |exact Hr].
    + intros y Hy. rewrite Hp in Hy. apply Ht; set_solver.
    + intros y Hy. rewrite Hp in Hy. apply Hf; set_solver.
    + apply IH; [intros; apply Ht; set_solver | intros; apply Hf; set_solver | done].
Qed.

Lemma insert_desc_sorted x l r :
  (∀ y, y ∈ l → lt x y = Ok true → R y x) →
  (∀ y, y ∈ l → lt x y = Ok false → R x y) →
  StronglySorted R l → insert_desc lt x l = Ok r → StronglySorted R r.
Proof.
  revert r. induction l as [|y l IH]; intros r Ht Hf Hs; simpl.
  - intros [= <-]. repeat constructor.
  - apply StronglySorted_inv in Hs as [Hs Hy].
    destruct (lt x y) as [[]|] eqn:E; [| |done].
    + intros Hr. inv_bind Hr. injection Hr as <-. constructor.
      * apply IH; [intros; apply Ht; set_solver | intros; apply Hf; set_solver | done | done].
      * rewrite (insert_desc_perm _ _ _ Ha). constructor; [apply Ht; set_solver | done].
    + intros [= <-]. assert (R x y) by (apply Hf; set_solver).
      constructor; [by constructor|].
      constructor; [done|]. eapply Forall_impl; [exact Hy|]. intros; by etrans.
Qed.

Lemma sort_desc_sorted l r :
  (∀ x y, x ∈ l → y ∈ l → lt x y = Ok true → R y x) →
  (∀ x y, x ∈ l → y ∈ l → lt x y = Ok false → R x y) →
  sort_desc lt l = Ok r → StronglySorted R r.
Proof.
  revert r. induction l as [|x l IH]; intros r Ht Hf; simpl.
  - intros [= <-]. constructor.
  - intros Hr. inv_bind Hr. pose proof (sort_desc_perm _ _ Ha) as Hp.
    eapply insert_desc_sorted; [| | |exact Hr].
    + intros y Hy. rewrite Hp in Hy. apply Ht; set_solver.
    + intros y Hy. rewrite Hp in Hy. apply Hf; set_solver.
    + apply IH; [intros; apply Ht; set_solver | intros; apply Hf; set_solver | done].
Qed.
End sorted.

(** a sort whose comparisons never raise returns *)
Lemma insert_asc_total x l :
  (∀ y, y ∈ l → ∃ b, lt y x = Ok b) → ∃ r, insert_asc lt x l = Ok r.
Proof.
  induction l as [|y l IH]; intros Hlt; simpl; [eauto|].
  destruct (Hlt y) as [[] ->]; [set_solver| |eauto].
  destruct IH as [r ->]; [intros; apply Hlt; set_solver|]. simpl. eauto.
Qed.

Lemma sort_asc_total l :
  (∀ x y, x ∈ l → y ∈ l → ∃ b, lt x y = Ok b) → ∃ r, sort_asc lt l = Ok r.
Proof.
  induction l as [|x l IH]; intros Hlt; simpl; [eauto|].
  destruct IH as [s Hs]; [intros; apply Hlt; set_solver|]. rewrite Hs. simpl.
  apply insert_asc_total. intros y Hy.
  rewrite (sort_asc_perm _ _ Hs) in Hy. apply Hlt; set_solver.
Qed.

Lemma insert_desc_total x l :
  (∀ y, y ∈ l → ∃ b, lt x y = Ok b) → ∃ r, insert_desc lt x l = Ok r.
Proof.
  induction l as [|y l IH]; intros Hlt; simpl; [eauto|].
  destruct (Hlt y) as [[] ->]; [set_solver| |eauto].
  destruct IH as [r ->]; [intros; apply Hlt; set_solver|]. simpl. eauto.
Qed.

Lemma sort_desc_total l :
  (∀ x y, x ∈ l → y ∈ l → ∃ b, lt x y = Ok b) → ∃ r, sort_desc lt l = Ok r.
Proof.
  induction l as [|x l IH]; intros Hlt; simpl; [eauto|].
  destruct IH as [s Hs]; [intros; apply Hlt; set_solver|]. rewrite Hs. simpl.
  apply insert_desc_total. intros y Hy.
  rewrite (sort_desc_perm _ _ Hs) in Hy. apply Hlt; set_solver.
Qed.
End sort_facts.

(** ** Clustering: the inverted index *)

Lemma foldl_intersection (s : gset string) (rest : list (gset string)) (e : string) :
  e ∈ foldl (∩) s rest ↔ e ∈ s ∧ ∀ s', s' ∈ rest → e ∈ s'.
Proof.
  revert s. induction rest as [|s1 rest IH]; intros s; simpl.
  - set_solver.
  - rewrite IH. set_solver.
Qed.

Lemma foldl_union_elem (l : list nat) (u : gset nat) (i : nat) :
  i ∈ foldl (λ u i, {[i]} ∪ u) u l ↔ i ∈ l ∨ i ∈ u.
Proof.
  revert u. induction l as [|j l IH]; intros u; simpl.
  - set_solver.
  - rewrite IH. set_solver.
Qed.

Lemma index_append_elem (entity : string) (i : nat) d e l :
  (e, l) ∈ index_append entity i d →
  (e, l) ∈ d ∨ (e = entity ∧ (l = [i] ∨ ∃ l0, (e, l0) ∈ d ∧ l = l0 ++ [i])).
Proof.
  induction d as [|[e0 l0] d IH]; simpl.
  - intros [= -> ->]%list_elem_of_singleton. right. eauto.
  - destruct (String.eqb_spec entity e0) as [->|Hne].
    + intros [Heq|Hin]%elem_of_cons.
      * injection Heq as -> ->. right. split; [done|]. right. exists l0. set_solver.
      * left. set_solver.
    + intros [Heq|Hin]%elem_of_cons.
      * left. set_solver.
      * destruct (IH Hin) as [?|(-> & [->|(l1 & ? & ->)])]; [left; set_solver|right..].
        -- eauto.
        -- split; [done|]. right. exists l1. set_solver.
Qed.

Section cluster_facts.
Context `{SetOrder}.

Lemma set_iter_elem (s : gset string) (x : string) : x ∈ set_iter s ↔ x ∈ s.
Proof. by rewrite set_iter_perm, elem_of_elements. Qed.

Lemma set_iter_NoDup (s : gset string) : NoDup (set_iter s).
Proof. rewrite set_iter_perm. apply NoDup_elements. Qed.

Lemma build_index_ok (items : list item) :
  Forall (entry_ok items) (build_index items).
Proof.
  unfold build_index.
  apply (Forall_impl (λ el : string * list nat,
           entry_ok items el ∧ ∀ j, j ∈ el.2 → (j < length (enumerate items))%nat));
    [|by intros el [Hok _]].
  apply (foldl_inv _
    (λ pre d, Forall (λ el : string * list nat,
                entry_ok items el ∧ ∀ j, j ∈ el.2 → (j < length pre)%nat) d)).
  { constructor. }
  intros pre [i it] post d Hl Hd.
  apply enumerate_split in Hl as [-> Hit].
  enough (Forall (λ el : string * list nat,
            entry_ok items el ∧ (∀ j, j ∈ el.2 → (j ≤ length pre)%nat) ∧
            (length pre ∈ el.2 → el.1 ∈ set_iter (item_entities it)))
          (foldl (λ d entity, index_append entity (length pre) d) d
                 (set_iter (item_entities it)))) as Hen.
  { eapply Forall_impl; [exact Hen|]. intros el (? & Hle & _). split; [done|].
    intros j Hj. rewrite length_app. simpl. specialize (Hle j Hj). lia. }
  pose proof (set_iter_NoDup (item_entities it)) as Hnd.
  revert Hnd.
  apply (foldl_inv _
    (λ done d', NoDup (set_iter (item_entities it)) →
       Forall (λ el : string * list nat,
         entry_ok items el ∧ (∀ j, j ∈ el.2 → (j ≤ length pre)%nat) ∧
         (length pre ∈ el.2 → el.1 ∈ done)) d')).
  - intros _. eapply Forall_impl; [exact Hd|]. intros el ([? ?] & Hlt).
    split; [done|]. split; [intros j Hj; specialize (Hlt j Hj); lia|].
    intros Hj. specialize (Hlt _ Hj). lia.
  - intros done e rest d' Hsplit IH Hnd. specialize (IH Hnd).
    rewrite Hsplit in Hnd. apply NoDup_app in Hnd as (_ & Hdisj & _).
    assert (e ∉ done) as Hfresh by (intros ?; eapply Hdisj; [done|set_solver]).
    assert (e ∈ item_entities it) as Hent
      by (apply set_iter_elem; rewrite Hsplit; set_solver).
    rewrite Forall_forall in IH. apply Forall_forall. intros [e' l'] Hin.
    apply index_append_elem in Hin as [Hin|(-> & [->|(l0 & Hin & ->)])].
    + destruct (IH _ Hin) as (? & ? & Hd'). split; [done|]. split; [done|].
      intros Hj. apply elem_of_app. left. auto.
    + split; [split|split]; simpl.
      * apply NoDup_singleton.
      * intros j ->%list_elem_of_singleton. eauto.
      * intros j ->%list_elem_of_singleton. done.
      * intros _. set_solver.
    + destruct (IH _ Hin) as ([Hnd0 Hhas] & Hle & Hdone). simpl in *.
      split; [split|split]; simpl.
      * apply NoDup_app. split; [done|]. split; [|apply NoDup_singleton].
        intros j Hj ->%list_elem_of_singleton. apply Hfresh. auto.
      * intros j [Hj| ->%list_elem_of_singleton]%elem_of_app; eauto.
      * intros j [Hj| ->%list_elem_of_singleton]%elem_of_app; auto.
      * intros _. set_solver.
Qed.

Lemma pick_topic_elem (entity : string) (shared : gset string) :
  entity ∈ shared → pick_topic entity shared ∈ shared.
Proof.
  intros He. unfold pick_topic.
  destruct (filter _ (set_iter shared)) as [|e l] eqn:E; [done|].
  assert (e ∈ filter (λ e, str_in e GENERIC_TOPICS = false) (set_iter shared)) as Hin
    by (rewrite E; set_solver).
  apply list_elem_of_filter in Hin as [_ Hin]. by apply set_iter_elem.
Qed.

(** ** Clustering: the loop *)

Lemma cluster_step_inv items min st el st' parts :
  entry_ok items el → loop_inv items min st parts →
  cluster_step items min st el = Ok st' →
  ∃ parts', loop_inv items min st' parts'.
Proof.
  destruct st as [used clusters], el as [entity idxs].
  intros [Hnd Hhas] (Hpos & Hndp & Hused & Hformed). simpl in *.
  unfold cluster_step.
  set (avail := filter (λ i, i ∉ used) idxs).
  destruct (Z.of_nat (length avail) <? min) eqn:Hlen.
  { intros [= <-]. exists parts. done. }
  intros Hst. inv_bind Hst. rename a into cluster_items, Ha into Hmap.
  inv_bind Hst. rename a into inter, Ha into Hinter.
  injection Hst as <-.
  apply mapR_Ok in Hmap.
  assert (Forall2 (λ i it, items !! i = Some it) avail cluster_items) as Hav.
  { eapply Forall2_impl; [exact Hmap|]. intros i it. apply list_get_Ok. }
  assert (∀ it, it ∈ cluster_items → entity ∈ item_entities it) as Hentity.
  { intros it Hit. apply list_elem_of_lookup in Hit as [k Hk].
    destruct (Forall2_lookup_r _ _ _ _ _ Hav Hk) as (i & Hi & Hit).
    apply list_elem_of_lookup_2, list_elem_of_filter in Hi as [_ Hi].
    destruct (Hhas i Hi) as (it' & Hit' & ?). congruence. }
  assert (cluster_items ≠ [] ∧
          ∀ e, e ∈ inter ↔ ∀ it, it ∈ cluster_items → e ∈ item_entities it)
    as [Hne Hinter_spec].
  { destruct cluster_items as [|it0 its]; [discriminate|].
    split; [done|]. simpl in Hinter. injection Hinter as <-.
    intros e. rewrite foldl_intersection. setoid_rewrite list_elem_of_fmap.
    split.
    - intros [H0 Hrest] it [->|Hit]%elem_of_cons; [done|]. apply Hrest. eauto.
    - intros Hall. split; [apply Hall; set_solver|].
      intros s' (it & -> & Hit). apply Hall. set_solver. }
  assert (entity ∈ inter) as Hseed by (by apply Hinter_spec).
  destruct (decide (inter = ∅)) as [->|_]; [set_solver|].
  exists (parts ++ [avail]). split; [|split; [|split]]; simpl.
  - apply Forall2_app; [done|]. by constructor.
  - rewrite concat_app. simpl. rewrite app_nil_r. apply NoDup_app.
    split; [done|]. split; [|by apply NoDup_filter].
    intros i Hi%Hused Hi'. apply list_elem_of_filter in Hi' as [Hi' _]. done.
  - intros i. rewrite concat_app. simpl. rewrite app_nil_r, foldl_union_elem.
    rewrite elem_of_app, Hused. tauto.
  - apply Forall_app. split; [done|]. constructor; [|constructor].
    exists (pick_topic entity inter). simpl.
    split; [done|]. split; [by apply pick_topic_elem|].
    split; [|done].
    apply Forall2_length in Hav. rewrite <- Hav. lia.
Qed.

Lemma mapR_total {A B : Type} (f : A → result B) (l : list A) :
  (∀ x, x ∈ l → ∃ y, f x = Ok y) →
  ∃ r, mapR f l = Ok r ∧ length r = length l.
Proof.
  induction l as [|x l IH]; intros Hf; simpl; [eauto|].
  destruct (Hf x) as [y ->]; [set_solver|].
  destruct IH as (r & -> & Hr); [intros; apply Hf; set_solver|].
  simpl. exists (y :: r). simpl. auto.
Qed.

Lemma cluster_step_total items min st el :
  1 ≤ min → entry_ok items el → ∃ st', cluster_step items min st el = Ok st'.
Proof.
  destruct st as [used clusters], el as [entity idxs].
  intros Hmin [Hnd Hhas]. simpl in *. unfold cluster_step.
  set (avail := filter (λ i, i ∉ used) idxs).
  destruct (Z.of_nat (length avail) <? min) eqn:Hlen; [eauto|].
  destruct (mapR_total (list_get items) avail) as (its & -> & Hits).
  { intros i [_ Hi]%list_elem_of_filter. destruct (Hhas i Hi) as (it & Hit & _).
    exists it. by apply list_get_Ok. }
  simpl. destruct its as [|it0 its]; [simpl in Hits; lia|]. simpl. eauto.
Qed.

Lemma cluster_loop_inv items min l st :
  Forall (entry_ok items) l →
  foldR (cluster_step items min) (∅, []) l = Ok st →
  ∃ parts, loop_inv items min st parts.
Proof.
  intros Hl.
  apply (foldR_inv _ (λ _ st, ∃ parts, loop_inv items min st parts)).
  - exists []. split; [constructor|]. split; [constructor|].
    split; [set_solver|constructor].
  - intros pre el post s s' -> [parts Hinv] Hstep.
    eapply cluster_step_inv; [|exact Hinv|exact Hstep].
    rewrite Forall_forall in Hl. apply Hl. set_solver.
Qed.

Lemma cluster_loop_total items min l :
  1 ≤ min → Forall (entry_ok items) l →
  ∃ st, foldR (cluster_step items min) (∅, []) l = Ok st.
Proof.
  intros Hmin Hl.
  destruct (foldR_total (cluster_step items min) (λ _ _, True) l (∅, []))
    as (st & Hst & _); [done| |eauto].
  intros pre el post s -> _.
  destruct (cluster_step_total items min s el) as [s' Hs']; [done| |eauto].
  rewrite Forall_forall in Hl. apply Hl. set_solver.
Qed.

(** ** Clustering: left-over items and the final order *)

Lemma concat_singletons {A B : Type} (f : A → B) (l : list A) :
  concat ((λ x, [f x]) <$> l) = f <$> l.
Proof. induction l as [|x l IH]; csimpl; [done|by rewrite IH]. Qed.

Lemma singletons_spec items (used : gset nat) :
  ∃ ps, Forall2 (at_positions items) (singletons items used) ps ∧
        NoDup (concat ps) ∧
        (∀ i, i ∈ concat ps ↔ ((i < length items)%nat ∧ i ∉ used)) ∧
        Forall standalone (singletons items used).
Proof.
  set (rest := filter (λ '(i, it), i ∉ used) (enumerate items)).
  assert (∀ x, x ∈ rest → (x.1 ∉ used) ∧ items !! x.1 = Some x.2) as Hrest.
  { intros [i it] [Hi Hin]%list_elem_of_filter. split; [done|].
    by apply enumerate_elem. }
  exists ((λ x : nat * item, [x.1]) <$> rest).
  rewrite concat_singletons. unfold singletons. fold rest.
  split; [|split; [|split]].
  - apply Forall2_fmap, Forall_Forall2_diag, Forall_forall.
    intros [i it] Hin. destruct (Hrest _ Hin) as [_ Hit].
    unfold at_positions. simpl. by repeat constructor.
  - apply (sublist_NoDup _ (fst <$> enumerate items));
      [|apply fmap_sublist, sublist_filter].
    rewrite enumerate_fst. apply NoDup_seq.
  - intros i. rewrite list_elem_of_fmap. split.
    + intros ([j it] & -> & Hin). destruct (Hrest _ Hin) as [? Hit].
      split; [|done]. by eapply lookup_lt_Some.
    + intros [Hlt Hi]. destruct (lookup_lt_is_Some_2 items i Hlt) as [it Hit].
      exists (i, it). split; [done|]. apply list_elem_of_filter.
      split; [done|]. by apply enumerate_elem.
  - apply Forall_fmap, Forall_forall. intros [i it] _. split; simpl; eauto.
Qed.
End cluster_facts.

Lemma ltb_le (a b : string) : String.ltb a b = true → String.le a b.
Proof.
  unfold String.le, String.ltb, String.leb.
  by destruct (String.compare a b).
Qed.

Lemma not_ltb_le (a b : string) : String.ltb b a = false → String.le a b.
Proof.
  unfold String.le, String.ltb, String.leb. rewrite (String.compare_antisym a b).
  by destruct (String.compare b a).
Qed.

Lemma key_lt_le (a b : Z * string) : key_lt a b = true → key_le a b.
Proof.
  unfold key_lt, key_le. intros [Hlt|[Heq Hs]%andb_true_iff]%orb_true_iff.
  - left. lia.
  - right. split; [lia|]. by apply ltb_le.
Qed.

Lemma not_key_lt_le (a b : Z * string) : key_lt b a = false → key_le a b.
Proof.
  unfold key_lt, key_le. intros [Hlt Hs]%orb_false_iff.
  destruct (Z.lt_total a.1 b.1) as [?|[Heq|?]]; [by left| |lia].
  right. split; [done|]. apply not_ltb_le.
  rewrite Heq, Z.eqb_refl in Hs. done.
Qed.

#[local] Instance key_le_trans : Transitive key_le.
Proof.
  intros a b c [Hab|[Hab Hab']] [Hbc|[Hbc Hbc']]; unfold key_le.
  - left. lia.
  - left. lia.
  - left. lia.
  - right. split; [lia|]. by etrans.
Qed.

#[local] Instance cluster_le_trans : Transitive cluster_le.
Proof. intros a b c. unfold cluster_le. apply key_le_trans. Qed.

Section cluster_spec.
Context `{SetOrder}.

Lemma sorted_entities_ok items l :
  sort_desc (λ x y : string * list nat, Ok (length x.2 <? length y.2)%nat)
            (build_index items) = Ok l →
  Forall (entry_ok items) l.
Proof.
  intros Hs%sort_desc_perm. rewrite Hs. apply build_index_ok.
Qed.

(** What every returned clustering satisfies. *)
Lemma cluster_by_topic_spec items min out :
  cluster_by_topic items min = Ok out →
  ∃ parts,
    Forall2 (at_positions items) out parts ∧
    concat parts ≡ₚ seq 0 (length items) ∧
    Forall (λ c, formed min c ∨ standalone c) out ∧
    StronglySorted cluster_le out.
Proof.
  unfold cluster_by_topic. destruct items as [|it0 its] eqn:Hitems.
  { intros [= <-]. exists []. repeat split; constructor. }
  rewrite <- Hitems. clear Hitems it0 its.
  intros Hc. inv_bind Hc. rename a into sorted, Ha into Hsorted.
  inv_bind Hc. rename a into st, Ha into Hloop.
  apply sorted_entities_ok in Hsorted.
  destruct (cluster_loop_inv _ _ _ _ Hsorted Hloop)
    as (parts & Hpos & Hnd & Hused & Hformed).
  destruct (singletons_spec items st.1) as (ps & Hpos' & Hnd' & Hrest & Hsingle).
  pose proof (sort_asc_perm _ _ _ Hc) as Hperm.
  destruct (Forall2_Permutation_l (at_positions items)
              (st.2 ++ singletons items st.1) out (parts ++ ps))
    as (parts' & Hparts' & Hout); [done|by apply Forall2_app|].
  exists parts'. split; [done|]. split; [|split].
  - rewrite <- (concat_Permutation _ _ Hparts'), concat_app.
    apply NoDup_Permutation; [|apply NoDup_seq|].
    + apply NoDup_app. split; [done|]. split; [|done].
      intros i Hi%Hused Hi'%Hrest. tauto.
    + intros i. rewrite elem_of_app, Hrest, elem_of_seq.
      split; [|destruct (decide (i ∈ st.1)); [left; by apply Hused|right; split; [lia|done]]].
      intros [Hi|[? _]]; [|lia].
      apply list_elem_of_In, in_concat in Hi as (p & Hp & Hi).
      apply list_elem_of_In, list_elem_of_lookup in Hp as [k Hk].
      destruct (Forall2_lookup_r _ _ _ _ _ Hpos Hk) as (c & _ & Hc').
      apply list_elem_of_In, list_elem_of_lookup in Hi as [k' Hk'].
      destruct (Forall2_lookup_l _ _ _ _ _ Hc' Hk') as (it & _ & Hit).
      apply lookup_lt_Some in Hit. lia.
  - rewrite Hperm. apply Forall_app. split.
    + eapply Forall_impl; [exact Hformed|]. by left.
    + eapply Forall_impl; [exact Hsingle|]. by right.
  - eapply (sort_asc_sorted _ cluster_le); [| |exact Hc].
    + intros x y _ _ [= Hlt]. by apply key_lt_le.
    + intros x y _ _ [= Hlt]. by apply not_key_lt_le.
Qed.

(** With a minimal cluster size of at least one, the clustering returns. *)
Lemma cluster_by_topic_total items min :
  1 ≤ min → ∃ out, cluster_by_topic items min = Ok out.
Proof.
  intros Hmin. unfold cluster_by_topic. destruct items as [|it0 its] eqn:Hitems; [eauto|].
  rewrite <- Hitems. clear Hitems it0 its.
  destruct (sort_desc_total (λ x y : string * list nat, Ok (length x.2 <? length y.2)%nat)
              (build_index items)) as [sorted Hsorted]; [eauto|].
  rewrite Hsorted. simpl.
  destruct (cluster_loop_total items min sorted Hmin) as [st Hst];
    [by apply sorted_entities_ok|].
  rewrite Hst. simpl. apply sort_asc_total. eauto.
Qed.
End cluster_spec.

(** ** Clustering on small inputs, whatever the iteration order of sets *)

Example normalize_item_news :
  normalize_item (headline_only "OpenAI ships a new model") "article" = Some news_openai ∧
  normalize_item (headline_only "Anthropic and OpenAI agree") "article" = Some news_both ∧
  normalize_item (headline_only "Anthropic opens an office") "article" = Some news_anthropic.
Proof. repeat split; vm_compute; reflexivity. Qed.

Section cluster_examples.
Context `{SetOrder}.

Lemma set_iter_single (x : string) : set_iter {[x]} = [x].
Proof.
  apply Permutation_singleton_r. rewrite set_iter_perm.
  by rewrite elements_singleton.
Qed.

Lemma set_iter_pair (x y : string) :
  x ≠ y → set_iter {[x; y]} = [x; y] ∨ set_iter {[x; y]} = [y; x].
Proof.
  intros Hne. apply Permutation_length_2_inv.
  rewrite set_iter_perm, elements_union_singleton by set_solver.
  by rewrite elements_singleton.
Qed.

(** evaluate [filter] on positions once the claimed set is known *)
Ltac eval_filter :=
  match goal with
  | |- context [filter ?P ?l] =>
      let v := eval vm_compute in (filter P l) in
      change (filter P l) with v
  end.

(** An item with the entities [x] and [y] followed by one with [x]
    alone: the cluster of [x] claims both, nothing is left for [y], and
    with a minimal size below one the empty intersection is asked for. *)
Lemma cluster_raises (a b : item) (x y : string) (min : Z) :
  item_entities a = {[x; y]} → item_entities b = {[x]} → x ≠ y → min ≤ 0 →
  cluster_by_topic [a; b] min = Raise TypeError.
Proof.
  intros Ha Hb Hne Hmin.
  assert (String.eqb x y = false) as Hxy by (by apply String.eqb_neq).
  assert (String.eqb y x = false) as Hyx by (by apply String.eqb_neq).
  unfold cluster_by_topic, build_index, enumerate. simpl.
  rewrite Ha, Hb, set_iter_single.
  destruct (set_iter_pair x y Hne) as [-> | ->];
    repeat (simpl; rewrite ?String.eqb_refl, ?Hxy, ?Hyx).
  all: eval_filter; simpl.
  all: rewrite (proj2 (Z.ltb_ge _ _)) by lia; simpl.
  all: eval_filter; simpl.
  all: rewrite (proj2 (Z.ltb_ge _ _)) by lia.
  all: reflexivity.
Qed.

(** One item with one entity and a minimal size of one: a cluster of
    one item that has a topic. *)
Lemma cluster_one (a : item) (x : string) :
  item_entities a = {[x]} → str_in x GENERIC_TOPICS = false →
  cluster_by_topic [a] 1 =
    Ok [{| cluster_topic := Some x; cluster_entities := {[x]};
           cluster_items := [a] |}].
Proof.
  intros Ha Hx.
  unfold cluster_by_topic, build_index, enumerate. simpl.
  rewrite Ha, set_iter_single. simpl.
  eval_filter. simpl. rewrite Ha.
  destruct (decide ({[x]} = ∅)) as [Hemp|_]; [set_solver|].
  unfold pick_topic. rewrite set_iter_single.
  rewrite filter_cons_True by done. simpl.
  unfold singletons, enumerate. simpl. eval_filter. reflexivity.
Qed.

End cluster_examples.

(** ** Clustering: the claims *)

Lemma Forall2_concat {A B : Type} (R : A → B → Prop) (ls : list (list A))
    (ks : list (list B)) :
  Forall2 (Forall2 R) ls ks → Forall2 R (concat ls) (concat ks).
Proof. induction 1; simpl; [constructor|by apply Forall2_app]. Qed.

Section cluster_claims.
Context `{SetOrder}.

(** the items of the clusters, laid end to end, are the input items in
    some order *)
Lemma cluster_by_topic_items_perm items min out :
  cluster_by_topic items min = Ok out →
  concat (cluster_items <$> out) ≡ₚ items.
Proof.
  intros (parts & Hpos & Hparts & _)%cluster_by_topic_spec.
  assert (Forall2 (λ i it, items !! i = Some it)
            (concat parts) (concat (cluster_items <$> out))) as HF.
  { apply Forall2_concat, Forall2_fmap_r, Forall2_flip.
    eapply Forall2_impl; [exact Hpos|]. by intros c p. }
  destruct (Forall2_Permutation_l _ _ _ _ Hparts HF) as (k & Hk & HF').
  apply Forall2_lookup_seq in HF' as ->. done.
Qed.

(** C1 (as amended): for every input sequence and every minimal cluster
    size of at least one, [cluster_by_topic] returns a list of clusters
    that partitions the input: the clusters hold the items of disjoint
    sets of positions that together are all positions of the input, so
    the items of all clusters together are the input, none lost and none
    repeated. *)
Theorem cluster_by_topic_partitions (items : list item) (min_cluster_size : Z) :
  1 ≤ min_cluster_size →
  ∃ (out : list cluster) (parts : list (list nat)),
    cluster_by_topic items min_cluster_size = Ok out ∧
    Forall2 (at_positions items) out parts ∧
    concat parts ≡ₚ seq 0 (length items) ∧
    concat (cluster_items <$> out) ≡ₚ items.
Proof.
  intros Hmin.
  destruct (cluster_by_topic_total items min_cluster_size Hmin) as [out Hout].
  destruct (cluster_by_topic_spec _ _ _ Hout) as (parts & Hpos & Hparts & _).
  exists out, parts. split; [done|]. split; [done|]. split; [done|].
  by eapply cluster_by_topic_items_perm.
Qed.


(** C8 (as amended): in every cluster of the output with more than one
    item, every item has every shared entity of the cluster; a cluster
    of one item carries exactly the entity set of that item, and has no
    topic when the minimal cluster size is at least two. *)
Theorem cluster_shared_entities (items : list item) (min_cluster_size : Z)
    (out : list cluster) (c : cluster) :
  cluster_by_topic items min_cluster_size = Ok out → c ∈ out →
  ((1 < length (cluster_items c))%nat →
     ∀ it e, it ∈ cluster_items c → e ∈ cluster_entities c →
             e ∈ item_entities it) ∧
  (∀ it, cluster_items c = [it] →
     cluster_entities c = item_entities it ∧
     (2 ≤ min_cluster_size → cluster_topic c = None)).
Proof.
  intros (parts & _ & _ & Hall & _)%cluster_by_topic_spec Hc.
  rewrite Forall_forall in Hall.
  destruct (Hall c Hc) as [(t & Ht & _ & Hmin & _ & Hshared)|[Hnone (it0 & Hit0 & Hent)]].
  - split.
    + intros _ it e Hit He. by apply Hshared.
    + intros it Hit. rewrite Hit in Hmin, Hshared. simpl in Hmin. split; [|lia].
      apply set_eq. intros e. rewrite Hshared. set_solver.
  - split.
    + rewrite Hit0. simpl. lia.
    + intros it Hit. rewrite Hit0 in Hit. injection Hit as <-. done.
Qed.
End cluster_claims.

(** C1, counterexample: with a minimal cluster size of zero the
    clustering of two items, the first with the entities of the second
    and one more, raises [TypeError] under every iteration order: there
    is no output to partition the input. *)
Lemma cluster_by_topic_raises_at_zero :
  ¬ ∃ (o : SetOrder) (out : list cluster),
      @cluster_by_topic o [news_both; news_openai] 0 = Ok out.
Proof.
  intros (o & out & Hout).
  rewrite (cluster_raises news_both news_openai "OpenAI" "Anthropic" 0) in Hout;
    [discriminate|reflexivity|reflexivity|discriminate|lia].
Qed.

Lemma cluster_by_topic_partitions_witness :
  1 ≤ 2 ∧
  ∃ (out : list cluster) (parts : list (list nat)),
    @cluster_by_topic elements_order [news_openai; news_both; news_anthropic] 2 = Ok out ∧
    Forall2 (at_positions [news_openai; news_both; news_anthropic]) out parts ∧
    concat parts ≡ₚ seq 0 3 ∧
    concat (cluster_items <$> out) ≡ₚ [news_openai; news_both; news_anthropic].
Proof.
  split; [lia|].
  apply (@cluster_by_topic_partitions elements_order
           [news_openai; news_both; news_anthropic] 2).
  lia.
Defined.



(** C8, counterexample: with a minimal cluster size of one, one item
    with one entity gives, under every iteration order, a cluster of one
    item that has a topic. *)
Lemma cluster_of_one_with_topic :
  ∃ c : cluster,
    length (cluster_items c) = 1%nat ∧ cluster_topic c ≠ None ∧
    ∀ o : SetOrder, @cluster_by_topic o [news_openai] 1 = Ok [c].
Proof.
  exists {| cluster_topic := Some "OpenAI"; cluster_entities := {["OpenAI"]};
            cluster_items := [news_openai] |}.
  split; [done|]. split; [done|].
  intros o. by apply cluster_one.
Qed.

Lemma cluster_shared_entities_witness :
  let c := {| cluster_topic := Some "OpenAI"; cluster_entities := {["OpenAI"]};
              cluster_items := [news_openai; news_both] |} in
  let s := {| cluster_topic := None; cluster_entities := {["Anthropic"]};
              cluster_items := [news_anthropic] |} in
  @cluster_by_topic elements_order [news_openai; news_both; news_anthropic] 2 = Ok [c; s] ∧
  s ∈ [c; s] ∧
  ((1 < length (cluster_items s))%nat →
     ∀ it e, it ∈ cluster_items s → e ∈ cluster_entities s → e ∈ item_entities it) ∧
  (∀ it, cluster_items s = [it] →
     cluster_entities s = item_entities it ∧ (2 ≤ 2 → cluster_topic s = None)).
Proof.
  intros c s.
  assert (@cluster_by_topic elements_order [news_openai; news_both; news_anthropic] 2
          = Ok [c; s]) as Hout by (vm_compute; reflexivity).
  assert (s ∈ [c; s]) as Hs by (apply list_elem_of_further, list_elem_of_here).
  split; [exact Hout|]. split; [exact Hs|].
  exact (@cluster_shared_entities elements_order _ 2 [c; s] s Hout Hs).
Defined.

(** ** Text search *)

Lemma str_app_nil (s : string) : "" +:+ s = s.
Proof. reflexivity. Qed.

Lemma str_app_cons (c : ascii) (a b : string) :
  String c a +:+ b = String c (a +:+ b).
Proof. reflexivity. Qed.

Lemma strip_prefix_spec (p s rest : string) :
  strip_prefix p s = Some rest ↔ s = p +:+ rest.
Proof.
  revert s. induction p as [|a p IH]; intros s; simpl.
  - rewrite str_app_nil. split; congruence.
  - rewrite str_app_cons. destruct s as [|b s]; [split; discriminate|].
    destruct (Ascii.eqb_spec a b) as [->|Hne].
    + rewrite IH. split; congruence.
    + split; [discriminate|]. intros [= ? _]. congruence.
Qed.

Lemma contains_spec (p s : string) : contains p s = true ↔ occurs p s.
Proof.
  unfold occurs. induction s as [|c s IH]; simpl.
  - destruct (strip_prefix p "") as [rest|] eqn:E.
    + apply strip_prefix_spec in E. split; [|done]. intros _. by exists "", rest.
    + split; [discriminate|]. intros (pre & suf & Hs).
      destruct pre; [|discriminate]. rewrite str_app_nil in Hs.
      apply strip_prefix_spec in Hs. congruence.
  - destruct (strip_prefix p (String c s)) as [rest|] eqn:E.
    + apply strip_prefix_spec in E. split; [|done]. intros _. by exists "", rest.
    + rewrite IH. split.
      * intros (pre & suf & ->). by exists (String c pre), suf.
      * intros (pre & suf & Hs). destruct pre as [|c' pre].
        -- rewrite str_app_nil in Hs. apply strip_prefix_spec in Hs. congruence.
        -- rewrite str_app_cons in Hs. injection Hs as -> ->. eauto.
Qed.

Lemma last_char_app (d : option ascii) (a b : string) :
  last_char d (a +:+ b) = last_char (last_char d a) b.
Proof.
  revert d. induction a as [|c a IH]; intros d; [done|].
  rewrite str_app_cons. simpl. apply IH.
Qed.

Lemma word_here_spec (p : string) (prev : option ascii) (s : string) :
  word_here p prev s = true ↔
  ∃ suf, s = p +:+ suf ∧
    boundary prev (head_char (p +:+ suf)) = true ∧
    boundary (last_char prev p) (head_char suf) = true.
Proof.
  unfold word_here. rewrite andb_true_iff. split.
  - intros [Hb Hm]. destruct (strip_prefix p s) as [rest|] eqn:E; [|done].
    apply strip_prefix_spec in E as ->. eauto.
  - intros (suf & -> & Hb & Hm). split; [done|].
    by rewrite (proj2 (strip_prefix_spec p (p +:+ suf) suf)).
Qed.

Lemma search_word_spec (p : string) (prev : option ascii) (s : string) :
  search_word p prev s = true ↔
  ∃ pre suf, s = pre +:+ p +:+ suf ∧
    boundary (last_char prev pre) (head_char (p +:+ suf)) = true ∧
    boundary (last_char prev (pre +:+ p)) (head_char suf) = true.
Proof.
  revert prev. induction s as [|c s IH]; intros prev.
  - simpl. rewrite orb_false_r, word_here_spec. split.
    + intros (suf & Hs & ? & ?). exists "", suf. by rewrite last_char_app.
    + intros (pre & suf & Hs & Hb & Hm). destruct pre; [|discriminate].
      rewrite last_char_app in Hm. eauto.
  - simpl. rewrite orb_true_iff, word_here_spec, IH. split.
    + intros [(suf & Hs & ? & ?)|(pre & suf & -> & ? & ?)].
      * exists "", suf. by rewrite last_char_app.
      * by exists (String c pre), suf.
    + intros (pre & suf & Hs & Hb & Hm). destruct pre as [|c' pre].
      * left. rewrite last_char_app in Hm. eauto.
      * right. rewrite str_app_cons in Hs. injection Hs as -> ->. eauto.
Qed.

Lemma form_matches_spec (form text_lower : string) :
  form_matches form text_lower = true ↔
  if (String.length form <=? 3)%nat then occurs_as_word form text_lower
  else occurs form text_lower.
Proof.
  unfold form_matches. destruct (String.length form <=? 3)%nat.
  - apply search_word_spec.
  - apply contains_spec.
Qed.

(** ** Extracted entities *)

Lemma known_forms_nonempty (form e : string) :
  (form, e) ∈ KNOWN_ENTITIES → form ≠ "".
Proof.
  assert (forallb (λ kv, negb (String.eqb kv.1 "")) KNOWN_ENTITIES = true) as Hall
    by (vm_compute; reflexivity).
  rewrite forallb_forall in Hall. intros Hin%list_elem_of_In%Hall.
  simpl in Hin. intros ->. done.
Qed.

Lemma known_labels_ok (form e : string) :
  (form, e) ∈ KNOWN_ENTITIES → label_ok e = true.
Proof.
  assert (forallb (λ kv, label_ok kv.2) KNOWN_ENTITIES = true) as Hall
    by (vm_compute; reflexivity).
  rewrite forallb_forall in Hall. by intros Hin%list_elem_of_In%Hall.
Qed.

Lemma occurs_empty (form : string) : occurs form "" → form = "".
Proof.
  intros (pre & suf & Hs). destruct pre; [|discriminate].
  rewrite str_app_nil in Hs. destruct form; [done|discriminate].
Qed.

Lemma occurs_as_word_occurs (form text : string) :
  occurs_as_word form text → occurs form text.
Proof. intros (pre & suf & ? & _). by exists pre, suf. Qed.

Lemma lower_empty (text : string) : lower text = "" → text = "".
Proof. by destruct text. Qed.

Lemma elem_of_extract_entities (text e : string) :
  e ∈ extract_entities text ↔
  (∃ form, (form, e) ∈ KNOWN_ENTITIES ∧
     if (String.length form <=? 3)%nat then occurs_as_word form (lower text)
     else occurs form (lower text)) ∨
  (e ∈ find_proper_nouns text ∧ is_entity_noun e = true).
Proof.
  unfold extract_entities. destruct (String.eqb_spec text "") as [->|Hne].
  - split; [set_solver|]. intros [(form & Hin & Hocc)|[Hn _]].
    + apply known_forms_nonempty in Hin. simpl in Hocc.
      destruct (String.length form <=? 3)%nat;
        [apply occurs_as_word_occurs in Hocc|]; by apply occurs_empty in Hocc.
    + by apply elem_of_nil in Hn.
  - rewrite elem_of_union, !elem_of_list_to_set. unfold known_matches, noun_matches.
    rewrite list_elem_of_fmap, list_elem_of_filter. f_equiv; [|tauto].
    split.
    + intros ([form e'] & -> & [Hm Hin]%list_elem_of_filter). simpl in *.
      exists form. split; [done|]. by apply form_matches_spec.
    + intros (form & Hin & Hocc). exists (form, e). split; [done|].
      apply list_elem_of_filter. split; [|done]. simpl. by apply form_matches_spec.
Qed.

Lemma take_str_cons (n : nat) (c : ascii) (s : string) :
  take_str (S n) (String c s) = String c (take_str n s).
Proof. done. Qed.

Lemma scan_nouns_upper (prev : option ascii) (skip : nat) (s e : string) :
  e ∈ scan_nouns prev skip s → ∃ c rest, e = String c rest ∧ is_upper c = true.
Proof.
  revert prev skip. induction s as [|c s IH]; intros prev skip; simpl.
  - by intros ?%elem_of_nil.
  - destruct skip as [|k]; [|apply IH].
    destruct (is_word_opt prev); [apply IH|].
    destruct (is_upper c) eqn:Hc; [|apply IH].
    destruct (noun_len AfterUpper s) as [n|]; simpl; [|apply IH].
    intros [->|Hin]%elem_of_cons; [eauto|by eapply IH].
Qed.

Lemma upper_label_ok (c : ascii) (rest : string) :
  is_upper c = true → label_ok (String c rest) = true.
Proof.
  unfold is_upper, label_ok, code. intros [_ Hc%N.leb_le]%andb_true_iff.
  simpl. unfold String.ltb. simpl. unfold Ascii.compare.
  replace (N_of_ascii c ?= N_of_ascii "z")%N with Lt; [done|].
  symmetry. apply N.compare_lt_iff. change (N_of_ascii "z") with 122%N. lia.
Qed.

(** every extracted entity is a non-empty label below ["zzz"] *)
Lemma extract_entities_label_ok (text e : string) :
  e ∈ extract_entities text → label_ok e = true.
Proof.
  intros [(form & Hin & _)|[Hn _]]%elem_of_extract_entities.
  - by eapply known_labels_ok.
  - apply scan_nouns_upper in Hn as (c & rest & -> & Hc). by apply upper_label_ok.
Qed.

Lemma normalize_item_normalized (r : record) (kind : string) (it : item) :
  normalize_item r kind = Some it → normalized it.
Proof.
  unfold normalize_item, normalized.
  repeat case_match; intros [= <-]; reflexivity.
Qed.

(** C3 (as amended): a surface form of the entity dictionary yields its
    entity exactly when it occurs in the lower-cased text, between word
    boundaries if it has at most three characters and anywhere otherwise
    (the other entities are the proper nouns found in the text).  The
    dictionary has no form ["ai"]: both ["aircraft"] and ["I love AI"]
    give no entity.  For the short form ["aws"]: ["laws"] gives no entity
    and ["I love AWS"] gives ["AWS"]. *)
Theorem extract_entities_surface_forms :
  (∀ text e : string,
     e ∈ extract_entities text ↔
     (∃ form, (form, e) ∈ KNOWN_ENTITIES ∧
        if (String.length form <=? 3)%nat then occurs_as_word form (lower text)
        else occurs form (lower text)) ∨
     (e ∈ find_proper_nouns text ∧ is_entity_noun e = true)) ∧
  (∀ e : string, ("ai", e) ∉ KNOWN_ENTITIES) ∧
  extract_entities "aircraft" = ∅ ∧
  extract_entities "I love AI" = ∅ ∧
  extract_entities "laws" = ∅ ∧
  extract_entities "I love AWS" = {["AWS"]}.
Proof.
  split; [exact elem_of_extract_entities|]. split.
  - assert (forallb (λ kv, negb (String.eqb kv.1 "ai")) KNOWN_ENTITIES = true) as Hall
      by (vm_compute; reflexivity).
    rewrite forallb_forall in Hall. intros e Hin%list_elem_of_In%Hall.
    simpl in Hin. done.
  - repeat split; vm_compute; reflexivity.
Qed.

(** C3, counterexample: no entity at all is extracted from ["I love AI"]. *)
Lemma extract_I_love_AI_no_entity : ¬ ∃ e : string, e ∈ extract_entities "I love AI".
Proof.
  intros [e He].
  replace (extract_entities "I love AI") with (∅ : gset string) in He
    by (vm_compute; reflexivity).
  set_solver.
Qed.

(** the keyword filter, whose list has ["ai"], is where ["aircraft"] and
    ["I love AI"] part *)
Example contains_ai_keyword_ai :
  contains_ai_keyword "aircraft" = false ∧ contains_ai_keyword "I love AI" = true.
Proof. split; vm_compute; reflexivity. Qed.

(** ** Clustering: the order of the output *)

Lemma label_ok_spec (e : string) :
  label_ok e = true → e ≠ "" ∧ String.ltb e "zzz" = true.
Proof.
  unfold label_ok. intros [Hne Hlt]%andb_true_iff. split; [|done].
  intros ->. done.
Qed.

Lemma not_le_zzz (e : string) : String.ltb e "zzz" = true → ¬ String.le "zzz" e.
Proof.
  unfold String.le, String.ltb, String.leb.
  rewrite (String.compare_antisym e "zzz").
  destruct (String.compare "zzz" e); simpl; intros Hlt; [done|done|tauto].
Qed.

Section cluster_order.
Context `{SetOrder}.

(** a topic is an entity of an input item *)
Lemma cluster_topic_entity items min out c t :
  cluster_by_topic items min = Ok out → c ∈ out → cluster_topic c = Some t →
  ∃ it, it ∈ items ∧ t ∈ item_entities it.
Proof.
  intros Hout Hc Ht.
  pose proof (cluster_by_topic_items_perm _ _ _ Hout) as Hperm.
  destruct (cluster_by_topic_spec _ _ _ Hout) as (parts & _ & _ & Hall & _).
  rewrite Forall_forall in Hall.
  destruct (Hall c Hc) as [(t' & Ht' & Hin & _ & Hne & Hshared)|[Hnone _]];
    [|congruence].
  assert (t' = t) as -> by congruence.
  destruct (cluster_items c) as [|it its] eqn:Hits; [done|].
  exists it. split.
  - rewrite <- Hperm. apply list_elem_of_In, in_concat.
    exists (cluster_items c). split; apply list_elem_of_In.
    + by apply list_elem_of_fmap_2.
    + rewrite Hits. set_solver.
  - apply Hshared; [done|set_solver].
Qed.

Lemma cluster_topic_label_ok items min out c t :
  Forall normalized items →
  cluster_by_topic items min = Ok out → c ∈ out → cluster_topic c = Some t →
  label_ok t = true.
Proof.
  intros Hnorm Hout Hc Ht.
  destruct (cluster_topic_entity _ _ _ _ _ Hout Hc Ht) as (it & Hit & Hin).
  rewrite Forall_forall in Hnorm. rewrite (Hnorm it Hit) in Hin.
  by eapply extract_entities_label_ok.
Qed.

(** C2: in the output of [cluster_by_topic] a cluster never comes
    before one with more items, so clusters of several items come first
    in descending item count and every cluster of one item comes after
    them (three items before two, two before one).  Among clusters of
    equal item count, for normalised items, topic labels ascend and a
    cluster without topic comes after those with one. *)
Theorem cluster_by_topic_order (items : list item) (min_cluster_size : Z)
    (out : list cluster) (i j : nat) (ci cj : cluster) :
  cluster_by_topic items min_cluster_size = Ok out →
  (i < j)%nat → out !! i = Some ci → out !! j = Some cj →
  (length (cluster_items cj) ≤ length (cluster_items ci))%nat ∧
  (Forall normalized items →
   length (cluster_items ci) = length (cluster_items cj) →
   topic_order (cluster_topic ci) (cluster_topic cj)).
Proof.
  intros Hout Hij Hi Hj.
  destruct (cluster_by_topic_spec _ _ _ Hout) as (parts & _ & _ & _ & Hsorted).
  pose proof (strongly_sorted_lookup _ _ _ _ _ _ Hsorted Hij Hi Hj) as Hle.
  unfold cluster_le, key_le, cluster_key in Hle. simpl in Hle.
  split; [lia|].
  intros Hnorm Hlen. destruct Hle as [Hlt|[_ Hle]]; [lia|].
  assert (∀ c t, c ∈ out → cluster_topic c = Some t →
            (if String.eqb t "" then "zzz" else t) = t ∧
            String.ltb t "zzz" = true) as Hlabel.
  { intros c t Hc Ht.
    destruct (label_ok_spec t (cluster_topic_label_ok _ _ _ _ _ Hnorm Hout Hc Ht))
      as [Hne Hlt].
    split; [|done]. by destruct (String.eqb_spec t ""). }
  apply list_elem_of_lookup_2 in Hi, Hj. unfold topic_order. revert Hle.
  destruct (cluster_topic ci) as [a|] eqn:Ha, (cluster_topic cj) as [b|] eqn:Hb;
    [| done | | done].
  - destruct (Hlabel ci a Hi Ha) as [-> _], (Hlabel cj b Hj Hb) as [-> _]. done.
  - destruct (Hlabel cj b Hj Hb) as [-> Hlt]. by apply not_le_zzz in Hlt.
Qed.
End cluster_order.

Lemma cluster_by_topic_order_witness :
  let c := {| cluster_topic := Some "OpenAI"; cluster_entities := {["OpenAI"]};
              cluster_items := [news_openai; news_both] |} in
  let s := {| cluster_topic := None; cluster_entities := {["Anthropic"]};
              cluster_items := [news_anthropic] |} in
  @cluster_by_topic elements_order [news_openai; news_both; news_anthropic] 2 = Ok [c; s] ∧
  (0 < 1)%nat ∧ [c; s] !! 0%nat = Some c ∧ [c; s] !! 1%nat = Some s ∧
  (length (cluster_items s) ≤ length (cluster_items c))%nat ∧
  (Forall normalized [news_openai; news_both; news_anthropic] →
   length (cluster_items c) = length (cluster_items s) →
   topic_order (cluster_topic c) (cluster_topic s)).
Proof.
  intros c s.
  assert (@cluster_by_topic elements_order [news_openai; news_both; news_anthropic] 2
          = Ok [c; s]) as Hout by (vm_compute; reflexivity).
  split; [exact Hout|]. split; [lia|]. split; [reflexivity|]. split; [reflexivity|].
  exact (@cluster_by_topic_order elements_order _ 2 [c; s] 0 1 c s Hout
           ltac:(lia) eq_refl eq_refl).
Defined.

(** the sample items are normalised *)
Example news_normalized :
  Forall normalized [news_openai; news_both; news_anthropic].
Proof. repeat constructor; vm_compute; reflexivity. Qed.

(** ** Thread detection: runs *)

Lemma joins_true (thr : Z) (x y : post * option datetime) :
  joins thr y.2 x.2 = Ok true → near thr x y.
Proof.
  unfold joins, near, within_threshold, datetime_sub.
  destruct y.2 as [d|], x.2 as [pd|]; try discriminate.
  destruct d, pd; simpl; try discriminate;
    intros [= Hle%Z.leb_le]; eexists _, _; eauto.
Qed.

Lemma joins_false (thr : Z) (x y : post * option datetime) :
  joins thr y.2 x.2 = Ok false → ¬ near thr x y.
Proof.
  unfold joins, near, within_threshold, datetime_sub.
  intros Hj (d & pd & Hy & Hx & Hle). rewrite Hy, Hx in Hj.
  destruct d, pd; simpl in *; try discriminate;
    injection Hj as Hj%Z.leb_gt; lia.
Qed.

(** a post without a time stamp neither joins a run nor is joined *)
Lemma joins_unparseable (thr : Z) (dt : option datetime) :
  joins thr None dt = Ok false ∧ joins thr dt None = Ok false.
Proof. by destruct dt. Qed.

Lemma close_run_Ok (username : string) (run : list (post * option datetime))
    (r : option datetime * record) :
  close_run username run = Ok r →
  ∃ x rest, run = x :: rest ∧ r.1 = x.2 ∧ record_posts r.2 = fst <$> run ∧
    r.2 = match rest with
          | [] => RPost x.1
          | _ => RThread {| thread_posts := Some (fst <$> run);
                            thread_username := Some username |}
          end.
Proof.
  unfold close_run. destruct run as [|x [|y rest]]; simpl; [done|..];
    intros [= <-]; eexists _, _; eauto.
Qed.

Lemma close_run_total (username : string) (run : list (post * option datetime)) :
  run ≠ [] → ∃ r, close_run username run = Ok r.
Proof.
  unfold close_run. destruct run as [|x [|y rest]]; simpl; [done|eauto..].
Qed.

Lemma chained_single (thr : Z) (x : post * option datetime) : chained thr [x].
Proof.
  intros l1 a b l2 Heq. apply (f_equal length) in Heq.
  rewrite length_app in Heq. simpl in Heq. lia.
Qed.

Lemma chained_snoc (thr : Z) run x y :
  chained thr run → last run = Some x → near thr x y → chained thr (run ++ [y]).
Proof.
  intros Hch Hlast Hnear l1 a b l2 Heq.
  destruct l2 as [|z l2 _] using rev_ind.
  - change (l1 ++ [a; b]) with (l1 ++ [a] ++ [b]) in Heq.
    rewrite app_assoc in Heq. apply app_inj_tail in Heq as [-> ->].
    rewrite last_snoc in Hlast. by injection Hlast as ->.
  - change (l1 ++ a :: b :: l2 ++ [z]) with (l1 ++ (a :: b :: l2) ++ [z]) in Heq.
    rewrite app_assoc in Heq. apply app_inj_tail in Heq as [-> _].
    by eapply Hch.
Qed.

Lemma borders_single (thr : Z) (r : list (post * option datetime)) :
  borders thr [r].
Proof.
  intros rs1 a b rs2 Heq. apply (f_equal length) in Heq.
  rewrite length_app in Heq. simpl in Heq. lia.
Qed.

Lemma borders_extend (thr : Z) runs r y :
  r ≠ [] → borders thr (runs ++ [r]) → borders thr (runs ++ [r ++ [y]]).
Proof.
  intros Hne Hb rs1 a b rs2 Heq.
  destruct rs2 as [|z rs2 _] using rev_ind.
  - change (rs1 ++ [a; b]) with (rs1 ++ [a] ++ [b]) in Heq.
    rewrite app_assoc in Heq. apply app_inj_tail in Heq as [-> <-].
    destruct (Hb rs1 a r []) as (x & y' & Hx & Hy & Hn); [by rewrite <- app_assoc|].
    exists x, y'. split; [done|]. split; [|done].
    destruct r; [done|]. done.
  - change (rs1 ++ a :: b :: rs2 ++ [z]) with (rs1 ++ (a :: b :: rs2) ++ [z]) in Heq.
    rewrite app_assoc in Heq. apply app_inj_tail in Heq as [-> _].
    apply (Hb rs1 a b (rs2 ++ [r])). by rewrite <- app_assoc.
Qed.

Lemma borders_snoc (thr : Z) runs r x y :
  borders thr (runs ++ [r]) → last r = Some x → ¬ near thr x y →
  borders thr ((runs ++ [r]) ++ [[y]]).
Proof.
  intros Hb Hlast Hn rs1 a b rs2 Heq.
  destruct rs2 as [|z rs2 _] using rev_ind.
  - change (rs1 ++ [a; b]) with (rs1 ++ [a] ++ [b]) in Heq.
    rewrite app_assoc in Heq. apply app_inj_tail in Heq as [Heq <-].
    apply app_inj_tail in Heq as [_ <-]. exists x, y. done.
  - change (rs1 ++ a :: b :: rs2 ++ [z]) with (rs1 ++ (a :: b :: rs2) ++ [z]) in Heq.
    rewrite app_assoc in Heq. apply app_inj_tail in Heq as [Heq _].
    by eapply Hb.
Qed.

Lemma thread_step_inv username thr res0 seen st x st' :
  walk_inv username thr res0 seen st →
  thread_step username thr st x = Ok st' →
  walk_inv username thr res0 (seen ++ [x]) st'.
Proof.
  destruct st as [cur res].
  intros (runs & new & Hres & Hclosed & Hseen & Hruns & Hb) Hstep. simpl in *.
  apply Forall_app in Hruns as [Hruns [Hcur _]%Forall_cons].
  destruct Hcur as [Hne Hch].
  unfold thread_step in Hstep. inv_bind Hstep. rename a into prev, Ha into Hprev.
  apply list_get_Ok in Hprev. rewrite <- last_lookup in Hprev.
  inv_bind Hstep. rename a into j, Ha into Hj. destruct j.
  - injection Hstep as <-. apply joins_true in Hj.
    exists runs, new. simpl. split; [done|]. split; [done|].
    split; [by rewrite app_assoc, Hseen|]. split.
    + apply Forall_app. split; [done|]. constructor; [|done].
      split; [by destruct cur|]. by eapply chained_snoc.
    + by apply borders_extend.
  - inv_bind Hstep. rename a into r, Ha into Hr. injection Hstep as <-.
    apply joins_false in Hj.
    exists (runs ++ [cur]), (new ++ [r]). simpl.
    split; [by rewrite Hres, app_assoc|]. split.
    { apply Forall2_app; [done|]. by constructor. }
    split; [by rewrite concat_app; simpl; rewrite app_nil_r, Hseen|]. split.
    + apply Forall_app. split.
      * apply Forall_app. split; [done|]. by constructor.
      * constructor; [|done]. split; [done|apply chained_single].
    + by eapply borders_snoc.
Qed.

Lemma author_step_many thr res0 username x y rest :
  author_step thr res0 (username, x :: y :: rest) =
  let* st := foldR (thread_step username thr) ([x], res0) (y :: rest) in
  let* r := close_run username st.1 in
  Ok (st.2 ++ [r]).
Proof. by destruct x. Qed.

(** The walk over the posts of one author: the items it adds are the runs
    of the author's posts, in order; within a run every post is near the
    one before, and a run ends where the next post is not near. *)
Lemma author_step_runs thr res0 username author_posts res :
  author_step thr res0 (username, author_posts) = Ok res →
  ∃ runs new,
    res = res0 ++ new ∧
    Forall2 (λ run r, close_run username run = Ok r) runs new ∧
    concat runs = author_posts ∧
    Forall (λ run, run ≠ [] ∧ chained thr run) runs ∧
    borders thr runs.
Proof.
  destruct author_posts as [|[p dt] [|y rest]].
  - done.
  - unfold author_step. intros [= <-]. exists [[(p, dt)]], [(dt, RPost p)].
    split; [done|]. split; [by repeat constructor|]. split; [done|].
    split; [|apply borders_single].
    constructor; [|done]. split; [done|apply chained_single].
  - rewrite author_step_many.
    intros Hres. inv_bind Hres. rename a into st, Ha into Hfold.
    inv_bind Hres. rename a into r, Ha into Hr. injection Hres as <-.
    assert (walk_inv username thr res0 ((p, dt) :: (y :: rest)) st) as Hinv.
    { revert Hfold.
      apply (foldR_inv _ (λ pre st, walk_inv username thr res0 ((p, dt) :: pre) st)).
      - exists [], []. simpl. split; [by rewrite app_nil_r|].
        split; [constructor|]. split; [done|]. split; [|apply borders_single].
        constructor; [|done]. split; [done|apply chained_single].
      - intros pre x post s s' _ Hinv Hstep.
        apply (thread_step_inv _ _ _ ((p, dt) :: pre) _ _ _ Hinv Hstep). }
    destruct Hinv as (runs & new & Hres & Hclosed & Hseen & Hruns & Hb).
    exists (runs ++ [st.1]), (new ++ [r]).
    split; [by rewrite Hres, app_assoc|]. split.
    { apply Forall2_app; [done|]. by constructor. }
    split; [by rewrite concat_app; simpl; rewrite app_nil_r|]. done.
Qed.

(** ** Thread detection: grouping, walking, ordering *)

Lemma datetime_lt_true (a b : datetime) :
  datetime_lt a b = Ok true → micros a < micros b.
Proof. destruct a, b; simpl; try discriminate; intros [= ?%Z.ltb_lt]; done. Qed.

Lemma datetime_lt_false (a b : datetime) :
  datetime_lt a b = Ok false → micros b ≤ micros a.
Proof. destruct a, b; simpl; try discriminate; intros [= ?%Z.ltb_ge]; done. Qed.

Lemma datetime_lt_same_kind (a b : datetime) (r : bool) :
  datetime_lt a b = Ok r → same_kind a b.
Proof. by destruct a, b. Qed.

#[local] Instance key_before_trans : Transitive key_before.
Proof. intros a b c. unfold key_before. lia. Qed.

#[local] Instance key_before_snd_trans {A : Type} :
  Transitive (λ x y : A * option datetime, key_before x.2 y.2).
Proof. intros a b c. unfold key_before. lia. Qed.

#[local] Instance key_after_fst_trans {A : Type} :
  Transitive (λ a b : option datetime * A, key_before b.1 a.1).
Proof. intros a b c. unfold key_before. lia. Qed.

Lemma author_append_concat {A : Type} (username : string) (x : A)
    (d : list (string * list A)) :
  concat (snd <$> author_append username x d) ≡ₚ x :: concat (snd <$> d).
Proof.
  induction d as [|[u l] d IH]; csimpl; [done|].
  destruct (String.eqb username u); csimpl.
  - rewrite <- app_assoc. simpl. symmetry. apply Permutation_middle.
  - rewrite IH. symmetry. apply Permutation_middle.
Qed.

Lemma author_append_keys {A : Type} (username : string) (x : A)
    (d : list (string * list A)) :
  fst <$> author_append username x d =
  if decide (username ∈ fst <$> d) then fst <$> d else (fst <$> d) ++ [username].
Proof.
  induction d as [|[u l] d IH].
  - rewrite decide_False; [done|apply not_elem_of_nil].
  - simpl author_append. rewrite !fmap_cons. simpl fst.
    destruct (String.eqb_spec username u) as [->|Hne].
    + rewrite decide_True; [done|set_solver].
    + rewrite fmap_cons, IH. simpl fst. destruct (decide (username ∈ fst <$> d)).
      * rewrite decide_True; [done|set_solver].
      * rewrite decide_False; [done|set_solver].
Qed.

Lemma author_append_elem {A : Type} (username : string) (x : A)
    (d : list (string * list A)) (u : string) (l : list A) :
  (u, l) ∈ author_append username x d →
  (u, l) ∈ d ∨ (u = username ∧ (l = [x] ∨ ∃ l0, (u, l0) ∈ d ∧ l = l0 ++ [x])).
Proof.
  induction d as [|[u0 l0] d IH]; simpl.
  - intros [= -> ->]%list_elem_of_singleton. right. eauto.
  - destruct (String.eqb_spec username u0) as [->|Hne].
    + intros [Heq|Hin]%elem_of_cons.
      * injection Heq as -> ->. right. split; [done|]. right. exists l0. set_solver.
      * left. set_solver.
    + intros [Heq|Hin]%elem_of_cons.
      * left. set_solver.
      * destruct (IH Hin) as [?|(-> & [->|(l1 & ? & ->)])]; [left; set_solver|right..].
        -- eauto.
        -- split; [done|]. right. exists l1. set_solver.
Qed.

Lemma concat_fmap_concat {A B : Type} (f : A → list B) (ls : list (list A)) :
  concat (f <$> concat ls) = concat ((λ l, concat (f <$> l)) <$> ls).
Proof.
  induction ls as [|l ls IH]; csimpl; [done|].
  by rewrite fmap_app, concat_app, IH.
Qed.

Section thread_facts.
Context `{IsoParser}.

Lemma group_by_author_spec (posts : list post) :
  concat (snd <$> group_by_author posts) ≡ₚ tagged_post <$> posts ∧
  NoDup (fst <$> group_by_author posts) ∧
  Forall (λ ua, Forall (λ x, default "" (post_username x.1) = ua.1) ua.2)
         (group_by_author posts).
Proof.
  unfold group_by_author.
  apply (foldl_inv _ (λ pre d,
    concat (snd <$> d) ≡ₚ tagged_post <$> pre ∧
    NoDup (fst <$> d) ∧
    Forall (λ ua : string * list (post * option datetime),
              Forall (λ x, default "" (post_username x.1) = ua.1) ua.2) d)).
  - split; [done|]. split; constructor.
  - intros pre p post d _ (Hperm & Hnd & Hall). split; [|split].
    + rewrite author_append_concat, Hperm, fmap_app. simpl.
      apply Permutation_cons_append.
    + rewrite author_append_keys. case_decide; [done|].
      apply NoDup_app. split; [done|]. split; [|apply NoDup_singleton].
      intros u Hu ->%list_elem_of_singleton. done.
    + rewrite Forall_forall in Hall. apply Forall_forall. intros [u l] Hin.
      apply author_append_elem in Hin as [Hin|(-> & [->|(l0 & Hin & ->)])]; simpl.
      * by apply (Hall (u, l)).
      * by repeat constructor.
      * apply Forall_app. split; [by apply (Hall (_, l0))|]. by repeat constructor.
Qed.

Lemma detect_threads_unfold (posts : list post) (thr : Z) :
  detect_threads posts thr =
  let* by_author :=
    mapR (λ ua : string * list (post * option datetime),
            let* l := sort_asc post_lt ua.2 in Ok (ua.1, l))
         (group_by_author posts) in
  let* result_items := foldR (author_step thr) [] by_author in
  let* sorted := sort_desc tag_lt result_items in
  Ok (snd <$> sorted).
Proof. by destruct posts. Qed.

Lemma sort_authors_spec (groups by_author : list (string * list (post * option datetime))) :
  mapR (λ ua : string * list (post * option datetime),
          let* l := sort_asc post_lt ua.2 in Ok (ua.1, l)) groups = Ok by_author →
  Forall2 (λ ua ua', ua'.1 = ua.1 ∧ ua'.2 ≡ₚ ua.2 ∧
                     StronglySorted (λ x y, key_before x.2 y.2) ua'.2)
          groups by_author.
Proof.
  intros Hm%mapR_Ok. eapply Forall2_impl; [exact Hm|].
  intros [u l] ua' Hs. simpl in Hs. inv_bind Hs. injection Hs as <-. simpl.
  split; [done|]. split; [by eapply sort_asc_perm|].
  eapply (sort_asc_sorted _ (λ x y, key_before x.2 y.2)); [| |exact Ha].
  - intros x y _ _ Hlt%datetime_lt_true. unfold key_before. lia.
  - intros x y _ _ Hlt%datetime_lt_false. done.
Qed.

Lemma sort_authors_grouped posts by_author :
  mapR (λ ua : string * list (post * option datetime),
          let* l := sort_asc post_lt ua.2 in Ok (ua.1, l))
       (group_by_author posts) = Ok by_author →
  grouped posts by_author.
Proof.
  intros HF%sort_authors_spec. unfold grouped.
  destruct (group_by_author_spec posts) as (Hperm & Hnd & Hall).
  revert HF Hperm Hnd Hall. generalize (group_by_author posts) (tagged_post <$> posts).
  intros groups tagged HF. revert tagged.
  induction HF as [|[u l] [u' l'] groups by_author (Hu & Hl & Hs) HF IH];
    intros tagged Hperm Hnd Hall; csimpl in *.
  - split; [done|]. split; constructor.
  - subst u'. apply NoDup_cons in Hnd as [Hu Hnd]. apply Forall_cons in Hall as [Hl0 Hall].
    destruct (IH (concat (snd <$> groups))) as (Hperm' & Hnd' & Hall');
      [done|done|done|].
    assert (fst <$> by_author = fst <$> groups) as Hkeys.
    { clear -HF. induction HF as [|?? ?? (Heq & _) ? IH]; csimpl; [done|].
      by rewrite IH, Heq. }
    split; [by rewrite Hl, Hperm', Hperm|]. split.
    + constructor; [by rewrite Hkeys|done].
    + constructor; [|done]. split; [|done]. simpl in *. by rewrite Hl.
Qed.

Lemma authors_walk_spec thr by_author results :
  foldR (author_step thr) [] by_author = Ok results →
  ∃ news, results = concat news ∧ Forall2 (author_items thr) by_author news.
Proof.
  apply (foldR_inv _ (λ pre res,
    ∃ news, res = concat news ∧ Forall2 (author_items thr) pre news)).
  - exists []. split; [done|constructor].
  - intros pre [u aps] post res res' _ (news & -> & HF) Hstep.
    apply author_step_runs in Hstep as (runs & new & -> & Hclosed & Hcat & Hruns & Hb).
    exists (news ++ [new]). split.
    + rewrite concat_app. simpl. by rewrite app_nil_r.
    + apply Forall2_app; [done|]. constructor; [|constructor]. by exists runs.
Qed.

Lemma closed_runs_flat username runs new :
  Forall2 (λ run r, close_run username run = Ok r) runs new →
  flat_posts new = fst <$> concat runs.
Proof.
  unfold flat_posts. induction 1 as [|run r runs new Hr _ IH]; csimpl; [done|].
  apply close_run_Ok in Hr as (x & rest & _ & _ & -> & _).
  by rewrite fmap_app, IH.
Qed.

Lemma author_items_flat thr by_author news :
  Forall2 (author_items thr) by_author news →
  flat_posts (concat news) = fst <$> concat (snd <$> by_author).
Proof.
  unfold flat_posts. rewrite concat_fmap_concat.
  induction 1 as [|ua new by_author news (runs & Hclosed & Hcat & _) _ IH];
    csimpl; [done|].
  rewrite fmap_app, IH. f_equal.
  rewrite <- Hcat. by eapply closed_runs_flat.
Qed.

(** What every returned detection satisfies. *)
Lemma detect_threads_spec posts thr out :
  detect_threads posts thr = Ok out →
  ∃ by_author news sorted,
    grouped posts by_author ∧
    Forall2 (author_items thr) by_author news ∧
    sorted ≡ₚ concat news ∧
    StronglySorted (λ a b, key_before b.1 a.1) sorted ∧
    out = snd <$> sorted.
Proof.
  rewrite detect_threads_unfold. intros Hd.
  inv_bind Hd. rename a into by_author, Ha into Hsort.
  inv_bind Hd. rename a into results, Ha into Hwalk.
  inv_bind Hd. rename a into sorted, Ha into Hfinal. injection Hd as <-.
  apply sort_authors_grouped in Hsort.
  apply authors_walk_spec in Hwalk as (news & -> & Hnews).
  exists by_author, news, sorted. split; [done|]. split; [done|].
  split; [by eapply sort_desc_perm|]. split; [|done].
  eapply (sort_desc_sorted _ (λ a b, key_before b.1 a.1)); [| |exact Hfinal].
  - intros x y _ _ Hlt%datetime_lt_true. unfold key_before. lia.
  - intros x y _ _ Hlt%datetime_lt_false. done.
Qed.

(** the posts of the emitted items are the input posts in some order *)
Lemma detect_threads_posts_perm posts thr out :
  detect_threads posts thr = Ok out →
  concat (record_posts <$> out) ≡ₚ posts.
Proof.
  intros (by_author & news & sorted & (Hperm & _) & Hnews & Hsorted & _ & ->)%detect_threads_spec.
  rewrite <- list_fmap_compose.
  change (concat ((record_posts ∘ snd) <$> sorted)) with (flat_posts sorted).
  unfold flat_posts. rewrite Hsorted.
  fold (flat_posts (concat news)). rewrite (author_items_flat _ _ _ Hnews).
  rewrite Hperm, <- list_fmap_compose. by rewrite list_fmap_id.
Qed.
End thread_facts.

Lemma elem_of_concat_split {A : Type} (l : list A) (ls : list (list A)) :
  l ∈ ls → ∃ l1 l2, concat ls = l1 ++ l ++ l2.
Proof.
  intros (ls1 & ls2 & ->)%list_elem_of_split.
  exists (concat ls1), (concat ls2). by rewrite concat_app.
Qed.

Section thread_order.
Context `{IsoParser}.



End thread_order.

Section thread_pair.
Context `{IsoParser}.

End thread_pair.

(** ** Thread detection on small inputs *)

(** the example of the specification: posts at 0, 5 and 9 minutes merge,
    the post at 25 minutes stands alone *)
Example detect_threads_alice :
  let p0 := post_at "alice" "2024-01-15T10:00:00Z" "one" in
  let p5 := post_at "alice" "2024-01-15T10:05:00Z" "two" in
  let p9 := post_at "alice" "2024-01-15T10:09:00Z" "three" in
  let p25 := post_at "alice" "2024-01-15T10:25:00Z" "four" in
  @detect_threads basic_parser [p0; p5; p9; p25] 10 =
    Ok [RPost p25; thread_of "alice" [p0; p5; p9]].
Proof. vm_compute. reflexivity. Qed.




(** C7: a post with a date-only time stamp, which parses to a datetime
    without time zone, and a post of the same author without time stamp,
    whose sort key is the minimal instant in UTC: ordering the two keys
    raises [TypeError]. *)
Theorem detect_threads_raises_on_missing_timestamp :
  @detect_threads basic_parser
    [post_at "alice" "2024-01-15" "dated"; post_undated "alice" "undated"] 10
  = Raise TypeError.
Proof. vm_compute. reflexivity. Qed.

(** C9: a post with a date-only time stamp and a post of another author
    with a time stamp in UTC: the final sort of the two items raises
    [TypeError], so no post comes out. *)
Theorem detect_threads_raises_on_mixed_timestamps :
  @detect_threads basic_parser
    [post_at "alice" "2024-01-15" "date only";
     post_at "bob" "2024-01-15T10:30:00Z" "with zone"] 10
  = Raise TypeError.
Proof. vm_compute. reflexivity. Qed.

(** ** Thread detection: when it returns *)

Lemma same_kind_lt (a b : datetime) : same_kind a b → ∃ r, datetime_lt a b = Ok r.
Proof. destruct a, b; simpl; intros []; eauto. Qed.

Lemma same_kind_sub (a b : datetime) : same_kind a b → ∃ d, datetime_sub a b = Ok d.
Proof. destruct a, b; simpl; intros []; eauto. Qed.

#[local] Instance same_kind_equiv : Equivalence same_kind.
Proof.
  split.
  - by intros [].
  - by intros [] [].
  - by intros [] [] [].
Qed.

#[local] Instance same_kind_snd_equiv {A : Type} :
  Equivalence (λ x y : A * option datetime, same_kind (sort_key x.2) (sort_key y.2)).
Proof.
  split.
  - intros x. reflexivity.
  - intros x y Hxy. by symmetry.
  - intros x y z Hxy Hyz. by etrans.
Qed.

#[local] Instance same_kind_fst_equiv {A : Type} :
  Equivalence (λ a b : option datetime * A, same_kind (sort_key a.1) (sort_key b.1)).
Proof.
  split.
  - intros x. reflexivity.
  - intros x y Hxy. by symmetry.
  - intros x y z Hxy Hyz. by etrans.
Qed.

(** a sort that returns has compared every element, directly or through
    others: its elements are pairwise of one kind *)
Section sort_kind.
Context {A : Type} (lt : A → A → result bool) (K : relation A) `{!Equivalence K}.
Context (Hlt : ∀ x y b, lt x y = Ok b → K x y).

Lemma sort_asc_kind l r :
  sort_asc lt l = Ok r → ∀ x y, x ∈ l → y ∈ l → K x y.
Proof.
  revert r. induction l as [|a l IH]; intros r Hs x y Hx Hy.
  { by apply elem_of_nil in Hx. }
  simpl in Hs. inv_bind Hs. rename a0 into s, Ha0 into Hsort.
  assert (∀ z, z ∈ l → K a z) as Hhead.
  { intros z Hz. pose proof (sort_asc_perm _ _ _ Hsort) as Hp.
    destruct s as [|w s]; [rewrite <- Hp in Hz; by apply elem_of_nil in Hz|].
    simpl in Hs. destruct (lt w a) as [b|] eqn:Hw; [|done].
    apply Hlt in Hw. etrans; [symmetry; exact Hw|].
    apply (IH _ Hsort); [rewrite <- Hp; set_solver|done]. }
  apply elem_of_cons in Hx as [->|Hx], Hy as [->|Hy].
  - reflexivity.
  - by apply Hhead.
  - symmetry. by apply Hhead.
  - by apply (IH _ Hsort).
Qed.

Lemma sort_desc_kind l r :
  sort_desc lt l = Ok r → ∀ x y, x ∈ l → y ∈ l → K x y.
Proof.
  revert r. induction l as [|a l IH]; intros r Hs x y Hx Hy.
  { by apply elem_of_nil in Hx. }
  simpl in Hs. inv_bind Hs. rename a0 into s, Ha0 into Hsort.
  assert (∀ z, z ∈ l → K a z) as Hhead.
  { intros z Hz. pose proof (sort_desc_perm _ _ _ Hsort) as Hp.
    destruct s as [|w s]; [rewrite <- Hp in Hz; by apply elem_of_nil in Hz|].
    simpl in Hs. destruct (lt a w) as [b|] eqn:Hw; [|done].
    apply Hlt in Hw. etrans; [exact Hw|].
    apply (IH _ Hsort); [rewrite <- Hp; set_solver|done]. }
  apply elem_of_cons in Hx as [->|Hx], Hy as [->|Hy].
  - reflexivity.
  - by apply Hhead.
  - symmetry. by apply Hhead.
  - by apply (IH _ Hsort).
Qed.
End sort_kind.

Section thread_total.
Context `{IsoParser}.

Lemma group_by_author_nonempty (posts : list post) :
  Forall (λ ua, ua.2 ≠ []) (group_by_author posts).
Proof.
  unfold group_by_author.
  apply (foldl_inv _ (λ _ d,
    Forall (λ ua : string * list (post * option datetime), ua.2 ≠ []) d)).
  - constructor.
  - intros pre p post d _ Hall. rewrite Forall_forall in Hall.
    apply Forall_forall. intros [u l] Hin.
    apply author_append_elem in Hin as [Hin|(-> & [->|(l0 & Hin & ->)])]; simpl.
    + by apply (Hall (u, l)).
    + done.
    + by destruct l0.
Qed.

Lemma sort_authors_nonempty posts by_author :
  mapR (λ ua : string * list (post * option datetime),
          let* l := sort_asc post_lt ua.2 in Ok (ua.1, l))
       (group_by_author posts) = Ok by_author →
  Forall (λ ua, ua.2 ≠ []) by_author.
Proof.
  intros HF%sort_authors_spec.
  pose proof (group_by_author_nonempty posts) as Hne. revert Hne.
  induction HF as [|ua ua' groups by_author (_ & Hl & _) _ IH];
    intros Hne; [constructor|].
  apply Forall_cons in Hne as [Hua Hne]. constructor; [|by apply IH].
  intros Hnil. rewrite Hnil in Hl.
  by apply Permutation_nil in Hl.
Qed.

Lemma grouped_known posts by_author ua x :
  grouped posts by_author → ua ∈ by_author → x ∈ ua.2 →
  x ∈ tagged_post <$> posts.
Proof.
  intros (Hperm & _) Hua Hx. rewrite <- Hperm.
  apply list_elem_of_In, in_concat. exists ua.2.
  split; apply list_elem_of_In; [by apply list_elem_of_fmap_2|done].
Qed.

Lemma grouped_covers posts by_author p :
  grouped posts by_author → p ∈ posts →
  ∃ ua, ua ∈ by_author ∧ tagged_post p ∈ ua.2.
Proof.
  intros (Hperm & _) Hp.
  assert (tagged_post p ∈ concat (snd <$> by_author)) as Hin
    by (rewrite Hperm; by apply list_elem_of_fmap_2).
  apply list_elem_of_In, in_concat in Hin as (l & Hl & Hin).
  apply list_elem_of_In, list_elem_of_fmap in Hl as (ua & -> & Hua).
  exists ua. split; [done|]. by apply list_elem_of_In.
Qed.

(** the tag of an emitted item is the time stamp of a post of the
    author *)
Lemma author_items_tag thr ua new t r :
  author_items thr ua new → (t, r) ∈ new → ∃ x, x ∈ ua.2 ∧ t = x.2.
Proof.
  intros (runs & Hclosed & Hcat & _) Hin.
  apply list_elem_of_lookup in Hin as [k Hk].
  destruct (Forall2_lookup_r _ _ _ _ _ Hclosed Hk) as (run & Hrun & Hclose).
  apply close_run_Ok in Hclose as (x & rest & -> & Ht & _). simpl in Ht.
  exists x. split; [|done]. rewrite <- Hcat.
  apply list_elem_of_In, in_concat. exists (x :: rest).
  split; apply list_elem_of_In; [by eapply list_elem_of_lookup_2|set_solver].
Qed.

Lemma author_items_nonempty thr ua new :
  author_items thr ua new → ua.2 ≠ [] → new ≠ [].
Proof.
  intros (runs & Hclosed & Hcat & _) Hne ->.
  apply Forall2_nil_inv_r in Hclosed as ->. done.
Qed.

Lemma result_tag_known posts thr by_author news t r :
  grouped posts by_author → Forall2 (author_items thr) by_author news →
  (t, r) ∈ concat news →
  ∃ p, p ∈ posts ∧ t = parse_created_at p.
Proof.
  intros Hgrouped Hnews Hin.
  apply list_elem_of_In, in_concat in Hin as (new & Hnew & Hin).
  apply list_elem_of_In, list_elem_of_lookup in Hnew as [k Hk].
  apply list_elem_of_In in Hin.
  destruct (Forall2_lookup_r _ _ _ _ _ Hnews Hk) as (ua & Hua & Hitems).
  destruct (author_items_tag _ _ _ _ _ Hitems Hin) as (x & Hx & ->).
  apply list_elem_of_lookup_2 in Hua.
  apply (grouped_known _ _ _ _ Hgrouped Hua), list_elem_of_fmap in Hx
    as (p & -> & Hp).
  by exists p.
Qed.

Lemma joins_total thr posts x y :
  uniform posts → x ∈ tagged_post <$> posts → y ∈ tagged_post <$> posts →
  ∃ b, joins thr y.2 x.2 = Ok b.
Proof.
  intros Hu (p & -> & Hp)%list_elem_of_fmap (q & -> & Hq)%list_elem_of_fmap.
  pose proof (Hu q p Hq Hp) as Hk. simpl. unfold joins.
  destruct (parse_created_at q) as [d|], (parse_created_at p) as [pd|]; eauto.
  simpl in Hk. unfold within_threshold.
  destruct (same_kind_sub d pd Hk) as [z ->]. simpl. eauto.
Qed.

Lemma thread_step_total username thr posts st x :
  uniform posts → st.1 ≠ [] →
  Forall (λ y, y ∈ tagged_post <$> posts) st.1 → x ∈ tagged_post <$> posts →
  ∃ st', thread_step username thr st x = Ok st' ∧ st'.1 ≠ [] ∧
         Forall (λ y, y ∈ tagged_post <$> posts) st'.1.
Proof.
  destruct st as [cur res]. simpl. intros Hu Hne Hcur Hx. unfold thread_step.
  destruct (proj2 (last_is_Some cur) Hne) as [prev Hprev].
  rewrite (proj2 (list_get_Ok cur _ prev)) by (by rewrite <- last_lookup).
  simpl.
  assert (prev ∈ tagged_post <$> posts) as Hprev'.
  { rewrite Forall_forall in Hcur. apply Hcur. by apply last_Some_elem_of. }
  destruct (joins_total thr posts prev x Hu Hprev' Hx) as [[] ->]; simpl.
  - eexists. split; [done|]. simpl. split; [by destruct cur|].
    apply Forall_app. split; [done|]. by constructor.
  - destruct (close_run_total username cur Hne) as [r ->]. simpl.
    eexists. split; [done|]. simpl. split; [done|]. by constructor.
Qed.

Lemma author_step_total thr posts res ua :
  uniform posts → ua.2 ≠ [] →
  Forall (λ y, y ∈ tagged_post <$> posts) ua.2 →
  ∃ res', author_step thr res ua = Ok res'.
Proof.
  destruct ua as [username [|x [|y rest]]]; intros Hu Hne Hall; [done|..].
  - destruct x. simpl. eauto.
  - rewrite author_step_many. simpl in Hall.
    apply Forall_cons in Hall as [Hx Hall].
    destruct (foldR_total (thread_step username thr)
                (λ _ st, st.1 ≠ [] ∧ Forall (λ y, y ∈ tagged_post <$> posts) st.1)
                (y :: rest) ([x], res)) as (st & -> & Hst & _).
    + split; [done|]. by constructor.
    + intros pre z post st Hsplit [Hst Hcur].
      destruct (thread_step_total username thr posts st z) as (st' & ? & ? & ?);
        [done|done|done| |by exists st'].
      rewrite Forall_forall in Hall. apply Hall. rewrite Hsplit. set_solver.
    + simpl. destruct (close_run_total username st.1 Hst) as [r ->]. simpl. eauto.
Qed.

(** [detect_threads] returns exactly when the sort keys of all posts are
    of one kind: all time stamps without time zone and none missing, or
    all with one where present. *)
Lemma detect_threads_returns_iff (posts : list post) (thr : Z) :
  (∃ out, detect_threads posts thr = Ok out) ↔ uniform posts.
Proof.
  rewrite detect_threads_unfold. split.
  - intros [out Hd].
    inv_bind Hd. rename a into by_author, Ha into Hsort.
    inv_bind Hd. rename a into results, Ha into Hwalk.
    inv_bind Hd. rename a into sorted, Ha into Hfinal.
    pose proof (sort_authors_grouped _ _ Hsort) as Hgrouped.
    pose proof (sort_authors_nonempty _ _ Hsort) as Hne.
    apply mapR_Ok in Hsort.
    apply authors_walk_spec in Hwalk as (news & -> & Hnews).
    (* within one author *)
    assert (∀ ua x y, ua ∈ by_author → x ∈ ua.2 → y ∈ ua.2 →
              same_kind (sort_key x.2) (sort_key y.2)) as Hauthor.
    { intros ua x y Hua Hx Hy.
      apply list_elem_of_lookup in Hua as [k Hk].
      destruct (Forall2_lookup_r _ _ _ _ _ Hsort Hk) as (g & _ & Hg).
      inv_bind Hg. injection Hg as <-. simpl in *.
      pose proof (sort_asc_perm _ _ _ Ha) as Hp.
      apply (sort_asc_kind post_lt
               (λ x y, same_kind (sort_key x.2) (sort_key y.2))
               (λ x y b, datetime_lt_same_kind _ _ b) _ _ Ha);
        by rewrite <- Hp. }
    (* across the emitted items *)
    assert (∀ a b, a ∈ concat news → b ∈ concat news →
              same_kind (sort_key a.1) (sort_key b.1)) as Htags.
    { apply (sort_desc_kind tag_lt
               (λ a b, same_kind (sort_key a.1) (sort_key b.1))
               (λ x y b, datetime_lt_same_kind _ _ b) _ _ Hfinal). }
    (* every post is of the kind of an emitted item *)
    assert (∀ p, p ∈ posts → ∃ a, a ∈ concat news ∧
              same_kind (sort_key (parse_created_at p)) (sort_key a.1)) as Hpost.
    { intros p Hp.
      destruct (grouped_covers _ _ _ Hgrouped Hp) as (ua & Hua & Hin).
      pose proof Hua as Hua'.
      apply list_elem_of_lookup in Hua' as [k Hk].
      destruct (Forall2_lookup_l _ _ _ _ _ Hnews Hk) as (new & Hnew & Hitems).
      rewrite Forall_forall in Hne.
      pose proof (author_items_nonempty _ _ _ Hitems (Hne ua Hua)) as Hnew'.
      destruct new as [|[t r] new]; [done|].
      destruct (author_items_tag _ _ _ t r Hitems) as (x & Hx & ->); [set_solver|].
      exists (x.2, r). split.
      - apply list_elem_of_In, in_concat. exists ((x.2, r) :: new).
        split; apply list_elem_of_In; [by eapply list_elem_of_lookup_2|set_solver].
      - apply (Hauthor ua (tagged_post p) x Hua Hin Hx). }
    intros p q Hp Hq.
    destruct (Hpost p Hp) as (a & Ha & Hpa), (Hpost q Hq) as (b & Hb & Hqb).
    etrans; [exact Hpa|]. etrans; [exact (Htags a b Ha Hb)|]. by symmetry.
  - intros Hu.
    destruct (mapR_total
                (λ ua : string * list (post * option datetime),
                   let* l := sort_asc post_lt ua.2 in Ok (ua.1, l))
                (group_by_author posts)) as (by_author & Hsort & _).
    { intros ua Hua.
      destruct (sort_asc_total post_lt ua.2) as [l ->]; [|simpl; eauto].
      intros x y Hx Hy.
      destruct (group_by_author_spec posts) as (Hperm & _).
      assert (∀ z, z ∈ ua.2 → z ∈ tagged_post <$> posts) as Hknown.
      { intros z Hz. rewrite <- Hperm. apply list_elem_of_In, in_concat.
        exists ua.2. split; apply list_elem_of_In; [by apply list_elem_of_fmap_2|done]. }
      apply Hknown, list_elem_of_fmap in Hx as (p & -> & Hp).
      apply Hknown, list_elem_of_fmap in Hy as (q & -> & Hq).
      apply same_kind_lt, Hu; done. }
    rewrite Hsort. simpl.
    pose proof (sort_authors_grouped _ _ Hsort) as Hgrouped.
    pose proof (sort_authors_nonempty _ _ Hsort) as Hne.
    destruct (foldR_total (author_step thr) (λ _ _, True) by_author [])
      as (results & Hwalk & _); [done| |].
    { intros pre ua post res Hsplit _.
      destruct (author_step_total thr posts res ua) as [res' Hres']; [done| | |eauto].
      - rewrite Forall_forall in Hne. apply Hne. rewrite Hsplit. set_solver.
      - apply Forall_forall. intros x Hx.
        apply (grouped_known _ _ ua x Hgrouped); [|done]. rewrite Hsplit. set_solver. }
    rewrite Hwalk. simpl.
    apply authors_walk_spec in Hwalk as (news & -> & Hnews).
    destruct (sort_desc_total tag_lt (concat news)) as [sorted ->]; [|simpl; eauto].
    intros [t1 r1] [t2 r2] H1 H2.
    destruct (result_tag_known _ _ _ _ _ _ Hgrouped Hnews H1) as (p & Hp & ->).
    destruct (result_tag_known _ _ _ _ _ _ Hgrouped Hnews H2) as (q & Hq & ->).
    apply same_kind_lt, Hu; done.
Qed.
End thread_total.

(** ** Normalisation *)

(** C10: [normalize_item] with the kind [x_thread] on a record whose list
    of posts is empty (or absent) does not fail: it returns an item with
    empty title, empty text, the placeholder ["#"] as url and no entity. *)
Theorem normalize_item_empty_thread (r : record) :
  default [] (get_posts r) = [] →
  normalize_item r "x_thread" =
    Some {| item_type := "x_thread";
            item_title := "";
            item_text := "";
            item_url := "#";
            item_source := "@" +:+ default "" (get_username r);
            item_entities := ∅;
            item_original := r |}.
Proof. intros Hposts. unfold normalize_item. simpl. rewrite Hposts. reflexivity. Qed.

Lemma normalize_item_empty_thread_witness :
  default [] (get_posts (thread_of "alice" [])) = [] ∧
  normalize_item (thread_of "alice" []) "x_thread" =
    Some {| item_type := "x_thread";
            item_title := "";
            item_text := "";
            item_url := "#";
            item_source := "@alice";
            item_entities := ∅;
            item_original := thread_of "alice" [] |}.
Proof.
  split; [reflexivity|].
  exact (normalize_item_empty_thread (thread_of "alice" []) eq_refl).
Defined.

(** ** Clustering: further properties *)

Lemma index_append_author (entity : string) (i : nat) (d : list (string * list nat)) :
  index_append entity i d = author_append entity i d.
Proof.
  induction d as [|[e l] d IH]; simpl; [done|].
  destruct (String.eqb entity e); [done|by rewrite IH].
Qed.

(** an entry keeps its positions when the index grows *)
Lemma index_append_keep (entity : string) (j : nat) d (e : string) (i : nat) :
  (∃ l, (e, l) ∈ d ∧ i ∈ l) → ∃ l, (e, l) ∈ index_append entity j d ∧ i ∈ l.
Proof.
  induction d as [|[e0 l0] d IH]; simpl.
  - intros (l & Hin & _). by apply not_elem_of_nil in Hin.
  - intros (l & [Heq|Hin]%elem_of_cons & Hi).
    + injection Heq as -> ->.
      destruct (String.eqb entity e0).
      * exists (l0 ++ [j]). set_solver.
      * exists l0. set_solver.
    + destruct (String.eqb entity e0).
      * exists l. set_solver.
      * destruct IH as (l' & Hin' & Hi'); [eauto|]. exists l'. set_solver.
Qed.

Lemma index_append_new (entity : string) (j : nat) d :
  ∃ l, (entity, l) ∈ index_append entity j d ∧ j ∈ l.
Proof.
  induction d as [|[e0 l0] d IH]; simpl.
  - exists [j]. set_solver.
  - destruct (String.eqb_spec entity e0) as [->|Hne].
    + exists (l0 ++ [j]). set_solver.
    + destruct IH as (l & Hin & Hj). exists l. set_solver.
Qed.

Lemma index_append_NoDup (entity : string) (j : nat) d :
  NoDup (fst <$> d) → NoDup (fst <$> index_append entity j d).
Proof.
  intros Hnd. rewrite index_append_author, author_append_keys.
  destruct (decide (entity ∈ fst <$> d)) as [Hin|Hnin]; [done|].
  apply NoDup_app. split; [done|]. split; [|apply NoDup_singleton].
  intros x Hx ->%list_elem_of_singleton. done.
Qed.

Lemma NoDup_fst_eq {A B : Type} (d : list (A * B)) (k : A) (x y : B) :
  NoDup (fst <$> d) → (k, x) ∈ d → (k, y) ∈ d → x = y.
Proof.
  induction d as [|[k0 z] d IH]; csimpl.
  - intros _ Hx. by apply not_elem_of_nil in Hx.
  - intros [Hnin Hnd]%NoDup_cons [Hx|Hx]%elem_of_cons [Hy|Hy]%elem_of_cons.
    + congruence.
    + injection Hx as -> ->. exfalso. apply Hnin.
      apply list_elem_of_fmap. by exists (k0, y).
    + injection Hy as -> ->. exfalso. apply Hnin.
      apply list_elem_of_fmap. by exists (k0, x).
    + by apply IH.
Qed.

Lemma length_filter_mono {A : Type} (P Q : A → Prop)
    `{∀ x, Decision (P x)} `{∀ x, Decision (Q x)} (l : list A) :
  (∀ x, x ∈ l → P x → Q x) →
  (length (filter P l) ≤ length (filter Q l))%nat.
Proof.
  induction l as [|x l IH]; intros HPQ; [done|].
  rewrite !filter_cons.
  assert (length (filter P l) ≤ length (filter Q l))%nat as Hle
    by (apply IH; intros; apply HPQ; [set_solver|done]).
  destruct (decide (P x)) as [HP|HP].
  - rewrite decide_True by (apply HPQ; [set_solver|done]). simpl. lia.
  - destruct (decide (Q x)); simpl; lia.
Qed.

Lemma filter_none {A : Type} (P : A → Prop) `{∀ x, Decision (P x)} (l : list A) :
  (∀ x, x ∈ l → ¬ P x) → filter P l = [].
Proof.
  induction l as [|x l IH]; intros Hl; [done|].
  rewrite filter_cons, decide_False by (apply Hl; set_solver).
  apply IH. intros; apply Hl; set_solver.
Qed.

Lemma length_filter_fmap {A B : Type} (f : A → B) (Q : B → Prop)
    `{∀ y, Decision (Q y)} (l : list A) :
  length (filter Q (f <$> l)) = length (filter (λ x, Q (f x)) l).
Proof.
  induction l as [|x l IH]; [done|].
  rewrite fmap_cons, !filter_cons. destruct (decide (Q (f x))); simpl; by rewrite IH.
Qed.

Section cluster_more.
Context `{SetOrder}.

(** the inverted index has one entry for each entity, with every
    position that holds an item with the entity *)
Lemma build_index_complete (items : list item) :
  NoDup (fst <$> build_index items) ∧
  ∀ i it e, items !! i = Some it → e ∈ item_entities it →
            ∃ l, (e, l) ∈ build_index items ∧ i ∈ l.
Proof.
  unfold build_index.
  enough (NoDup (fst <$> foldl (λ d '(i, it),
              foldl (λ d entity, index_append entity i d) d
                    (set_iter (item_entities it))) [] (enumerate items)) ∧
          ∀ x e, x ∈ enumerate items → e ∈ item_entities x.2 →
            ∃ l, (e, l) ∈ foldl (λ d '(i, it),
              foldl (λ d entity, index_append entity i d) d
                    (set_iter (item_entities it))) [] (enumerate items) ∧ x.1 ∈ l)
    as [Hnd Hall].
  { split; [done|]. intros i it e Hit He.
    apply (Hall (i, it)); [by apply enumerate_elem|done]. }
  apply (foldl_inv _
    (λ pre (d : list (string * list nat)), NoDup (fst <$> d) ∧
       ∀ (x : nat * item) e, x ∈ pre → e ∈ item_entities x.2 →
              ∃ l, (e, l) ∈ d ∧ x.1 ∈ l)).
  { split; [constructor|]. intros x e Hx. by apply not_elem_of_nil in Hx. }
  intros pre [i it] post d _ [Hnd Hall].
  enough (NoDup (fst <$> foldl (λ d entity, index_append entity i d) d
                               (set_iter (item_entities it))) ∧
          (∀ (x : nat * item) e, x ∈ pre → e ∈ item_entities x.2 →
             ∃ l, (e, l) ∈ foldl (λ d entity, index_append entity i d) d
                                 (set_iter (item_entities it)) ∧ x.1 ∈ l) ∧
          ∀ e, e ∈ set_iter (item_entities it) →
             ∃ l, (e, l) ∈ foldl (λ d entity, index_append entity i d) d
                                 (set_iter (item_entities it)) ∧ i ∈ l)
    as (Hnd' & Hall' & Hdone).
  { split; [done|].
    intros x e [Hx| ->%list_elem_of_singleton]%elem_of_app He; [eauto|].
    apply Hdone. by apply set_iter_elem. }
  apply (foldl_inv _
    (λ done (d' : list (string * list nat)), NoDup (fst <$> d') ∧
       (∀ (x : nat * item) e, x ∈ pre → e ∈ item_entities x.2 →
              ∃ l, (e, l) ∈ d' ∧ x.1 ∈ l) ∧
       ∀ e, e ∈ done → ∃ l, (e, l) ∈ d' ∧ i ∈ l)).
  - split; [done|]. split; [done|]. intros e He. by apply not_elem_of_nil in He.
  - intros done e rest d' _ (Hnd' & Hall' & Hdone).
    split; [by apply index_append_NoDup|]. split.
    + intros x e' Hx He'. apply index_append_keep. eauto.
    + intros e' [He'| ->%list_elem_of_singleton]%elem_of_app.
      * apply index_append_keep. eauto.
      * apply index_append_new.
Qed.

(** a generic topic is chosen only when nothing else is shared *)
Lemma pick_topic_generic (entity : string) (shared : gset string) :
  str_in (pick_topic entity shared) GENERIC_TOPICS = true →
  ∀ e, e ∈ shared → str_in e GENERIC_TOPICS = true.
Proof.
  unfold pick_topic.
  destruct (filter _ (set_iter shared)) as [|e0 l] eqn:E.
  - intros _ e He%set_iter_elem.
    destruct (str_in e GENERIC_TOPICS) eqn:Hg; [done|].
    assert (e ∈ filter (λ e, str_in e GENERIC_TOPICS = false) (set_iter shared)) as Hin
      by (by apply list_elem_of_filter).
    rewrite E in Hin. by apply not_elem_of_nil in Hin.
  - intros Hg.
    assert (e0 ∈ filter (λ e, str_in e GENERIC_TOPICS = false) (set_iter shared)) as Hin
      by (rewrite E; set_solver).
    apply list_elem_of_filter in Hin as [Hin _]. congruence.
Qed.

(** the clusters of the output are those of the loop and the left-over
    items *)
Lemma cluster_by_topic_unfold items min out :
  cluster_by_topic items min = Ok out → items ≠ [] →
  ∃ sorted st,
    sorted ≡ₚ build_index items ∧
    foldR (cluster_step items min) (∅, []) sorted = Ok st ∧
    out ≡ₚ st.2 ++ singletons items st.1.
Proof.
  unfold cluster_by_topic. destruct items as [|it0 its] eqn:Hitems; [done|].
  rewrite <- Hitems. clear Hitems it0 its.
  intros Hc _. inv_bind Hc. rename a into sorted, Ha into Hsorted.
  inv_bind Hc. rename a into st, Ha into Hloop.
  exists sorted, st. split; [by eapply sort_desc_perm|]. split; [done|].
  by eapply sort_asc_perm.
Qed.

(** one step of the loop adds at most one cluster, with the topic that
    [pick_topic] chooses among its shared entities, and claims every
    free position of the entry when it adds one *)
Lemma cluster_step_shape items min st el st' :
  cluster_step items min st el = Ok st' →
  (st' = st ∧ Z.of_nat (length (filter (λ i, i ∉ st.1) el.2)) < min) ∨
  (∃ c, st'.2 = st.2 ++ [c] ∧
        cluster_topic c = Some (pick_topic el.1 (cluster_entities c)) ∧
        ∀ i, i ∈ st'.1 ↔ i ∈ el.2 ∨ i ∈ st.1).
Proof.
  destruct st as [used clusters], el as [entity idxs]. unfold cluster_step.
  simpl.
  destruct (Z.of_nat (length (filter (λ i, i ∉ used) idxs)) <? min) eqn:Hlen.
  { intros [= <-]. left. split; [done|]. lia. }
  intros Hst. inv_bind Hst. inv_bind Hst. injection Hst as <-. right.
  eexists. split; [done|]. split; [done|]. simpl.
  intros i. rewrite foldl_union_elem, list_elem_of_filter.
  destruct (decide (i ∈ used)); tauto.
Qed.

(** X1: a cluster with a topic has at least [min_cluster_size] items
    and at least one; its topic is one of its shared entities, and its
    shared entities are exactly the entities that all its items have. *)
Theorem cluster_with_topic_exact (items : list item) (min_cluster_size : Z)
    (out : list cluster) (c : cluster) (t : string) :
  cluster_by_topic items min_cluster_size = Ok out → c ∈ out →
  cluster_topic c = Some t →
  t ∈ cluster_entities c ∧
  min_cluster_size ≤ Z.of_nat (length (cluster_items c)) ∧
  (1 ≤ length (cluster_items c))%nat ∧
  ∀ e, e ∈ cluster_entities c ↔
       ∀ it, it ∈ cluster_items c → e ∈ item_entities it.
Proof.
  intros (parts & _ & _ & Hall & _)%cluster_by_topic_spec Hc Ht.
  rewrite Forall_forall in Hall.
  destruct (Hall c Hc) as [(t' & Ht' & Hin & Hmin & Hne & Hshared)|[Hnone _]];
    [|congruence].
  assert (t' = t) as -> by congruence.
  split; [done|]. split; [done|]. split; [|done].
  destruct (cluster_items c); [done|simpl; lia].
Qed.

(** X2: an item without entities is never clustered: it comes out alone
    in a cluster without topic. *)
Theorem cluster_item_without_entities (items : list item) (min_cluster_size : Z)
    (out : list cluster) (it : item) :
  cluster_by_topic items min_cluster_size = Ok out →
  it ∈ items → item_entities it = ∅ →
  ∃ c, c ∈ out ∧ cluster_topic c = None ∧ cluster_items c = [it].
Proof.
  intros Hout Hit Hempty.
  pose proof (cluster_by_topic_items_perm _ _ _ Hout) as Hperm.
  rewrite <- Hperm in Hit.
  apply list_elem_of_In, in_concat in Hit as (l & Hl & Hit).
  apply list_elem_of_In, list_elem_of_fmap in Hl as (c & -> & Hc).
  apply list_elem_of_In in Hit.
  destruct (cluster_by_topic_spec _ _ _ Hout) as (parts & _ & _ & Hall & _).
  rewrite Forall_forall in Hall.
  destruct (Hall c Hc) as [(t & _ & Hin & _ & _ & Hshared)|[Hnone (it0 & Hit0 & _)]].
  - pose proof (proj1 (Hshared t) Hin it Hit). set_solver.
  - exists c. split; [done|]. split; [done|].
    rewrite Hit0 in Hit. apply list_elem_of_singleton in Hit. by subst.
Qed.

(** X3: the topic of a cluster is one of the generic topics only when
    every shared entity of the cluster is a generic topic. *)
Theorem cluster_generic_topic_last (items : list item) (min_cluster_size : Z)
    (out : list cluster) (c : cluster) (t e : string) :
  cluster_by_topic items min_cluster_size = Ok out → c ∈ out →
  cluster_topic c = Some t → str_in t GENERIC_TOPICS = true →
  e ∈ cluster_entities c → str_in e GENERIC_TOPICS = true.
Proof.
  intros Hout Hc Ht Hg He.
  destruct items as [|it0 its] eqn:Hitems.
  { injection Hout as <-. by apply not_elem_of_nil in Hc. }
  rewrite <- Hitems in Hout.
  destruct (cluster_by_topic_unfold _ _ _ Hout) as (sorted & st & _ & Hloop & Hperm);
    [by rewrite Hitems|].
  rewrite Hperm in Hc. apply elem_of_app in Hc as [Hc|Hc].
  - revert c t e Hc Ht Hg He.
    apply (foldR_inv (cluster_step items min_cluster_size)
      (λ _ (s : gset nat * list cluster), ∀ c t e, c ∈ s.2 →
         cluster_topic c = Some t → str_in t GENERIC_TOPICS = true →
         e ∈ cluster_entities c → str_in e GENERIC_TOPICS = true)
      sorted (∅, []) st); [| |exact Hloop].
    + intros c t e Hc. by apply not_elem_of_nil in Hc.
    + intros pre el post s s' _ IH Hstep c t e Hc Ht Hg He.
      apply cluster_step_shape in Hstep as [[-> _]|(c' & Hs' & Ht' & _)];
        [by eapply IH|].
      rewrite Hs' in Hc. apply elem_of_app in Hc as [Hc|Hc]; [by eapply IH|].
      apply list_elem_of_singleton in Hc as ->.
      rewrite Ht' in Ht. injection Ht as <-.
      by eapply pick_topic_generic.
  - unfold singletons in Hc. apply list_elem_of_fmap in Hc as ([i it] & -> & _).
    discriminate.
Qed.

(** every entry the loop has passed has fewer than [min] free
    positions left *)
Lemma cluster_loop_exhausts items min l st :
  1 ≤ min →
  foldR (cluster_step items min) (∅, []) l = Ok st →
  ∀ el, el ∈ l → Z.of_nat (length (filter (λ i, i ∉ st.1) el.2)) < min.
Proof.
  intros Hmin Hloop.
  apply (foldR_inv (cluster_step items min)
    (λ pre (s : gset nat * list cluster), ∀ el : string * list nat, el ∈ pre →
       Z.of_nat (length (filter (λ i, i ∉ s.1) el.2)) < min)
    l (∅, []) st); [| |exact Hloop].
  - intros el Hel. by apply not_elem_of_nil in Hel.
  - intros pre x post s s' _ IH Hstep el Hel.
    apply cluster_step_shape in Hstep as [[-> Hlt]|(c & _ & _ & Hused)].
    + apply elem_of_app in Hel as [Hel| ->%list_elem_of_singleton]; auto.
    + apply elem_of_app in Hel as [Hel| ->%list_elem_of_singleton].
      * specialize (IH el Hel).
        pose proof (length_filter_mono (λ i, i ∉ s'.1) (λ i, i ∉ s.1) el.2) as Hle.
        assert (length (filter (λ i, i ∉ s'.1) el.2) ≤
                length (filter (λ i, i ∉ s.1) el.2))%nat; [|lia].
        apply Hle. intros i _ Hi Hi'. apply Hi, Hused. by right.
      * rewrite filter_none; [simpl; lia|].
        intros i Hi Hi'. apply Hi', Hused. by left.
Qed.

(** X4: the clustering leaves no cluster unformed: for a minimal
    cluster size of at least one, fewer than [min_cluster_size] of the
    left-over items (the clusters without topic) have any one entity;
    with the default size of two, no two left-over items share an
    entity. *)
Theorem cluster_leftover_bound (items : list item) (min_cluster_size : Z)
    (out : list cluster) (e : string) :
  1 ≤ min_cluster_size →
  cluster_by_topic items min_cluster_size = Ok out →
  Z.of_nat (length (filter (λ c, cluster_topic c = None ∧ e ∈ cluster_entities c)
                           out)) < min_cluster_size.
Proof.
  intros Hmin Hout.
  destruct items as [|it0 its] eqn:Hitems.
  { injection Hout as <-. simpl. lia. }
  rewrite <- Hitems in Hout.
  destruct (cluster_by_topic_unfold _ _ _ Hout) as (sorted & st & Hsorted & Hloop & Hperm);
    [by rewrite Hitems|].
  clear Hitems it0 its.
  rewrite Hperm, filter_app, length_app.
  destruct (cluster_loop_inv items min_cluster_size sorted st) as (parts & _ & _ & _ & Hformed);
    [rewrite Hsorted; apply build_index_ok|done|].
  rewrite (filter_none _ st.2).
  2:{ intros c Hc [Hnone _]. rewrite Forall_forall in Hformed.
      destruct (Hformed c Hc) as (t & Ht & _). congruence. }
  simpl. unfold singletons. rewrite length_filter_fmap.
  set (L := filter _ (filter _ (enumerate items))).
  assert (∀ x, x ∈ L → (x.1 ∉ st.1) ∧ items !! x.1 = Some x.2 ∧ e ∈ item_entities x.2)
    as HL.
  { intros [i it] [[_ He] [Hi Hin]%list_elem_of_filter]%list_elem_of_filter.
    split; [done|]. split; [by apply enumerate_elem|done]. }
  assert (NoDup (fst <$> L)) as Hnd.
  { apply (sublist_NoDup _ (fst <$> enumerate items)).
    - rewrite enumerate_fst. apply NoDup_seq.
    - apply fmap_sublist. etrans; apply sublist_filter. }
  destruct (build_index_complete items) as [Hkeys Hcomplete].
  destruct L as [|x0 L0] eqn:HL0; [simpl; lia|]. rewrite <- HL0 in *.
  destruct (HL x0) as (_ & Hx0 & He0); [rewrite HL0; set_solver|].
  destruct (Hcomplete _ _ _ Hx0 He0) as (l0 & Hl0 & _).
  assert (Z.of_nat (length (filter (λ i, i ∉ st.1) l0)) < min_cluster_size) as Hlt.
  { apply (cluster_loop_exhausts items min_cluster_size sorted st Hmin Hloop (e, l0)).
    by rewrite Hsorted. }
  assert (length L ≤ length (filter (λ i, i ∉ st.1) l0))%nat; [|lia].
  rewrite <- (length_fmap fst L). apply submseteq_length, NoDup_submseteq; [done|].
  intros i ([i' it] & -> & Hin)%list_elem_of_fmap.
  destruct (HL _ Hin) as (Hfree & Hit & He). simpl in *.
  destruct (Hcomplete _ _ _ Hit He) as (l & Hl & Hi).
  rewrite (NoDup_fst_eq _ _ _ _ Hkeys Hl0 Hl).
  by apply list_elem_of_filter.
Qed.
End cluster_more.

Lemma cluster_with_topic_exact_witness :
  let c := {| cluster_topic := Some "OpenAI"; cluster_entities := {["OpenAI"]};
              cluster_items := [news_openai; news_both] |} in
  let s := {| cluster_topic := None; cluster_entities := {["Anthropic"]};
              cluster_items := [news_anthropic] |} in
  @cluster_by_topic elements_order [news_openai; news_both; news_anthropic] 2 = Ok [c; s] ∧
  c ∈ [c; s] ∧ cluster_topic c = Some "OpenAI" ∧
  "OpenAI" ∈ cluster_entities c ∧
  2 ≤ Z.of_nat (length (cluster_items c)) ∧
  (1 ≤ length (cluster_items c))%nat ∧
  ∀ e, e ∈ cluster_entities c ↔ ∀ it, it ∈ cluster_items c → e ∈ item_entities it.
Proof.
  intros c s.
  assert (@cluster_by_topic elements_order [news_openai; news_both; news_anthropic] 2
          = Ok [c; s]) as Hout by (vm_compute; reflexivity).
  assert (c ∈ [c; s]) as Hc by apply list_elem_of_here.
  split; [exact Hout|]. split; [exact Hc|]. split; [reflexivity|].
  exact (@cluster_with_topic_exact elements_order _ 2 [c; s] c "OpenAI" Hout Hc eq_refl).
Defined.

Lemma cluster_item_without_entities_witness :
  let items := [news_openai; news_item "nothing to report"; news_both] in
  ∃ out, @cluster_by_topic elements_order items 2 = Ok out ∧
    news_item "nothing to report" ∈ items ∧
    item_entities (news_item "nothing to report") = ∅ ∧
    ∃ c, c ∈ out ∧ cluster_topic c = None ∧
         cluster_items c = [news_item "nothing to report"].
Proof.
  intros items.
  destruct (@cluster_by_topic elements_order items 2) as [out|] eqn:Hout;
    [|vm_compute in Hout; discriminate].
  assert (news_item "nothing to report" ∈ items) as Hin
    by apply list_elem_of_further, list_elem_of_here.
  assert (item_entities (news_item "nothing to report") = ∅) as Hempty
    by (vm_compute; reflexivity).
  exists out. split; [reflexivity|]. split; [exact Hin|]. split; [exact Hempty|].
  exact (@cluster_item_without_entities elements_order items 2 out _ Hout Hin Hempty).
Defined.

Lemma cluster_generic_topic_last_witness :
  let a := news_item "a debate on safety" in
  let b := news_item "safety rules grow" in
  let c := {| cluster_topic := Some "AI Safety"; cluster_entities := {["AI Safety"]};
              cluster_items := [a; b] |} in
  @cluster_by_topic elements_order [a; b] 2 = Ok [c] ∧ c ∈ [c] ∧
  cluster_topic c = Some "AI Safety" ∧ str_in "AI Safety" GENERIC_TOPICS = true ∧
  "AI Safety" ∈ cluster_entities c ∧ str_in "AI Safety" GENERIC_TOPICS = true.
Proof.
  intros a b c.
  assert (@cluster_by_topic elements_order [a; b] 2 = Ok [c]) as Hout
    by (vm_compute; reflexivity).
  assert (c ∈ [c]) as Hc by apply list_elem_of_here.
  assert ("AI Safety" ∈ cluster_entities c) as He by (simpl; set_solver).
  split; [exact Hout|]. split; [exact Hc|]. split; [reflexivity|].
  split; [reflexivity|]. split; [exact He|].
  exact (@cluster_generic_topic_last elements_order [a; b] 2 [c] c "AI Safety" "AI Safety"
           Hout Hc eq_refl eq_refl He).
Defined.

Lemma cluster_leftover_bound_witness :
  let c := {| cluster_topic := Some "OpenAI"; cluster_entities := {["OpenAI"]};
              cluster_items := [news_openai; news_both] |} in
  let s := {| cluster_topic := None; cluster_entities := {["Anthropic"]};
              cluster_items := [news_anthropic] |} in
  1 ≤ 2 ∧
  @cluster_by_topic elements_order [news_openai; news_both; news_anthropic] 2 = Ok [c; s] ∧
  Z.of_nat (length (filter (λ c, cluster_topic c = None ∧ "Anthropic" ∈ cluster_entities c)
                           [c; s])) < 2.
Proof.
  intros c s.
  assert (@cluster_by_topic elements_order [news_openai; news_both; news_anthropic] 2
          = Ok [c; s]) as Hout by (vm_compute; reflexivity).
  split; [lia|]. split; [exact Hout|].
  exact (@cluster_leftover_bound elements_order _ 2 [c; s] "Anthropic" ltac:(lia) Hout).
Defined.

(** ** Thread detection: further properties *)

(** in a run of two posts or more every post has a time stamp *)
Lemma chained_stamped (thr : Z) (run : list (post * option datetime))
    (y : post * option datetime) :
  chained thr run → (2 ≤ length run)%nat → y ∈ run → is_Some y.2.
Proof.
  intros Hch Hlen (l1 & l2 & ->)%list_elem_of_split.
  destruct l2 as [|y' l2].
  - destruct (decide (l1 = [])) as [->|Hne]; [simpl in Hlen; lia|].
    destruct (exists_last Hne) as (l1' & x' & ->).
    destruct (Hch l1' x' y []) as (d & pd & Hd & _); [by rewrite <- app_assoc|].
    by rewrite Hd.
  - destruct (Hch l1 y y' l2) as (d & pd & _ & Hpd & _); [done|].
    by rewrite Hpd.
Qed.

Lemma filter_all {A : Type} (P : A → Prop) `{∀ x, Decision (P x)} (l : list A) :
  (∀ x, x ∈ l → P x) → filter P l = l.
Proof.
  induction l as [|x l IH]; intros Hl; [done|].
  rewrite filter_cons, decide_True by (apply Hl; set_solver).
  f_equal. apply IH. intros; apply Hl; set_solver.
Qed.

Section thread_more.
Context `{IsoParser}.

(** what an emitted item is made of: a run of posts of one author *)
Lemma detect_threads_item posts thr out r :
  detect_threads posts thr = Ok out → r ∈ out →
  ∃ u run,
    run ≠ [] ∧ chained thr run ∧
    Forall (λ x, x.1 ∈ posts ∧ x.2 = parse_created_at x.1 ∧
                 default "" (post_username x.1) = u) run ∧
    r = match run with
        | [x] => RPost x.1
        | _ => RThread {| thread_posts := Some (fst <$> run);
                          thread_username := Some u |}
        end.
Proof.
  intros (by_author & news & sorted & Hgrouped & Hnews & Hperm & _ & ->)%detect_threads_spec
    Hr.
  apply list_elem_of_fmap in Hr as ([t r'] & -> & Hin). simpl.
  rewrite Hperm in Hin.
  apply list_elem_of_In, in_concat in Hin as (new & Hnew & Hin).
  apply list_elem_of_In, list_elem_of_lookup in Hnew as [k Hk].
  apply list_elem_of_In in Hin.
  destruct (Forall2_lookup_r _ _ _ _ _ Hnews Hk)
    as (ua & Hua & runs & Hclosed & Hcat & Hruns & _).
  apply list_elem_of_lookup in Hin as [k' Hk'].
  destruct (Forall2_lookup_r _ _ _ _ _ Hclosed Hk') as (run & Hrun & Hclose).
  apply list_elem_of_lookup_2 in Hua, Hrun.
  rewrite Forall_forall in Hruns. destruct (Hruns run Hrun) as [Hne Hch].
  exists ua.1, run. split; [done|]. split; [done|]. split.
  - apply Forall_forall. intros x Hx.
    assert (x ∈ ua.2) as Hx'.
    { rewrite <- Hcat. apply list_elem_of_In, in_concat. exists run.
      split; by apply list_elem_of_In. }
    pose proof (grouped_known _ _ _ _ Hgrouped Hua Hx') as Hknown.
    apply list_elem_of_fmap in Hknown as (p & -> & Hp).
    split; [done|]. split; [done|].
    destruct Hgrouped as (_ & _ & Hall). rewrite Forall_forall in Hall.
    destruct (Hall ua Hua) as [Huser _]. rewrite Forall_forall in Huser.
    by apply (Huser (tagged_post p)).
  - apply close_run_Ok in Hclose as (x & rest & -> & _ & _ & Hr). simpl in Hr.
    rewrite Hr. by destruct rest.
Qed.

(** X5: [detect_threads] returns a result exactly when the sort keys of
    the posts are of one kind: when no post has a naive time stamp, or
    every post has one.  Otherwise it raises. *)
Theorem detect_threads_returns_when_uniform (posts : list post)
    (time_threshold_minutes : Z) :
  (∃ out, detect_threads posts time_threshold_minutes = Ok out) ↔
  ∀ p q, p ∈ posts → q ∈ posts →
    same_kind (sort_key (parse_created_at p)) (sort_key (parse_created_at q)).
Proof. apply detect_threads_returns_iff. Qed.

(** X6: when [detect_threads] returns, the posts of the emitted items,
    laid end to end, are the input posts in some order: no post is lost
    and none comes out twice. *)
Theorem detect_threads_conserves_posts (posts : list post)
    (time_threshold_minutes : Z) (out : list record) :
  detect_threads posts time_threshold_minutes = Ok out →
  concat (record_posts <$> out) ≡ₚ posts.
Proof. apply detect_threads_posts_perm. Qed.

(** X7: [detect_threads] emits posts and threads only.  An emitted post
    is an input post; an emitted thread carries its author and two
    posts or more, each an input post of that author with a time stamp
    that parses. *)
Theorem detect_threads_thread_shape (posts : list post)
    (time_threshold_minutes : Z) (out : list record) (r : record) :
  detect_threads posts time_threshold_minutes = Ok out → r ∈ out →
  match r with
  | RArticle _ => False
  | RPost p => p ∈ posts
  | RThread t =>
      ∃ u ps, thread_username t = Some u ∧ thread_posts t = Some ps ∧
              (2 ≤ length ps)%nat ∧
              ∀ p, p ∈ ps →
                   p ∈ posts ∧ default "" (post_username p) = u ∧
                   is_Some (parse_created_at p)
  end.
Proof.
  intros Hout Hr.
  destruct (detect_threads_item _ _ _ _ Hout Hr) as (u & run & Hne & Hch & Hall & ->).
  rewrite Forall_forall in Hall.
  destruct run as [|x [|y rest]]; [done|..].
  - apply (Hall x). set_solver.
  - exists u, (fst <$> x :: y :: rest). split; [done|]. split; [done|].
    split; [rewrite length_fmap; simpl; lia|].
    intros p (z & -> & Hz)%list_elem_of_fmap.
    destruct (Hall z Hz) as (Hp & Htag & Hu). split; [done|]. split; [done|].
    rewrite <- Htag. eapply chained_stamped; [exact Hch| |exact Hz]. simpl. lia.
Qed.

(** X8: the only post of its author comes out as a post of its own,
    whatever its time stamp. *)
Theorem detect_threads_single_post (posts : list post)
    (time_threshold_minutes : Z) (out : list record) (p : post) :
  detect_threads posts time_threshold_minutes = Ok out →
  filter (λ q, default "" (post_username q) = default "" (post_username p)) posts
    = [p] →
  RPost p ∈ out.
Proof.
  intros Hout Honly.
  assert (p ∈ posts) as Hp.
  { assert (p ∈ filter (λ q, default "" (post_username q) =
                             default "" (post_username p)) posts) as Hin
      by (rewrite Honly; set_solver).
    by apply list_elem_of_filter in Hin as [_ ?]. }
  pose proof (detect_threads_posts_perm _ _ _ Hout) as Hperm.
  rewrite <- Hperm in Hp.
  apply list_elem_of_In, in_concat in Hp as (l & Hl & Hp).
  apply list_elem_of_In, list_elem_of_fmap in Hl as (r & -> & Hr).
  apply list_elem_of_In in Hp.
  destruct (detect_threads_item _ _ _ _ Hout Hr) as (u & run & Hne & _ & Hall & Hrun).
  assert (record_posts r = fst <$> run) as Hposts.
  { rewrite Hrun. by destruct run as [|x [|y rest]]. }
  rewrite Hposts in Hp.
  (* the run holds posts of the author of [p] only, and [p] is the only one *)
  assert (length run ≤ 1)%nat as Hlen.
  { destruct (elem_of_concat_split (record_posts r) (record_posts <$> out))
      as (l1 & l2 & Hsplit); [by apply list_elem_of_fmap_2|].
    rewrite Hsplit, Hposts in Hperm.
    pose proof (filter_Permutation
      (λ q, default "" (post_username q) = default "" (post_username p))
      _ _ Hperm) as Hf.
    rewrite Honly, !filter_app in Hf. apply Permutation_length in Hf.
    rewrite !length_app in Hf. simpl in Hf.
    assert (filter (λ q, default "" (post_username q) = default "" (post_username p))
                   (fst <$> run) = fst <$> run) as Hall'.
    { apply filter_all. intros q (z' & -> & Hz')%list_elem_of_fmap.
      apply list_elem_of_fmap in Hp as (z & -> & Hz).
      rewrite Forall_forall in Hall.
      destruct (Hall z Hz) as (_ & _ & ->). by destruct (Hall z' Hz') as (_ & _ & ->). }
    rewrite Hall', length_fmap in Hf. lia. }
  destruct run as [|x [|y rest]]; [done| |simpl in Hlen; lia].
  simpl in Hrun. subst r. apply list_elem_of_fmap in Hp as (z & -> & Hz).
  apply list_elem_of_singleton in Hz as ->. done.
Qed.
End thread_more.

Lemma detect_threads_conserves_posts_witness :
  let p0 := post_at "alice" "2024-01-15T10:00:00Z" "one" in
  let p5 := post_at "alice" "2024-01-15T10:05:00Z" "two" in
  let p25 := post_at "alice" "2024-01-15T10:25:00Z" "three" in
  let out := [RPost p25; thread_of "alice" [p0; p5]] in
  @detect_threads basic_parser [p5; p25; p0] 10 = Ok out ∧
  concat (record_posts <$> out) ≡ₚ [p5; p25; p0].
Proof.
  intros p0 p5 p25 out.
  assert (@detect_threads basic_parser [p5; p25; p0] 10 = Ok out) as Hout
    by (vm_compute; reflexivity).
  split; [exact Hout|].
  exact (@detect_threads_conserves_posts basic_parser _ 10 out Hout).
Defined.

Lemma detect_threads_thread_shape_witness :
  let p0 := post_at "alice" "2024-01-15T10:00:00Z" "one" in
  let p5 := post_at "alice" "2024-01-15T10:05:00Z" "two" in
  let p25 := post_at "alice" "2024-01-15T10:25:00Z" "three" in
  let t := {| thread_posts := Some [p0; p5]; thread_username := Some "alice" |} in
  let out := [RPost p25; RThread t] in
  @detect_threads basic_parser [p5; p25; p0] 10 = Ok out ∧
  RThread t ∈ out ∧
  ∃ u ps, thread_username t = Some u ∧ thread_posts t = Some ps ∧
          (2 ≤ length ps)%nat ∧
          ∀ p, p ∈ ps →
               p ∈ [p5; p25; p0] ∧ default "" (post_username p) = u ∧
               is_Some (@parse_created_at basic_parser p).
Proof.
  intros p0 p5 p25 t out.
  assert (@detect_threads basic_parser [p5; p25; p0] 10 = Ok out) as Hout
    by (vm_compute; reflexivity).
  assert (RThread t ∈ out) as Hr by apply list_elem_of_further, list_elem_of_here.
  split; [exact Hout|]. split; [exact Hr|].
  exact (@detect_threads_thread_shape basic_parser _ 10 out (RThread t) Hout Hr).
Defined.

Lemma detect_threads_single_post_witness :
  let p0 := post_at "alice" "2024-01-15T10:00:00Z" "one" in
  let p5 := post_at "alice" "2024-01-15T10:05:00Z" "two" in
  let q := post_undated "bob" "three" in
  let out := [thread_of "alice" [p0; p5]; RPost q] in
  @detect_threads basic_parser [p5; q; p0] 10 = Ok out ∧
  filter (λ x, default "" (post_username x) = default "" (post_username q)) [p5; q; p0]
    = [q] ∧
  RPost q ∈ out.
Proof.
  intros p0 p5 q out.
  assert (@detect_threads basic_parser [p5; q; p0] 10 = Ok out) as Hout
    by (vm_compute; reflexivity).
  assert (filter (λ x, default "" (post_username x) = default "" (post_username q))
                 [p5; q; p0] = [q]) as Honly by (vm_compute; reflexivity).
  split; [exact Hout|]. split; [exact Honly|].
  exact (@detect_threads_single_post basic_parser _ 10 out q Hout Honly).
Defined.

(** ** Strings: concatenation, case and trimming *)

Lemma str_app_assoc (a b c : string) : (a +:+ b) +:+ c = a +:+ (b +:+ c).
Proof. induction a as [|x a IH]; [done|]. by rewrite !str_app_cons, IH. Qed.

Lemma str_app_nil_r (a : string) : a +:+ "" = a.
Proof. induction a as [|x a IH]; [done|]. by rewrite str_app_cons, IH. Qed.

Lemma str_length_app (a b : string) :
  String.length (a +:+ b) = (String.length a + String.length b)%nat.
Proof. induction a as [|x a IH]; [done|]. rewrite str_app_cons. simpl. by rewrite IH. Qed.

Lemma length_take_str (n : nat) (s : string) :
  String.length (take_str n s) = Nat.min n (String.length s).
Proof.
  revert s. induction n as [|n IH]; intros [|c s]; simpl; [done..|]. by rewrite IH.
Qed.

Lemma lower_app (a b : string) : lower (a +:+ b) = lower a +:+ lower b.
Proof. induction a as [|x a IH]; [done|]. rewrite !str_app_cons. simpl. by rewrite IH. Qed.

Lemma is_word_lower_char (c : ascii) : is_word (lower_char c) = is_word c.
Proof. by destruct c as [[] [] [] [] [] [] [] []]. Qed.

Lemma last_char_lower (d : option ascii) (s : string) :
  last_char (lower_char <$> d) (lower s) = lower_char <$> last_char d s.
Proof. revert d. induction s as [|c s IH]; intros d; [done|]. apply (IH (Some c)). Qed.

Lemma head_char_lower (s : string) : head_char (lower s) = lower_char <$> head_char s.
Proof. by destruct s. Qed.

Lemma is_word_opt_lower (c : option ascii) :
  is_word_opt (lower_char <$> c) = is_word_opt c.
Proof. destruct c; [apply is_word_lower_char|done]. Qed.

(** the last character of a text that is not empty does not depend on
    what comes before *)
Lemma last_char_default (d d' : option ascii) (s : string) :
  s ≠ "" → last_char d s = last_char d' s.
Proof. by destruct s. Qed.

Lemma is_word_last_app (pre a : string) :
  is_word_opt (last_char None pre) = false →
  is_word_opt (last_char None (pre +:+ a)) = is_word_opt (last_char None a).
Proof.
  intros Hpre. rewrite last_char_app. destruct a as [|c a]; [done|].
  by rewrite (last_char_default _ None).
Qed.

Lemma is_word_head_app (a suf : string) :
  is_word_opt (head_char suf) = false →
  is_word_opt (head_char (a +:+ suf)) = is_word_opt (head_char a).
Proof. intros Hsuf. by destruct a. Qed.

(** ** Occurrences in a longer text *)

Lemma occurs_extend (form text pre suf : string) :
  occurs form text → occurs form (pre +:+ text +:+ suf).
Proof.
  intros (p & s & ->). exists (pre +:+ p), (s +:+ suf).
  by rewrite !str_app_assoc.
Qed.

(** an occurrence between word boundaries stays one when the text is
    embedded between characters that are not word characters *)
Lemma occurs_as_word_extend (form text pre suf : string) :
  is_word_opt (last_char None pre) = false →
  is_word_opt (head_char suf) = false →
  occurs_as_word form text → occurs_as_word form (pre +:+ text +:+ suf).
Proof.
  intros Hpre Hsuf (p & s & -> & Hb1 & Hb2).
  exists (pre +:+ p), (s +:+ suf). split; [by rewrite !str_app_assoc|].
  unfold boundary in *. split.
  - rewrite is_word_last_app by done.
    by rewrite <- str_app_assoc, is_word_head_app.
  - rewrite str_app_assoc, is_word_last_app by done.
    destruct s as [|c s]; [|done]. rewrite str_app_nil in *. simpl in Hb2.
    rewrite Hsuf. exact Hb2.
Qed.

Lemma form_matches_extend (form text pre suf : string) :
  is_word_opt (last_char None pre) = false →
  is_word_opt (head_char suf) = false →
  form_matches form (lower text) = true →
  form_matches form (lower (pre +:+ text +:+ suf)) = true.
Proof.
  intros Hpre Hsuf. rewrite !form_matches_spec, !lower_app.
  destruct (String.length form <=? 3)%nat.
  - apply occurs_as_word_extend.
    + change None with (lower_char <$> (None : option ascii)).
      by rewrite last_char_lower, is_word_opt_lower.
    + by rewrite head_char_lower, is_word_opt_lower.
  - apply occurs_extend.
Qed.

(** a text joined with others sits between ends of the text or spaces *)
Lemma join_space_split (texts : list string) (t : string) :
  t ∈ texts →
  ∃ pre suf, join_space texts = pre +:+ t +:+ suf ∧
             is_word_opt (last_char None pre) = false ∧
             is_word_opt (head_char suf) = false.
Proof.
  induction texts as [|s l IH]; [by intros ?%elem_of_nil|].
  intros [->|Hin]%elem_of_cons.
  - destruct l as [|s' l].
    + exists "", "". simpl. by rewrite str_app_nil_r.
    + exists "", (" " +:+ join_space (s' :: l)). done.
  - destruct (IH Hin) as (pre & suf & Hj & Hpre & Hsuf).
    destruct l as [|s' l]; [by apply elem_of_nil in Hin|].
    exists (s +:+ " " +:+ pre), suf.
    change (join_space (s :: s' :: l)) with (s +:+ " " +:+ join_space (s' :: l)).
    rewrite Hj, !str_app_assoc. split; [done|]. split; [|done].
    rewrite last_char_app, str_app_cons, str_app_nil. simpl.
    destruct pre as [|c pre]; [done|].
    by rewrite (last_char_default _ None).
Qed.

(** ** The keyword filter *)

Lemma keywords_nonempty (keyword : string) : keyword ∈ AI_KEYWORDS → keyword ≠ "".
Proof.
  assert (forallb (λ k, negb (String.eqb k "")) AI_KEYWORDS = true) as Hall
    by (vm_compute; reflexivity).
  rewrite forallb_forall in Hall. intros Hin%list_elem_of_In%Hall.
  intros ->. done.
Qed.

(** X9: a text contains an AI keyword exactly when some keyword occurs in
    its lower-cased form: between word boundaries for a keyword of at
    most three characters (["ai"], ["ml"], ["llm"], ["gpt"], ["nlp"],
    ["rag"]), anywhere for a longer one. *)
Theorem contains_ai_keyword_spec (text : string) :
  contains_ai_keyword text = true ↔
  ∃ keyword, keyword ∈ AI_KEYWORDS ∧
    if (String.length keyword <=? 3)%nat then occurs_as_word keyword (lower text)
    else occurs keyword (lower text).
Proof.
  unfold contains_ai_keyword. destruct (String.eqb_spec text "") as [->|Hne].
  - split; [done|]. intros (keyword & Hin%keywords_nonempty & Hocc). simpl in Hocc.
    destruct (String.length keyword <=? 3)%nat;
      [apply occurs_as_word_occurs in Hocc|]; by apply occurs_empty in Hocc.
  - rewrite existsb_exists. split.
    + intros (keyword & Hin%list_elem_of_In & Hm%form_matches_spec). eauto.
    + intros (keyword & Hin%list_elem_of_In & Hm%form_matches_spec). eauto.
Qed.

Lemma filter_ai_content_filter (articles : list article) :
  filter_ai_content articles =
  filter (λ a, contains_ai_keyword (default "" (article_headline a) +:+ " " +:+
                                    default "" (article_description a)) = true)
         articles.
Proof.
  unfold filter_ai_content.
  apply (foldl_inv _ (λ pre (filtered : list article),
    filtered = filter (λ a, contains_ai_keyword
        (default "" (article_headline a) +:+ " " +:+
         default "" (article_description a)) = true) pre)); [done|].
  intros pre a post filtered _ ->. rewrite filter_app, filter_cons, filter_nil.
  destruct (contains_ai_keyword _) eqn:E.
  - by rewrite decide_True.
  - rewrite decide_False by congruence. by rewrite app_nil_r.
Qed.

(** X10: [filter_ai_content] keeps, in their order, exactly the articles
    whose headline and description, joined by a space, contain an AI
    keyword; filtering a second time changes nothing. *)
Theorem filter_ai_content_spec (articles : list article) :
  filter_ai_content articles `sublist_of` articles ∧
  (∀ a, a ∈ filter_ai_content articles ↔
        a ∈ articles ∧
        contains_ai_keyword (default "" (article_headline a) +:+ " " +:+
                              default "" (article_description a)) = true) ∧
  filter_ai_content (filter_ai_content articles) = filter_ai_content articles.
Proof.
  rewrite !filter_ai_content_filter. split; [apply sublist_filter|]. split.
  - intros a. rewrite list_elem_of_filter. tauto.
  - apply filter_all. by intros a [? _]%list_elem_of_filter.
Qed.

(** ** The account file *)

Lemma lstrip_head (f : ascii → bool) (s : string) (c : ascii) :
  head_char (lstrip f s) = Some c → f c = false.
Proof.
  induction s as [|x s IH]; simpl; [done|].
  destruct (f x) eqn:E; [done|]. simpl. by intros [= <-].
Qed.

Lemma lstrip_suffix (f : ascii → bool) (s : string) :
  ∃ pre, s = pre +:+ lstrip f s.
Proof.
  induction s as [|x s [pre IH]]; simpl; [by exists ""|].
  destruct (f x).
  - exists (String x pre). by rewrite str_app_cons, <- IH.
  - by exists "".
Qed.

Lemma rstrip_last (f : ascii → bool) (s : string) (c : ascii) :
  last_char None (rstrip f s) = Some c → f c = false.
Proof.
  induction s as [|x s IH]; simpl; [done|].
  destruct (rstrip f s) as [|y r] eqn:E.
  - destruct (f x) eqn:Ef; simpl; [done|]. by intros [= <-].
  - simpl in *. intros Hl. apply IH. by rewrite <- Hl.
Qed.

Lemma rstrip_prefix (f : ascii → bool) (s : string) :
  ∃ suf, s = rstrip f s +:+ suf.
Proof.
  induction s as [|x s [suf IH]]; simpl; [by exists ""|].
  destruct (rstrip f s) as [|y r] eqn:E.
  - destruct (f x).
    + by exists (String x s).
    + exists suf. rewrite str_app_cons. by rewrite IH at 1.
  - exists suf. rewrite str_app_cons. by rewrite IH at 1.
Qed.

Lemma length_omap_le {A B : Type} (f : A → option B) (l : list A) :
  (length (omap f l) ≤ length l)%nat.
Proof. induction l as [|x l IH]; csimpl; [done|]. destruct (f x); simpl; lia. Qed.

Lemma read_x_accounts_omap (lines : list string) :
  read_x_accounts lines =
  omap (λ line, let account := lstrip (Ascii.eqb "@") (strip line) in
                if negb (String.eqb account "") && negb (startswith "#" account)
                then Some account else None) lines.
Proof.
  unfold read_x_accounts.
  apply (foldl_inv _ (λ pre (accounts : list string),
    accounts = omap (λ line, let account := lstrip (Ascii.eqb "@") (strip line) in
                if negb (String.eqb account "") && negb (startswith "#" account)
                then Some account else None) pre)); [done|].
  intros pre line post accounts _ ->. rewrite omap_app. simpl.
  destruct (negb _ && negb _); [done|by rewrite app_nil_r].
Qed.

(** X11: every account that [read_x_accounts] returns is a piece of a
    line of the file that is not empty, begins neither with [@] nor with
    [#], and does not end with white space; there is at most one account
    for each line. *)
Theorem read_x_accounts_clean (lines : list string) (account : string) :
  account ∈ read_x_accounts lines →
  (∃ line, line ∈ lines ∧ occurs account line) ∧
  (∃ c, head_char account = Some c ∧ c ≠ "@"%char ∧ c ≠ "#"%char) ∧
  (∃ c, last_char None account = Some c ∧ is_space c = false) ∧
  (length (read_x_accounts lines) ≤ length lines)%nat.
Proof.
  rewrite read_x_accounts_omap.
  intros (line & Hline & Hacc)%list_elem_of_omap. simpl in Hacc.
  destruct (negb _ && negb _) eqn:E; [|done]. injection Hacc as Hacc.
  apply andb_true_iff in E as [Hne Hhash]. rewrite Hacc in Hne, Hhash.
  apply negb_true_iff in Hne, Hhash.
  destruct (lstrip_suffix (Ascii.eqb "@") (strip line)) as [pre2 Hpre2].
  rewrite Hacc in Hpre2.
  split; [|split; [|split]].
  - exists line. split; [done|].
    destruct (lstrip_suffix is_space line) as [pre1 Hpre1].
    destruct (rstrip_prefix is_space (lstrip is_space line)) as [suf1 Hsuf1].
    fold (strip line) in Hsuf1.
    exists (pre1 +:+ pre2), suf1.
    rewrite Hpre1 at 1. rewrite Hsuf1 at 1. rewrite Hpre2 at 1.
    by rewrite !str_app_assoc.
  - destruct account as [|c account]; [done|]. exists c. split; [done|]. split.
    + intros ->. pose proof (lstrip_head (Ascii.eqb "@") (strip line) "@") as Hh.
      rewrite Hacc in Hh. by specialize (Hh eq_refl).
    + intros ->. done.
  - assert (account ≠ "") as Hne' by (by intros ->).
    destruct (last_char None account) as [c|] eqn:Hlast.
    2:{ destruct account as [|x account]; [done|]. simpl in Hlast.
        clear -Hlast. exfalso. revert x Hlast.
        induction account as [|y account IH]; intros x; simpl; [done|apply IH]. }
    exists c. split; [done|].
    apply (rstrip_last is_space (lstrip is_space line)). fold (strip line).
    rewrite Hpre2, last_char_app. by rewrite (last_char_default _ None).
  - apply length_omap_le.
Qed.

Lemma read_x_accounts_clean_witness :
  let lines := ["# accounts"; "  @OpenAI  "; ""; "karpathy"] in
  "OpenAI" ∈ read_x_accounts lines ∧
  (∃ line, line ∈ lines ∧ occurs "OpenAI" line) ∧
  (∃ c, head_char "OpenAI" = Some c ∧ c ≠ "@"%char ∧ c ≠ "#"%char) ∧
  (∃ c, last_char None "OpenAI" = Some c ∧ is_space c = false) ∧
  (length (read_x_accounts lines) ≤ length lines)%nat.
Proof.
  intros lines.
  assert ("OpenAI" ∈ read_x_accounts lines) as Hin
    by (vm_compute; apply list_elem_of_here).
  split; [exact Hin|].
  exact (read_x_accounts_clean lines "OpenAI" Hin).
Defined.

(** ** Normalised items *)

(** X12: the title of the item made of a post or a thread has at most
    103 characters: the text, or its first 100 characters and three dots. *)
Theorem normalize_item_title_length (r : record) (kind : string) (it : item) :
  normalize_item r kind = Some it → kind ≠ "article" →
  (String.length (item_title it) ≤ 103)%nat.
Proof.
  assert (∀ s, String.length (short_title s) ≤ 103)%nat as Hshort.
  { intros s. unfold short_title. destruct (100 <? String.length s)%nat eqn:E.
    - rewrite str_length_app, length_take_str.
      change (String.length "...") with 3%nat.
      pose proof (Nat.le_min_l 100 (String.length s)). lia.
    - apply Nat.ltb_ge in E. lia. }
  unfold normalize_item. intros Hit Hkind.
  destruct (String.eqb_spec kind "article"); [done|].
  destruct (String.eqb kind "x_post"); [injection Hit as <-; apply Hshort|].
  destruct (String.eqb kind "x_thread"); [injection Hit as <-; apply Hshort|done].
Qed.

Lemma normalize_item_title_length_witness :
  let r := RPost (post_at "alice" "2024-01-15T10:00:00Z" "OpenAI ships a new model") in
  ∃ it, normalize_item r "x_post" = Some it ∧ "x_post" ≠ "article" ∧
        (String.length (item_title it) ≤ 103)%nat.
Proof.
  intros r. eexists. split; [reflexivity|].
  assert ("x_post" ≠ "article") as Hkind by discriminate.
  split; [exact Hkind|].
  exact (normalize_item_title_length r "x_post" _ eq_refl Hkind).
Defined.

(** X13: [normalize_item] gives an item exactly for the kinds
    ["article"], ["x_post"] and ["x_thread"]; the item has the kind as its
    type, keeps the record as its original, and has as entities those
    extracted from its text. *)
Theorem normalize_item_kinds (r : record) (kind : string) :
  (is_Some (normalize_item r kind) ↔ kind ∈ ["article"; "x_post"; "x_thread"]) ∧
  ∀ it, normalize_item r kind = Some it →
        item_type it = kind ∧ item_original it = r ∧
        item_entities it = extract_entities (item_text it).
Proof.
  unfold normalize_item.
  destruct (String.eqb_spec kind "article") as [->|H1].
  { split; [split; [set_solver|eauto]|]. by intros it [= <-]. }
  destruct (String.eqb_spec kind "x_post") as [->|H2].
  { split; [split; [set_solver|eauto]|]. by intros it [= <-]. }
  destruct (String.eqb_spec kind "x_thread") as [->|H3].
  { split; [split; [set_solver|eauto]|]. by intros it [= <-]. }
  split; [|done]. split; [by intros [? ?]|]. set_solver.
Qed.

(** X14: a thread item inherits the known entities of its posts: an
    entity of the dictionary whose surface form matches the text of a
    post of the thread is an entity of the item made of the thread. *)
Theorem thread_item_known_entities (r : record) (it : item) (p : post)
    (form e : string) :
  normalize_item r "x_thread" = Some it →
  p ∈ default [] (get_posts r) →
  (form, e) ∈ KNOWN_ENTITIES →
  form_matches form (lower (default "" (post_text p))) = true →
  e ∈ item_entities it.
Proof.
  intros [= <-] Hp Hform Hm. simpl.
  destruct (join_space_split ((λ p, default "" (post_text p)) <$> default [] (get_posts r))
              (default "" (post_text p))) as (pre & suf & Hj & Hpre & Hsuf).
  { apply list_elem_of_fmap. by exists p. }
  apply elem_of_extract_entities. left. exists form. split; [done|].
  apply form_matches_spec. rewrite Hj. by apply form_matches_extend.
Qed.

Lemma thread_item_known_entities_witness :
  let p1 := post_at "alice" "2024-01-15T10:00:00Z" "a word on safety" in
  let p2 := post_at "alice" "2024-01-15T10:05:00Z" "AWS" in
  let r := thread_of "alice" [p1; p2] in
  ∃ it, normalize_item r "x_thread" = Some it ∧
        p2 ∈ default [] (get_posts r) ∧
        ("aws", "AWS") ∈ KNOWN_ENTITIES ∧
        form_matches "aws" (lower (default "" (post_text p2))) = true ∧
        "AWS" ∈ item_entities it.
Proof.
  intros p1 p2 r. eexists. split; [reflexivity|].
  assert (p2 ∈ default [] (get_posts r)) as Hp
    by apply list_elem_of_further, list_elem_of_here.
  assert (("aws", "AWS") ∈ KNOWN_ENTITIES) as Hform.
  { apply list_elem_of_In. vm_compute. tauto. }
  assert (form_matches "aws" (lower (default "" (post_text p2))) = true) as Hm
    by (vm_compute; reflexivity).
  split; [exact Hp|]. split; [exact Hform|]. split; [exact Hm|].
  exact (thread_item_known_entities r _ p2 "aws" "AWS" eq_refl Hp Hform Hm).
Defined.

(** X20: no extracted entity is the empty string, and every one sorts
    before ["zzz"]: an entity is a name of the dictionary or begins with
    an upper-case letter.  So the topic of a cluster, one of the entities
    of its items, is never mistaken for a missing topic when the clusters
    are sorted. *)
Theorem extract_entities_labels (text e : string) :
  e ∈ extract_entities text → e ≠ "" ∧ String.ltb e "zzz" = true.
Proof. intros He. by eapply label_ok_spec, extract_entities_label_ok. Qed.

Lemma extract_entities_labels_witness :
  "AWS" ∈ extract_entities "I love AWS" ∧ "AWS" ≠ "" ∧ String.ltb "AWS" "zzz" = true.
Proof.
  assert ("AWS" ∈ extract_entities "I love AWS") as He.
  { replace (extract_entities "I love AWS") with ({["AWS"]} : gset string)
      by (vm_compute; reflexivity).
    set_solver. }
  split; [exact He|].
  exact (extract_entities_labels "I love AWS" "AWS" He).
Defined.

(** ** The account filter *)

Lemma filter_ext_in {A : Type} (P Q : A → Prop)
    `{∀ x, Decision (P x)} `{∀ x, Decision (Q x)} (l : list A) :
  (∀ x, x ∈ l → P x ↔ Q x) → filter P l = filter Q l.
Proof.
  induction l as [|x l IH]; intros HPQ; [done|].
  rewrite !filter_cons, IH by (intros; apply HPQ; set_solver).
  destruct (decide (P x)) as [HP|HP].
  - rewrite decide_True; [done|]. apply HPQ; [set_solver|done].
  - rewrite decide_False; [done|]. intros HQ. apply HP, HPQ; [set_solver|done].
Qed.

(** the loop of [filter_posts_by_accounts] *)
Lemma filter_posts_by_accounts_loop (accounts_lower : gset string) (posts : list post) :
  foldl (λ (st : list post * gset string) post,
           let '(filtered, found_accounts) := st in
           let username := default "" (post_username post) in
           if decide (lower username ∈ accounts_lower)
           then (filtered ++ [post], {[lower username]} ∪ found_accounts)
           else (filtered, found_accounts))
        ([], ∅) posts =
  (filter (λ p, lower (default "" (post_username p)) ∈ accounts_lower) posts,
   list_to_set ((λ p, lower (default "" (post_username p))) <$>
     filter (λ p, lower (default "" (post_username p)) ∈ accounts_lower) posts)).
Proof.
  apply (foldl_inv _ (λ pre (st : list post * gset string),
    st = (filter (λ p, lower (default "" (post_username p)) ∈ accounts_lower) pre,
          list_to_set ((λ p, lower (default "" (post_username p))) <$>
            filter (λ p, lower (default "" (post_username p)) ∈ accounts_lower) pre))));
    [done|].
  intros pre p post st _ ->. cbv zeta. rewrite filter_app, filter_cons, filter_nil.
  destruct (decide (lower (default "" (post_username p)) ∈ accounts_lower)).
  - rewrite ?decide_True by done.
    f_equal. rewrite fmap_app, list_to_set_app_L, (comm_L (∪)). f_equal.
    change (list_to_set ((λ p, lower (default "" (post_username p))) <$> [p]))
      with ({[lower (default "" (post_username p))]} ∪ (∅ : gset string)).
    by rewrite union_empty_r_L.
  - rewrite ?decide_False by done. by rewrite app_nil_r.
Qed.

(** X15: with a list of accounts that is not empty,
    [filter_posts_by_accounts] keeps, in their order, the posts whose
    user name is one of the accounts, both taken in lower case; the
    accounts found are those with a post, the accounts missing those
    without one, all in lower case.  (With no accounts every post is
    kept and both sets are empty.) *)
Theorem filter_posts_by_accounts_spec (posts : list post) (accounts : list string)
    (filtered : list post) (found_accounts missing_accounts : gset string) :
  accounts ≠ [] →
  filter_posts_by_accounts posts accounts =
    (filtered, found_accounts, missing_accounts) →
  filtered = filter (λ p, lower (default "" (post_username p)) ∈ lower <$> accounts)
                    posts ∧
  (∀ a, a ∈ found_accounts ↔
        a ∈ lower <$> accounts ∧
        ∃ p, p ∈ posts ∧ lower (default "" (post_username p)) = a) ∧
  (∀ a, a ∈ missing_accounts ↔
        a ∈ lower <$> accounts ∧
        ∀ p, p ∈ posts → lower (default "" (post_username p)) ≠ a).
Proof.
  intros Hne. unfold filter_posts_by_accounts.
  destruct accounts as [|a0 accounts0] eqn:Hacc; [done|]. rewrite <- Hacc. clear Hne.
  rewrite filter_posts_by_accounts_loop. intros [= <- <- <-].
  assert (∀ a, a ∈ (list_to_set ((λ p, lower (default "" (post_username p))) <$>
             filter (λ p, lower (default "" (post_username p)) ∈
                          (list_to_set (lower <$> accounts) : gset string)) posts)
                       : gset string)
            ↔ a ∈ lower <$> accounts ∧
              ∃ p, p ∈ posts ∧ lower (default "" (post_username p)) = a) as Hfound.
  { intros a. rewrite elem_of_list_to_set, list_elem_of_fmap. split.
    - intros (p & -> & [Hin Hp]%list_elem_of_filter).
      apply elem_of_list_to_set in Hin. eauto.
    - intros (Hin & p & Hp & <-). exists p. split; [done|].
      apply list_elem_of_filter. split; [|done]. by apply elem_of_list_to_set. }
  split; [|split].
  - apply filter_ext_in. intros p _. apply elem_of_list_to_set.
  - exact Hfound.
  - intros a. rewrite elem_of_difference, Hfound, elem_of_list_to_set.
    split.
    + intros [Hin Hno]. split; [done|]. intros p Hp Heq. apply Hno. eauto.
    + intros [Hin Hno]. split; [done|]. intros (_ & p & Hp & Heq). by apply (Hno p).
Qed.

Lemma filter_posts_by_accounts_spec_witness :
  let p := post_undated "Karpathy" "one" in
  let q := post_undated "bob" "two" in
  ["@x"; "karpathy"; "OpenAI"] ≠ [] ∧
  filter_posts_by_accounts [p; q] ["@x"; "karpathy"; "OpenAI"] =
    ([p], {["karpathy"]}, {["@x"; "openai"]}) ∧
  [p] = filter (λ p, lower (default "" (post_username p)) ∈
                     lower <$> ["@x"; "karpathy"; "OpenAI"]) [p; q] ∧
  (∀ a, a ∈ ({["karpathy"]} : gset string) ↔
        a ∈ lower <$> ["@x"; "karpathy"; "OpenAI"] ∧
        ∃ p', p' ∈ [p; q] ∧ lower (default "" (post_username p')) = a) ∧
  (∀ a, a ∈ ({["@x"; "openai"]} : gset string) ↔
        a ∈ lower <$> ["@x"; "karpathy"; "OpenAI"] ∧
        ∀ p', p' ∈ [p; q] → lower (default "" (post_username p')) ≠ a).
Proof.
  intros p q.
  assert (["@x"; "karpathy"; "OpenAI"] ≠ []) as Hne by discriminate.
  assert (filter_posts_by_accounts [p; q] ["@x"; "karpathy"; "OpenAI"] =
            ([p], {["karpathy"]}, {["@x"; "openai"]})) as Hf
    by (vm_compute; reflexivity).
  split; [exact Hne|]. split; [exact Hf|].
  exact (filter_posts_by_accounts_spec [p; q] ["@x"; "karpathy"; "OpenAI"]
           [p] {["karpathy"]} {["@x"; "openai"]} Hne Hf).
Defined.

(** ** The recency filter *)

Section recency_facts.
Context `{IsoParser} `{DateParser}.

(** the loop of [filter_posts_by_recency] *)
Lemma filter_posts_by_recency_loop (cutoff : Z) (posts : list post) :
  foldl (λ (st : list post * Z) p,
           let '(recent, dropped) := st in
           if is_recent cutoff p then (recent ++ [p], dropped)
           else (recent, dropped + 1))
        ([], 0) posts =
  (filter (λ p, is_recent cutoff p = true) posts,
   Z.of_nat (length (filter (λ p, is_recent cutoff p = false) posts))).
Proof.
  apply (foldl_inv _ (λ pre (st : list post * Z),
    st = (filter (λ p, is_recent cutoff p = true) pre,
          Z.of_nat (length (filter (λ p, is_recent cutoff p = false) pre)))));
    [done|].
  intros pre p post st _ ->. rewrite !filter_app, !filter_cons, !filter_nil.
  destruct (is_recent cutoff p) eqn:E.
  - rewrite decide_True, decide_False by done. by rewrite app_nil_r.
  - rewrite decide_False, decide_True by done.
    rewrite app_nil_r, length_app. simpl. f_equal. lia.
Qed.

Lemma length_filter_split {A : Type} (f : A → bool) (l : list A) :
  (length (filter (λ x, f x = true) l) + length (filter (λ x, f x = false) l)
   = length l)%nat.
Proof.
  induction l as [|x l IH]; [done|]. rewrite !filter_cons.
  destruct (f x) eqn:E.
  - rewrite decide_True, decide_False by done. simpl. lia.
  - rewrite decide_False, decide_True by done. simpl. lia.
Qed.

(** when is a post kept? *)
Lemma is_recent_spec (cutoff : Z) (p : post) :
  is_recent cutoff p = true ↔
  default "" (post_created_at p) = "" ∨
  ∀ us, recency_stamp (default "" (post_created_at p)) = Some (Aware us) →
        cutoff ≤ us.
Proof.
  unfold is_recent.
  destruct (String.eqb_spec (default "" (post_created_at p)) "") as [->|Hne];
    [tauto|].
  destruct (recency_stamp _) as [[us|us]|]; simpl.
  - split; [|done]. intros _. right. by intros us' [=].
  - rewrite negb_true_iff, Z.ltb_ge. split.
    + intros Hle. right. by intros us' [= <-].
    + intros [?|Hle]; [done|]. by apply Hle.
  - split; [|done]. intros _. right. by intros us' [=].
Qed.

(** X16: when [filter_posts_by_recency] returns, every post is either
    kept or counted as dropped, and the posts kept are in their order.
    A post is kept exactly when it has no time stamp, or its time stamp
    does not parse to an aware datetime before the cutoff: a post whose
    time stamp is missing, unparseable or naive is never dropped. *)
Theorem filter_posts_by_recency_spec (posts : list post) (now max_age_hours : Z)
    (recent : list post) (dropped : Z) :
  filter_posts_by_recency posts now max_age_hours = Some (recent, dropped) →
  recent `sublist_of` posts ∧
  Z.of_nat (length recent) + dropped = Z.of_nat (length posts) ∧
  ∀ p, p ∈ recent ↔
       p ∈ posts ∧
       (default "" (post_created_at p) = "" ∨
        ∀ us, recency_stamp (default "" (post_created_at p)) = Some (Aware us) →
              now - max_age_hours * 3600000000 ≤ us).
Proof.
  unfold filter_posts_by_recency. destruct posts as [|p0 posts0] eqn:Hposts.
  { intros [= <- <-]. split; [done|]. split; [done|]. intros p. set_solver. }
  rewrite <- Hposts. clear Hposts p0 posts0.
  destruct (cutoff_time now max_age_hours) as [cutoff|] eqn:Hcut; [|done]. csimpl.
  assert (cutoff = now - max_age_hours * 3600000000) as Hcutoff.
  { unfold cutoff_time in Hcut. by destruct (_ && _); [injection Hcut as <-|]. }
  rewrite filter_posts_by_recency_loop. intros [= <- <-].
  split; [apply sublist_filter|]. split.
  - pose proof (length_filter_split (is_recent cutoff) posts). lia.
  - intros p. rewrite list_elem_of_filter, is_recent_spec, Hcutoff. tauto.
Qed.
End recency_facts.

Lemma filter_posts_by_recency_spec_witness :
  let old := post_at "alice" "2024-01-14T09:00:00Z" "one" in
  let new := post_at "alice" "2024-01-15T09:00:00Z" "two" in
  let naive := post_at "bob" "2024-01-01T00:00:00" "three" in
  let day := post_at "bob" "2024-01-15" "four" in
  let bad := post_at "carol" "yesterday" "five" in
  let now := 63840909600000000 in
  let posts := [old; new; naive; day; bad] in
  let recent := [new; naive; day; bad] in
  @filter_posts_by_recency basic_parser basic_date_parser posts now 24
    = Some (recent, 1) ∧
  recent `sublist_of` posts ∧
  Z.of_nat (length recent) + 1 = Z.of_nat (length posts) ∧
  ∀ p, p ∈ recent ↔
       p ∈ posts ∧
       (default "" (post_created_at p) = "" ∨
        ∀ us, @recency_stamp basic_parser basic_date_parser
                (default "" (post_created_at p)) = Some (Aware us) →
              now - 24 * 3600000000 ≤ us).
Proof.
  intros old new naive day bad now posts recent.
  assert (@filter_posts_by_recency basic_parser basic_date_parser posts now 24
          = Some (recent, 1)) as Hf by (vm_compute; reflexivity).
  split; [exact Hf|].
  exact (@filter_posts_by_recency_spec basic_parser basic_date_parser
           posts now 24 recent 1 Hf).
Defined.

(** ** The pipeline of [generate_html] *)

Lemma omap_originals {A : Type} (f : A → option item) (orig : A → record)
    (l : list A) :
  (∀ x, x ∈ l → ∃ it, f x = Some it ∧ item_original it = orig x ∧ normalized it) →
  item_original <$> omap f l = orig <$> l ∧ Forall normalized (omap f l).
Proof.
  induction l as [|x l IH]; intros Hf; csimpl; [by split|].
  destruct (Hf x) as (it & -> & Horig & Hnorm); [set_solver|].
  destruct IH as [IH1 IH2]; [intros; apply Hf; set_solver|].
  csimpl. rewrite Horig, IH1. split; [done|]. by constructor.
Qed.

(** in a list in descending order of a property, the members with the
    property come first *)
Lemma sorted_filter_split {A : Type} (R : relation A) (Q : A → Prop)
    `{∀ x, Decision (Q x)} (l : list A) :
  (∀ x y, R x y → Q y → Q x) → StronglySorted R l →
  l = filter Q l ++ filter (λ x, ¬ Q x) l.
Proof.
  intros HR Hs. induction Hs as [|x l Hs IH Hall]; [done|].
  rewrite !filter_cons. destruct (decide (Q x)) as [HQ|HQ].
  - rewrite decide_False by tauto. simpl. by rewrite <- IH.
  - rewrite decide_True by done. rewrite Forall_forall in Hall.
    rewrite (filter_none Q l), (filter_all (λ x, ¬ Q x) l); [done| |];
      intros y Hy HQy; apply HQ, (HR x y); auto.
Qed.

Section pipeline_facts.
Context `{SetOrder} `{IsoParser}.

(** the items that [generate_html] clusters are the normalised forms of
    the articles and of the items that [detect_threads] makes of the
    posts *)
Lemma all_items_spec techmeme techcrunch x_posts items :
  all_items techmeme techcrunch x_posts = Ok items →
  Forall normalized items ∧
  ∃ x_items,
    detect_threads x_posts DEFAULT_TIME_THRESHOLD_MINUTES = Ok x_items ∧
    item_original <$> items = (RArticle <$> (techmeme ++ techcrunch)) ++ x_items.
Proof.
  unfold all_items.
  destruct (omap_originals (λ a, normalize_item (RArticle a) "article") RArticle techmeme)
    as [Ho1 Hn1].
  { intros a _. eexists. split; [reflexivity|]. split; reflexivity. }
  destruct (omap_originals (λ a, normalize_item (RArticle a) "article") RArticle techcrunch)
    as [Ho2 Hn2].
  { intros a _. eexists. split; [reflexivity|]. split; reflexivity. }
  destruct x_posts as [|p0 ps] eqn:Hposts.
  { intros [= <-]. split; [by apply Forall_app|]. exists [].
    split; [done|]. by rewrite !fmap_app, Ho1, Ho2, app_nil_r. }
  rewrite <- Hposts. intros Hit. inv_bind Hit. rename a into x_items, Ha into Hx.
  injection Hit as <-.
  destruct (omap_originals
              (λ r, if is_thread r then normalize_item r "x_thread"
                    else normalize_item r "x_post") id x_items) as [Ho3 Hn3].
  { intros r _. destruct (is_thread r); eexists;
      (split; [reflexivity|]); split; reflexivity. }
  split; [by repeat apply Forall_app_2|]. exists x_items. split; [done|].
  by rewrite !fmap_app, Ho1, Ho2, Ho3, list_fmap_id.
Qed.

(** X17: the list of clusters that [generate_html] renders is computed
    exactly when thread detection returns on the posts, that is when
    the sort keys of the posts are of one kind; the articles never make
    it fail. *)
Theorem generate_html_clusters_return (techmeme_articles techcrunch_articles : list article)
    (x_posts : list post) :
  (∃ clusters, clusters_of techmeme_articles techcrunch_articles x_posts = Ok clusters) ↔
  ∀ p q, p ∈ x_posts → q ∈ x_posts →
    same_kind (sort_key (parse_created_at p)) (sort_key (parse_created_at q)).
Proof.
  unfold clusters_of. split.
  - intros [clusters Hc]. inv_bind Hc. rename a into items, Ha into Hitems.
    apply all_items_spec in Hitems as (_ & x_items & Hx & _).
    apply (detect_threads_returns_iff x_posts DEFAULT_TIME_THRESHOLD_MINUTES). eauto.
  - intros Hu.
    apply (detect_threads_returns_iff x_posts DEFAULT_TIME_THRESHOLD_MINUTES) in Hu
      as [x_items Hx].
    assert (∃ items, all_items techmeme_articles techcrunch_articles x_posts = Ok items)
      as [items ->].
    { unfold all_items. destruct x_posts; [eauto|]. rewrite Hx. simpl. eauto. }
    simpl. apply cluster_by_topic_total. lia.
Qed.


(** X19: in the list of clusters that [generate_html] renders, the
    clusters of several items come first and the standalone items
    after them, and there is nothing else; a cluster is shown under a
    heading with its topic exactly when it has several items, which is
    exactly when it has a topic. *)
Theorem generate_html_headers (techmeme_articles techcrunch_articles : list article)
    (x_posts : list post) (clusters : list cluster) :
  clusters_of techmeme_articles techcrunch_articles x_posts = Ok clusters →
  clusters = multi_clusters clusters ++ standalone_items clusters ∧
  ∀ c, c ∈ clusters →
       (has_cluster_header c = true ↔ (1 < length (cluster_items c))%nat) ∧
       (is_Some (cluster_topic c) ↔ (1 < length (cluster_items c))%nat).
Proof.
  unfold clusters_of. intros Hc. inv_bind Hc. rename a into items, Ha into Hitems.
  apply all_items_spec in Hitems as (Hnorm & _).
  destruct (cluster_by_topic_spec _ _ _ Hc) as (parts & _ & _ & Hall & Hsorted).
  rewrite Forall_forall in Hall.
  assert (∀ c, c ∈ clusters → (1 ≤ length (cluster_items c))%nat) as Hlen.
  { intros c [(t & _ & _ & _ & Hne & _)|[_ (it & -> & _)]]%Hall; [|simpl; lia].
    destruct (cluster_items c); [done|simpl; lia]. }
  split.
  - unfold multi_clusters, standalone_items.
    rewrite (filter_ext_in (λ c, length (cluster_items c) = 1%nat)
               (λ c, ¬ (1 < length (cluster_items c))%nat) clusters).
    2:{ intros c Hin. specialize (Hlen c Hin). lia. }
    apply (sorted_filter_split cluster_le); [|done].
    intros x y Hle Hy. unfold cluster_le, key_le, cluster_key in Hle. simpl in Hle.
    lia.
  - intros c Hin. unfold has_cluster_header.
    destruct (Hall c Hin) as [(t & Ht & _ & Hmin & _)|[Hnone (it & Hit & _)]].
    + rewrite Ht.
      pose proof (cluster_topic_label_ok _ _ _ _ _ Hnorm Hc Hin Ht) as Hlabel.
      apply label_ok_spec in Hlabel as [Hne _].
      destruct (String.eqb_spec t ""); [done|]. simpl.
      rewrite Nat.ltb_lt. split; [done|]. split; [lia|eauto].
    + rewrite Hnone, Hit. simpl. split; [split; [done|lia]|].
      split; [by intros [? ?]|lia].
Qed.
End pipeline_facts.


Lemma generate_html_headers_witness :
  let a := {| article_headline := Some "OpenAI ships a new model";
              article_source := None; article_url := None;
              article_description := None |} in
  let p0 := post_at "alice" "2024-01-15T10:00:00Z" "OpenAI again" in
  let q := post_undated "bob" "nothing to report" in
  ∃ clusters,
    @clusters_of elements_order basic_parser [a] [] [q; p0] = Ok clusters ∧
    clusters = multi_clusters clusters ++ standalone_items clusters ∧
    ∀ c, c ∈ clusters →
         (has_cluster_header c = true ↔ (1 < length (cluster_items c))%nat) ∧
         (is_Some (cluster_topic c) ↔ (1 < length (cluster_items c))%nat).
Proof.
  intros a p0 q.
  destruct (@clusters_of elements_order basic_parser [a] [] [q; p0])
    as [clusters|] eqn:Hc; [|vm_compute in Hc; discriminate].
  exists clusters. split; [reflexivity|].
  exact (@generate_html_headers elements_order basic_parser [a] [] [q; p0] clusters Hc).
Defined.
